(** * vts-browser: resource streaming, cache eviction, traversal, draw order

    A shallow embedding of the resource pipeline of [MapImpl]
    ([loadResource], [dataTick], [fetchedFile], [dataRenderTick],
    [touchResource]), of [MapImpl::traverse] and of
    [CameraImpl::sortOpaqueFrontToBack] with [CameraImpl::renderUpdate],
    together with the properties the specification states about them.

    The map of resources is a [gmap] keyed by name; a pointer to a
    resource, as the queues and the fetcher hold it, is the key of the
    resource.  Integers of type [uint32] are [Z] with the wrap-around
    written out.  Code that is called but lives elsewhere (decoders,
    the fetcher, the disk, the geometric tests) enters as a variable of
    the section that uses it. *)

From Stdlib Require Import ZArith Lia Bool Ascii.
From Stdlib Require Import Sorting.Sorted Sorting.Permutation.
From Stdlib Require PrimFloat.
From stdpp Require Import base gmap sets list strings pretty.

Local Open Scope Z_scope.

(** ** Machine integers *)

(** [uint32] arithmetic wraps around. *)
Definition wrap32 (z : Z) : Z := z mod 2 ^ 32.

(** ** Data model *)

(** [ResourceImpl::State]. *)
Inductive State :=
| initializing
| downloading
| downloaded
| ready
| errorDownload
| errorLoad
| finalizing.

#[global] Instance State_eq_dec : EqDecision State.
Proof. solve_decision. Defined.

(** [vtslibs::registry::BoundLayer::Availability]. *)
Inductive AvailabilityType := negativeType | negativeCode | negativeSize.

Record Availability := {
  avail_type : AvailabilityType;
  avail_mime : string;
  avail_codes : list Z;            (* std::set<int> *)
  avail_size : Z;
}.

(** A [Resource] together with its [ResourceImpl] (which is the
    [FetchTask] handed to the fetcher).  [use_count] is the owner count
    of the [shared_ptr] stored in the resource map. *)
Record Resource := {
  name : string;
  ramMemoryCost : Z;
  gpuMemoryCost : Z;
  use_count : Z;
  state : State;
  lastAccessTick : Z;
  availTest : option Availability;
  url : string;
  redirectUrl : string;
  code : Z;
  contentType : string;
  contentData : list Byte.byte;
  redirectionsCount : Z;
}.

Definition set_state (s : State) (r : Resource) : Resource :=
  {| name := name r; ramMemoryCost := ramMemoryCost r;
     gpuMemoryCost := gpuMemoryCost r; use_count := use_count r;
     state := s; lastAccessTick := lastAccessTick r;
     availTest := availTest r; url := url r; redirectUrl := redirectUrl r;
     code := code r; contentType := contentType r;
     contentData := contentData r;
     redirectionsCount := redirectionsCount r |}.

Definition set_lastAccessTick (t : Z) (r : Resource) : Resource :=
  {| name := name r; ramMemoryCost := ramMemoryCost r;
     gpuMemoryCost := gpuMemoryCost r; use_count := use_count r;
     state := state r; lastAccessTick := t;
     availTest := availTest r; url := url r; redirectUrl := redirectUrl r;
     code := code r; contentType := contentType r;
     contentData := contentData r;
     redirectionsCount := redirectionsCount r |}.

Definition set_contentData (d : list Byte.byte) (r : Resource) : Resource :=
  {| name := name r; ramMemoryCost := ramMemoryCost r;
     gpuMemoryCost := gpuMemoryCost r; use_count := use_count r;
     state := state r; lastAccessTick := lastAccessTick r;
     availTest := availTest r; url := url r; redirectUrl := redirectUrl r;
     code := code r; contentType := contentType r;
     contentData := d;
     redirectionsCount := redirectionsCount r |}.

Definition set_url (u : string) (r : Resource) : Resource :=
  {| name := name r; ramMemoryCost := ramMemoryCost r;
     gpuMemoryCost := gpuMemoryCost r; use_count := use_count r;
     state := state r; lastAccessTick := lastAccessTick r;
     availTest := availTest r; url := u; redirectUrl := redirectUrl r;
     code := code r; contentType := contentType r;
     contentData := contentData r;
     redirectionsCount := redirectionsCount r |}.

Definition set_redirectionsCount (n : Z) (r : Resource) : Resource :=
  {| name := name r; ramMemoryCost := ramMemoryCost r;
     gpuMemoryCost := gpuMemoryCost r; use_count := use_count r;
     state := state r; lastAccessTick := lastAccessTick r;
     availTest := availTest r; url := url r; redirectUrl := redirectUrl r;
     code := code r; contentType := contentType r;
     contentData := contentData r;
     redirectionsCount := n |}.

Definition set_use_count (n : Z) (r : Resource) : Resource :=
  {| name := name r; ramMemoryCost := ramMemoryCost r;
     gpuMemoryCost := gpuMemoryCost r; use_count := n;
     state := state r; lastAccessTick := lastAccessTick r;
     availTest := availTest r; url := url r; redirectUrl := redirectUrl r;
     code := code r; contentType := contentType r;
     contentData := contentData r;
     redirectionsCount := redirectionsCount r |}.

(** What the fetcher writes into the task before it calls back. *)
Record Reply := {
  reply_code : Z;
  reply_contentType : string;
  reply_contentData : list Byte.byte;
  reply_redirectUrl : string;
}.

Definition set_reply (p : Reply) (r : Resource) : Resource :=
  {| name := name r; ramMemoryCost := ramMemoryCost r;
     gpuMemoryCost := gpuMemoryCost r; use_count := use_count r;
     state := state r; lastAccessTick := lastAccessTick r;
     availTest := availTest r; url := url r;
     redirectUrl := reply_redirectUrl p;
     code := reply_code p; contentType := reply_contentType p;
     contentData := reply_contentData p;
     redirectionsCount := redirectionsCount r |}.

(** One assignment to [r->state]: the resource, the state before and
    the state written. *)
Definition StateWrite : Type := string * State * State.

(** [MapImpl], restricted to [resources], the two options and the frame
    counter the resource code reads.  The resource map is keyed by name;
    a [ResourceImpl*] held in a queue or by the fetcher is the key of
    its resource.  [fetcher] lists the tasks the external fetcher
    currently holds, [cache] is the disk cache (path to content) and
    [stateLog] records every assignment to a state field, oldest
    first. *)
Record MapImpl := {
  resources : gmap string Resource;
  prepareQue : gset string;
  prepareQueNew : gset string;
  invalidUrl : gset string;
  invalidUrlNew : gset string;
  downloads : Z;
  takeItemIndex : Z;
  frameIndex : Z;
  maxConcurrentDownloads : Z;
  maxResourcesMemory : Z;
  fetcher : list string;
  cache : gmap string (list Byte.byte);
  stateLog : list StateWrite;
}.

Definition with_resources (f : gmap string Resource → gmap string Resource)
    (w : MapImpl) : MapImpl :=
  {| resources := f (resources w); prepareQue := prepareQue w;
     prepareQueNew := prepareQueNew w; invalidUrl := invalidUrl w;
     invalidUrlNew := invalidUrlNew w; downloads := downloads w;
     takeItemIndex := takeItemIndex w; frameIndex := frameIndex w;
     maxConcurrentDownloads := maxConcurrentDownloads w;
     maxResourcesMemory := maxResourcesMemory w;
     fetcher := fetcher w; cache := cache w; stateLog := stateLog w |}.

Definition with_queues (q qn : gset string) (ix : Z) (w : MapImpl) : MapImpl :=
  {| resources := resources w; prepareQue := q;
     prepareQueNew := qn; invalidUrl := invalidUrl w;
     invalidUrlNew := invalidUrlNew w; downloads := downloads w;
     takeItemIndex := ix; frameIndex := frameIndex w;
     maxConcurrentDownloads := maxConcurrentDownloads w;
     maxResourcesMemory := maxResourcesMemory w;
     fetcher := fetcher w; cache := cache w; stateLog := stateLog w |}.

Definition with_invalid (u un : gset string) (w : MapImpl) : MapImpl :=
  {| resources := resources w; prepareQue := prepareQue w;
     prepareQueNew := prepareQueNew w; invalidUrl := u;
     invalidUrlNew := un; downloads := downloads w;
     takeItemIndex := takeItemIndex w; frameIndex := frameIndex w;
     maxConcurrentDownloads := maxConcurrentDownloads w;
     maxResourcesMemory := maxResourcesMemory w;
     fetcher := fetcher w; cache := cache w; stateLog := stateLog w |}.

Definition with_downloads (d : Z) (w : MapImpl) : MapImpl :=
  {| resources := resources w; prepareQue := prepareQue w;
     prepareQueNew := prepareQueNew w; invalidUrl := invalidUrl w;
     invalidUrlNew := invalidUrlNew w; downloads := d;
     takeItemIndex := takeItemIndex w; frameIndex := frameIndex w;
     maxConcurrentDownloads := maxConcurrentDownloads w;
     maxResourcesMemory := maxResourcesMemory w;
     fetcher := fetcher w; cache := cache w; stateLog := stateLog w |}.

Definition with_fetcher (f : list string) (w : MapImpl) : MapImpl :=
  {| resources := resources w; prepareQue := prepareQue w;
     prepareQueNew := prepareQueNew w; invalidUrl := invalidUrl w;
     invalidUrlNew := invalidUrlNew w; downloads := downloads w;
     takeItemIndex := takeItemIndex w; frameIndex := frameIndex w;
     maxConcurrentDownloads := maxConcurrentDownloads w;
     maxResourcesMemory := maxResourcesMemory w;
     fetcher := f; cache := cache w; stateLog := stateLog w |}.

Definition with_cache (c : gmap string (list Byte.byte)) (w : MapImpl) : MapImpl :=
  {| resources := resources w; prepareQue := prepareQue w;
     prepareQueNew := prepareQueNew w; invalidUrl := invalidUrl w;
     invalidUrlNew := invalidUrlNew w; downloads := downloads w;
     takeItemIndex := takeItemIndex w; frameIndex := frameIndex w;
     maxConcurrentDownloads := maxConcurrentDownloads w;
     maxResourcesMemory := maxResourcesMemory w;
     fetcher := fetcher w; cache := c; stateLog := stateLog w |}.

Definition with_frameIndex (t : Z) (w : MapImpl) : MapImpl :=
  {| resources := resources w; prepareQue := prepareQue w;
     prepareQueNew := prepareQueNew w; invalidUrl := invalidUrl w;
     invalidUrlNew := invalidUrlNew w; downloads := downloads w;
     takeItemIndex := takeItemIndex w; frameIndex := t;
     maxConcurrentDownloads := maxConcurrentDownloads w;
     maxResourcesMemory := maxResourcesMemory w;
     fetcher := fetcher w; cache := cache w; stateLog := stateLog w |}.

Definition with_stateLog (l : list StateWrite) (w : MapImpl) : MapImpl :=
  {| resources := resources w; prepareQue := prepareQue w;
     prepareQueNew := prepareQueNew w; invalidUrl := invalidUrl w;
     invalidUrlNew := invalidUrlNew w; downloads := downloads w;
     takeItemIndex := takeItemIndex w; frameIndex := frameIndex w;
     maxConcurrentDownloads := maxConcurrentDownloads w;
     maxResourcesMemory := maxResourcesMemory w;
     fetcher := fetcher w; cache := cache w; stateLog := l |}.

(** [r->field = v] through a pointer: the object stored under key [k]
    changes in place. *)
Definition update (k : string) (f : Resource → Resource) (w : MapImpl) : MapImpl :=
  with_resources (alter f k) w.

(** [r->state = s], recorded in the log. *)
Definition assign_state (k : string) (s : State) (w : MapImpl) : MapImpl :=
  match resources w !! k with
  | None => w
  | Some r =>
      with_stateLog (stateLog w ++ [(k, state r, s)]) (update k (set_state s) w)
  end.

(** The state the object under key [k] has right now. *)
Definition state_at (k : string) (w : MapImpl) : option State :=
  state <$> resources w !! k.

(** ** Sorting with a comparator *)

(** [std::sort(first, last, comp)] returns some permutation in which no
    element is [comp]-smaller than an earlier one; which one, among
    equivalent elements, is left open.  The model is insertion from the
    right, and the properties below use only the contract of the
    sort. *)
Section StdSort.
Context {A : Type} (comp : A → A → bool).

Fixpoint sort_insert (x : A) (l : list A) : list A :=
  match l with
  | [] => [x]
  | y :: t => if comp x y then x :: y :: t else y :: sort_insert x t
  end.

Definition std_sort (l : list A) : list A := foldr sort_insert [] l.

(** [a] may stand before [b]: [b] is not smaller than [a]. *)
Definition not_after (a b : A) : Prop := comp b a = false.
End StdSort.

(** ** Operations on resources *)

(** [name.find(sub) != std::string::npos]. *)
Definition contains (sub s : string) : bool :=
  match String.index 0 sub s with
  | Some _ => true
  | None => false
  end.

(** The fetcher gives one task back: its first entry for [k] goes. *)
Fixpoint remove_task (k : string) (l : list string) : list string :=
  match l with
  | [] => []
  | x :: t => if bool_decide (x = k) then t else x :: remove_task k t
  end.

(** How a call ends: by returning or by throwing. *)
Inductive Outcome := Returned | Thrown (what : string).

Section Operations.

(** Code the operations call: the decoder behind
    [r->resource->load(this)] ([true] when it does not throw), the
    built-in data behind [loadFromInternalMemory], and
    [MapImpl::convertNameToCache], which maps a resource name to its
    path in the disk cache with the help of [boost::filesystem]. *)
Variable load_ok : Resource → bool.
Variable internalMemory : string → list Byte.byte.
Variable convertNameToCache : string → string.

(** [MapImpl::loadResource]; it asserts that there is content to
    decode. *)
Definition loadResource (k : string) (w : MapImpl) : MapImpl :=
  match resources w !! k with
  | None => w
  | Some r =>
      let w1 := if load_ok r then assign_state k ready w
                else assign_state k errorLoad w in
      update k (set_contentData []) w1
  end.

(** [MapImpl::availableInCache]. *)
Definition availableInCache (n : string) (w : MapImpl) : bool :=
  bool_decide (is_Some (cache w !! convertNameToCache n)).

(** Modelled from the spec: [ResourceImpl::loadFromCache] and
    [ResourceImpl::saveToCache] are defined elsewhere; the disk cache
    offers [read(name) -> bytes] and [write(name, bytes)]. *)
Definition loadFromCache (k : string) (w : MapImpl) : MapImpl :=
  match resources w !! k with
  | None => w
  | Some r =>
      update k (set_contentData
                  (default [] (cache w !! convertNameToCache (name r)))) w
  end.

Definition saveToCache (k : string) (w : MapImpl) : MapImpl :=
  match resources w !! k with
  | None => w
  | Some r =>
      with_cache (<[convertNameToCache (name r) := contentData r]> (cache w)) w
  end.

Definition loadFromInternalMemory (k : string) (w : MapImpl) : MapImpl :=
  match resources w !! k with
  | None => w
  | Some r => update k (set_contentData (internalMemory (name r))) w
  end.

(** [resources.fetcher->fetch(r)]: the task is now with the fetcher. *)
Definition fetch (k : string) (w : MapImpl) : MapImpl :=
  with_fetcher (fetcher w ++ [k]) w.

(** The item [dataTick] takes from the queue:
    [std::next(begin, takeItemIndex++ % size)]. *)
Definition takeItem (w : MapImpl) : option string :=
  let q := elements (prepareQue w) in
  q !! Z.to_nat (takeItemIndex w mod Z.of_nat (length q)).

(** [MapImpl::dataTick]; the boolean is the return value ([true]: the
    data thread may sleep). *)
Definition dataTick (w : MapImpl) : bool * MapImpl :=
  (* sync invalid urls *)
  let w := with_invalid (invalidUrl w ∪ invalidUrlNew w) ∅ w in
  match takeItem w with
  | None => (true, w)
  | Some k =>
      let w := with_queues (prepareQue w ∖ {[k]}) (prepareQueNew w)
                 (wrap32 (takeItemIndex w + 1)) w in
      match resources w !! k with
      | None => (true, w)
      | Some r =>
          match state r with
          | downloaded => (false, loadResource k w)
          | initializing =>
              if bool_decide (name r ∈ invalidUrl w)
              then (false, assign_state k errorLoad w)
              else
                let w := assign_state k downloading w in
                if negb (contains "://" (name r))
                then (false, loadResource k (loadFromInternalMemory k w))
                else if negb (contains ".json" (name r))
                        && availableInCache (name r) w
                then (false, loadResource k (loadFromCache k w))
                else if downloads w <? maxConcurrentDownloads w
                then (false, with_downloads (wrap32 (downloads w + 1))
                               (fetch k w))
                else (true, assign_state k initializing w)
          | _ => (true, w)
          end
      end
  end.

(** The three blocks of [MapImpl::fetchedFile] before the completion
    code, each on the object under key [k]. *)

(** [if (task->code >= 400 || task->code == 0) state = errorDownload]. *)
Definition handleErrorCodes (k : string) (w : MapImpl) : MapImpl :=
  match resources w !! k with
  | None => w
  | Some r =>
      if (400 <=? code r) || (code r =? 0)
      then assign_state k errorDownload w
      else w
  end.

(** The [switch] over [availTest->type].  The [negativeSize] case has no
    [break]: control falls into [default] and the call throws. *)
Definition availabilityTests (k : string) (w : MapImpl) : Outcome * MapImpl :=
  match resources w !! k with
  | None => (Returned, w)
  | Some r =>
      match state r, availTest r with
      | downloading, Some a =>
          match avail_type a with
          | negativeCode =>
              if bool_decide (code r ∈ avail_codes a)
              then (Returned, w)
              else (Returned, assign_state k errorDownload w)
          | negativeType =>
              if String.eqb (avail_mime a) (contentType r)
              then (Returned, assign_state k errorDownload w)
              else (Returned, w)
          | negativeSize =>
              (Thrown "invalid availability test type",
               if Z.of_nat (length (contentData r)) <=? avail_size a
               then assign_state k errorDownload w
               else w)
          end
      | _, _ => (Returned, w)
      end
  end.

Definition isRedirect (c : Z) : bool :=
  (c =? 301) || (c =? 302) || (c =? 303) || (c =? 307) || (c =? 308).

(** The redirection block; [true] stands for the [return] after the
    task went back to the fetcher. *)
Definition handleRedirections (k : string) (w : MapImpl) : bool * MapImpl :=
  match resources w !! k with
  | None => (false, w)
  | Some r =>
      match state r with
      | downloading =>
          if isRedirect (code r)
          then
            let w1 := update k (set_redirectionsCount
                                  (wrap32 (redirectionsCount r + 1))) w in
            if 5 <? redirectionsCount r
            then (false, assign_state k errorDownload w1)
            else (true, fetch k (update k (set_url (redirectUrl r)) w1))
          else (false, w)
      | _ => (false, w)
      end
  end.

(** The tail of [fetchedFile], from [resources.downloads--] on. *)
Definition finishFetch (k : string) (w : MapImpl) : MapImpl :=
  let w := with_downloads (wrap32 (downloads w - 1)) w in
  match resources w !! k with
  | None => w
  | Some r =>
      match state r with
      | errorDownload =>
          with_invalid (invalidUrl w) (invalidUrlNew w ∪ {[name r]})
            (update k (set_contentData []) w)
      | _ => assign_state k downloaded (saveToCache k w)
      end
  end.

(** [MapImpl::fetchedFile] for the task under key [k], whose reply
    fields the fetcher has filled in.  The function asserts that the
    resource is [downloading]. *)
Definition fetchedFile (k : string) (w : MapImpl) : Outcome * MapImpl :=
  let w := handleErrorCodes k w in
  match availabilityTests k w with
  | (Thrown e, w) => (Thrown e, w)
  | (Returned, w) =>
      match handleRedirections k w with
      | (true, w) => (Returned, w)
      | (false, w) => (Returned, finishFetch k w)
      end
  end.

(** The fetcher finishes the task [k] with reply [p] and calls
    [fetchedFile]. *)
Definition complete (k : string) (p : Reply) (w : MapImpl) : Outcome * MapImpl :=
  fetchedFile k (update k (set_reply p)
                   (with_fetcher (remove_task k (fetcher w)) w)).

(** [MapImpl::touchResource]. *)
Definition touchResource (k : string) (w : MapImpl) : MapImpl :=
  match resources w !! k with
  | None => w
  | Some r =>
      let w := update k (set_lastAccessTick (frameIndex w)) w in
      let enqueue w :=
        with_queues (prepareQue w) (prepareQueNew w ∪ {[k]})
          (takeItemIndex w) w in
      match state r with
      | finalizing => enqueue (assign_state k initializing w)
      | initializing | downloaded => enqueue w
      | _ => w
      end
  end.

(** [a->gpuMemoryCost + a->ramMemoryCost], a [uint32] sum. *)
Definition memoryCost (r : Resource) : Z :=
  wrap32 (gpuMemoryCost r + ramMemoryCost r).

(** The condition under which [dataRenderTick] collects a resource:
    "consider long time not used resources only". *)
Definition longUnused (frame : Z) (r : Resource) : bool :=
  (wrap32 (lastAccessTick r + 100) <? frame)
  && (use_count r =? 1)
  && negb (bool_decide (state r = downloading)).

(** The comparator given to [std::sort]. *)
Definition evictBefore (a b : string * Resource) : bool :=
  if lastAccessTick a.2 =? lastAccessTick b.2
  then memoryCost b.2 <? memoryCost a.2
  else lastAccessTick a.2 <? lastAccessTick b.2.

(** What one iteration of the loop over [res] does to the map once the
    budget test has let it through; [it] is the object the pointer
    under visit leads to. *)
Definition evictVisit (w : MapImpl) (kit : string * Resource) : MapImpl :=
  if bool_decide (state kit.2 = finalizing)
  then with_resources (delete (name kit.2)) w
  else assign_state kit.1 finalizing w.

(** [for (Resource *it : res)] with its [break].  A pointer is followed
    when its turn comes; one that leads nowhere, which does not happen
    in a map keyed by the names of its resources, ends the loop. *)
Fixpoint evictLoop (res : list string) (memUse : Z) (w : MapImpl) : MapImpl :=
  match res with
  | [] => w
  | k :: rest =>
      if memUse <=? maxResourcesMemory w then w
      else match resources w !! k with
           | None => w
           | Some it =>
               evictLoop rest (wrap32 (memUse - memoryCost it))
                 (evictVisit w (k, it))
           end
  end.

(** The same loop on the objects as they were collected.  In a map
    keyed by the names of its resources it does what [evictLoop] does:
    no iteration writes to an object other than the one it visits, and
    each object is visited once. *)
Fixpoint evictWalk (res : list (string * Resource)) (memUse : Z)
    (w : MapImpl) : MapImpl :=
  match res with
  | [] => w
  | kit :: rest =>
      if memUse <=? maxResourcesMemory w then w
      else evictWalk rest (wrap32 (memUse - memoryCost kit.2))
             (evictVisit w kit)
  end.

Definition memRamUse (all : list (string * Resource)) : Z :=
  foldl (λ acc kit, wrap32 (acc + ramMemoryCost kit.2)) 0 all.

Definition memGpuUse (all : list (string * Resource)) : Z :=
  foldl (λ acc kit, wrap32 (acc + gpuMemoryCost kit.2)) 0 all.

(** The vector [res] after the first loop of the block. *)
Definition collectOld (w : MapImpl) : list (string * Resource) :=
  List.filter (λ kit, longUnused (frameIndex w) kit.2)
    (map_to_list (resources w)).

(** The block "clear old resources" of [MapImpl::dataRenderTick]. *)
Definition clearOldResources (w : MapImpl) : MapImpl :=
  let all := map_to_list (resources w) in
  let memUse := wrap32 (memRamUse all + memGpuUse all) in
  if maxResourcesMemory w <? memUse
  then evictLoop (std_sort evictBefore (collectOld w)).*1 memUse w
  else w.

(** [MapImpl::dataRenderTick]: the queue built during the last frame
    becomes the work queue, then old resources are cleared. *)
Definition dataRenderTick (w : MapImpl) : MapImpl :=
  clearOldResources
    (with_queues (prepareQueNew w) ∅ (takeItemIndex w) w).

End Operations.

(** ** Well-formed resource maps *)

(** Every resource is stored under its own name:
    [resources[name] = std::make_shared<T>(name)]. *)
Definition names_ok (w : MapImpl) : Prop :=
  map_Forall (λ k r, name r = k) (resources w).

(** The order in which the pass visits its candidates: older access
    first, and of two equally old the one that costs more. *)
Definition evictOrder (a b : string * Resource) : Prop :=
  lastAccessTick a.2 < lastAccessTick b.2
  ∨ (lastAccessTick a.2 = lastAccessTick b.2
     ∧ memoryCost b.2 ≤ memoryCost a.2).

(** The value of [memUse] after the loop has visited [visited]. *)
Definition accounted (memUse : Z) (visited : list (string * Resource)) : Z :=
  foldl (λ mu kit, wrap32 (mu - memoryCost kit.2)) memUse visited.

(** The pipeline as [dataRenderTick] has it when the block "clear old
    resources" starts. *)
Definition swapQueues (w : MapImpl) : MapImpl :=
  with_queues (prepareQueNew w) ∅ (takeItemIndex w) w.

(** ** The resource pipeline as a transition system *)

(** Modelled from the spec: the constructor of a resource is defined
    elsewhere; a resource starts its life [initializing], owned by the
    map alone, with an empty buffer and no redirection followed. *)
Definition newResource (n : string) : Resource :=
  {| name := n; ramMemoryCost := 0; gpuMemoryCost := 0; use_count := 1;
     state := initializing; lastAccessTick := 0; availTest := None;
     url := n; redirectUrl := ""; code := 0; contentType := "";
     contentData := []; redirectionsCount := 0 |}.

(** [getMapResource], [getTexture], [getMeshRenderable]: create the
    entry when the name is new, then touch it. *)
Definition getMapResource (n : string) (w : MapImpl) : MapImpl :=
  touchResource n
    (match resources w !! n with
     | Some _ => w
     | None => with_resources (<[n := newResource n]>) w
     end).

(** What code outside the pipeline writes into a resource: memory
    costs (the loaders), the owner count (copies of the shared pointer
    come and go) and the availability test (draw resolution). *)
Definition set_attributes (ram gpu uc : Z) (a : option Availability)
    (r : Resource) : Resource :=
  {| name := name r; ramMemoryCost := ram; gpuMemoryCost := gpu;
     use_count := uc; state := state r;
     lastAccessTick := lastAccessTick r; availTest := a; url := url r;
     redirectUrl := redirectUrl r; code := code r;
     contentType := contentType r; contentData := contentData r;
     redirectionsCount := redirectionsCount r |}.

(** What can happen to the pipeline. *)
Inductive Event :=
| EvGet (n : string)
| EvTouch (k : string)
| EvDataTick
| EvFetched (k : string) (p : Reply)
| EvRenderTick
| EvFrame
| EvAttributes (k : string) (ram gpu uc : Z) (a : option Availability).

(** Whether the event is the eviction pass. *)
Definition isRenderTick (e : Event) : bool :=
  match e with EvRenderTick => true | _ => false end.

Section Pipeline.

Variable load_ok : Resource → bool.
Variable internalMemory : string → list Byte.byte.
Variable convertNameToCache : string → string.

Definition apply_event (e : Event) (w : MapImpl) : MapImpl :=
  match e with
  | EvGet n => getMapResource n w
  | EvTouch k => touchResource k w
  | EvDataTick => (dataTick load_ok internalMemory convertNameToCache w).2
  | EvFetched k p =>
      (* only a task the fetcher holds can complete *)
      if bool_decide (k ∈ fetcher w)
      then (complete convertNameToCache k p w).2
      else w
  | EvRenderTick => dataRenderTick w
  | EvFrame => with_frameIndex (wrap32 (frameIndex w + 1)) w
  | EvAttributes k ram gpu uc a => update k (set_attributes ram gpu uc a) w
  end.

Definition run (es : list Event) (w : MapImpl) : MapImpl :=
  foldl (λ w e, apply_event e w) w es.

End Pipeline.

(** The pipeline before any resource was asked for. *)
Definition initial (maxDownloads maxMemory : Z) : MapImpl :=
  {| resources := ∅; prepareQue := ∅; prepareQueNew := ∅;
     invalidUrl := ∅; invalidUrlNew := ∅; downloads := 0;
     takeItemIndex := 0; frameIndex := 0;
     maxConcurrentDownloads := maxDownloads;
     maxResourcesMemory := maxMemory;
     fetcher := []; cache := ∅; stateLog := [] |}.

Section Reachable.

Variable load_ok : Resource → bool.
Variable internalMemory : string → list Byte.byte.
Variable convertNameToCache : string → string.

(** The pipelines that events lead to, starting with nothing cached and
    a [uint32] download limit. *)
Inductive reachable : MapImpl → Prop :=
| reachable_initial maxDownloads maxMemory :
    0 ≤ maxDownloads < 2 ^ 32 →
    reachable (initial maxDownloads maxMemory)
| reachable_event w e :
    reachable w →
    reachable (apply_event load_ok internalMemory convertNameToCache e w).

End Reachable.

(** The transition graph of section 4.3 of the specification. *)
Definition spec_edge (a b : State) : bool :=
  match a, b with
  | initializing, downloading
  | initializing, downloaded
  | initializing, errorLoad
  | downloading, downloaded
  | downloading, errorDownload
  | downloaded, ready
  | downloaded, errorLoad
  | ready, finalizing
  | errorDownload, finalizing
  | errorLoad, finalizing
  | finalizing, initializing => true
  | _, _ => false
  end.

(** The further assignments the code makes: a resource read from
    internal memory or from the disk cache is decoded straight out of
    [downloading]; a resource that finds the download limit reached
    steps back to [initializing]; eviction takes a resource out of
    every state but [downloading]. *)
Definition extra_edge (a b : State) : bool :=
  match a, b with
  | downloading, ready
  | downloading, errorLoad
  | downloading, initializing
  | initializing, finalizing
  | downloaded, finalizing => true
  | _, _ => false
  end.

Definition code_edge (a b : State) : bool := spec_edge a b || extra_edge a b.

(** A log entry lies on the given graph. *)
Definition on_graph (edge : State → State → bool) (e : StateWrite) : Prop :=
  edge e.1.2 e.2 = true.

(** ** Invariants of the pipeline *)

(** One map of resources comes from another without the eviction pass:
    no entry is lost, names stay, and no resource becomes
    [finalizing]. *)
Definition mild (m m' : gmap string Resource) : Prop :=
  ∀ j, match m !! j with
       | Some r => ∃ r', m' !! j = Some r' ∧ name r' = name r
                         ∧ (state r' = finalizing → state r = finalizing)
       | None => ∀ r', m' !! j = Some r' →
                       name r' = j ∧ state r' ≠ finalizing
       end.

(** A field update that keeps the name and does not write
    [finalizing]. *)
Definition gentle (f : Resource → Resource) : Prop :=
  ∀ r, name (f r) = name r ∧ (state (f r) = finalizing → state r = finalizing).

(** The resource under [k] is there and not marked for erasure. *)
Definition alive (k : string) (w : MapImpl) : Prop :=
  ∃ r, resources w !! k = Some r ∧ state r ≠ finalizing.

(** Every task the fetcher holds belongs to a [downloading] resource,
    and it holds no task twice. *)
Definition fetching_ok (w : MapImpl) : Prop :=
  NoDup (fetcher w)
  ∧ ∀ k, k ∈ fetcher w → state_at k w = Some downloading.

(** Every assignment logged so far lies on the graph of the code. *)
Definition edges_ok (w : MapImpl) : Prop :=
  Forall (on_graph code_edge) (stateLog w).

Definition sound (w : MapImpl) : Prop :=
  names_ok w ∧ fetching_ok w ∧ edges_ok w.

(** What the limit is about: the fetcher's tasks, the counter and the
    option. *)
Definition limits (w : MapImpl) : list string * Z * Z :=
  (fetcher w, downloads w, maxConcurrentDownloads w).

(** The counter [downloads] covers the tasks with the fetcher and stays
    within the limit. *)
Definition within_limit (w : MapImpl) : Prop :=
  Z.of_nat (length (fetcher w)) ≤ downloads w
  ∧ downloads w ≤ maxConcurrentDownloads w
  ∧ maxConcurrentDownloads w < 2 ^ 32.

(** ** Traversal *)

Inductive TraverseMode := Hierarchical | Flat.

(** Of a draw task the traversal looks at its readiness only. *)
Record RenderTask := { task_ready : bool }.

Record Renders := {
  opaque : list RenderTask;
  transparent : list RenderTask;
  infographic : list RenderTask;
}.

(** Modelled from the spec: [Renders::empty] and [TraverseNode::ready]
    are declared outside the file; a node has draws when one of its
    lists has a task, and is ready when all its draws are ready. *)
Definition renders_empty (r : Renders) : bool :=
  match opaque r, transparent r, infographic r with
  | [], [], [] => true
  | _, _, _ => false
  end.

Definition renders_ready (r : Renders) : bool :=
  forallb task_ready (opaque r)
  && forallb task_ready (transparent r)
  && forallb task_ready (infographic r).

Section Traversal.

(** [float] priorities are kept abstract. *)
Variable Priority : Type.

(** [TraverseNode::MetaInfo], of which the traversal reads whether a
    surface is attached. *)
Record MetaInfo := { surface : bool }.

#[warnings="-register-all"]
Inductive TraverseNode := {
  meta : option MetaInfo;
  renders : Renders;
  childs : list TraverseNode;
  priority : Priority;
}.

Definition set_priority (p : Priority) (t : TraverseNode) : TraverseNode :=
  {| meta := meta t; renders := renders t; childs := childs t;
     priority := p |}.

(** [TraverseNode::ready]. *)
Definition TraverseNode_ready (t : TraverseNode) : bool :=
  renders_ready (renders t).

(** What a visit of a node hands on: a call of [renderNode] or an entry
    put into [renderer.traverseQueue]. *)
Inductive TraverseEvent :=
| Rendered (trav : TraverseNode)
| Queued (t : TraverseNode) (loadOnly : bool).

(** Code outside [traverse]: metadata and draw resolution (the node as
    they leave it, and for the former its return value), the two tests
    on floating-point geometry, and the priority of a child. *)
Variable travDetermineMeta : TraverseNode → bool * TraverseNode.
Variable travDetermineDraws : TraverseNode → TraverseNode.
Variable visibilityTest : TraverseNode → bool.
Variable coarsenessTest : TraverseNode → bool.
Variable computeResourcePriority : TraverseNode → Priority.

(** The body of the loop that computes [ok]: [true] when the child
    leaves [ok] as it is. *)
Definition childOk (t : TraverseNode) : bool :=
  match meta t with
  | None => false
  | Some m => negb (surface m && (renders_empty (renders t) || negb (TraverseNode_ready t)))
  end.

(** The loop that gives every child its priority and queues it. *)
Definition enqueueChilds (trav : TraverseNode) (loadOnly : bool)
    : list TraverseEvent :=
  map (λ t, Queued
              (set_priority
                 (match meta t with
                  | Some _ => computeResourcePriority t
                  | None => priority trav
                  end) t)
              loadOnly)
      (childs trav).

(** "prepare meta data": the node as the tests see it, or [None] when
    the visit ends here. *)
Definition prepareMeta (trav : TraverseNode) : option TraverseNode :=
  match meta trav with
  | Some _ => Some trav
  | None =>
      let '(ok, trav') := travDetermineMeta trav in
      if ok then Some trav' else None
  end.

(** The hierarchical branch, on a node with metadata [m]. *)
Definition determineDraws (m : MetaInfo) (trav : TraverseNode) : TraverseNode :=
  if surface m && renders_empty (renders trav)
  then travDetermineDraws trav
  else trav.

Definition traverseHierarchical (trav : TraverseNode) (loadOnly : bool)
    : list TraverseEvent :=
  if negb (visibilityTest trav) then []
  else if coarsenessTest trav
  then (if loadOnly then [] else [Rendered trav])
  else
    let ok := forallb childOk (childs trav) in
    let fallback := negb loadOnly && negb ok in
    let loadOnly' := loadOnly || fallback in
    (if fallback then [Rendered trav] else [])
    ++ match childs trav with
       | [] => if loadOnly' then [] else [Rendered trav]
       | _ :: _ => enqueueChilds trav loadOnly'
       end.

(** The flat branch. *)
Definition traverseFlat (m : MetaInfo) (trav : TraverseNode) (loadOnly : bool)
    : list TraverseEvent :=
  if negb (visibilityTest trav) then []
  else if coarsenessTest trav
          || match childs trav with [] => true | _ => false end
  then (if loadOnly then [] else [Rendered (determineDraws m trav)])
  else enqueueChilds trav loadOnly.

(** [MapImpl::traverse]. *)
Definition traverse (mode : TraverseMode) (trav : TraverseNode)
    (loadOnly : bool) : list TraverseEvent :=
  match prepareMeta trav with
  | None => []
  | Some trav =>
      match meta trav with
      | None => []                    (* assert(trav->meta) *)
      | Some m =>
          match mode with
          | Hierarchical =>
              traverseHierarchical (determineDraws m trav) loadOnly
          | Flat => traverseFlat m trav loadOnly
          end
      end
  end.

(** A child that makes the parent fall back, in the words of the
    specification: it lacks resolved metadata, or it has a surface and
    its draws are empty or not all ready. *)
Definition lacksData (t : TraverseNode) : Prop :=
  meta t = None
  ∨ ∃ m, meta t = Some m ∧ surface m = true
         ∧ (renders_empty (renders t) = true
            ∨ TraverseNode_ready t = false).

End Traversal.

Arguments meta {Priority} _.
Arguments renders {Priority} _.
Arguments childs {Priority} _.
Arguments priority {Priority} _.
Arguments Rendered {Priority} _.
Arguments Queued {Priority} _ _.

(** ** Draw order *)

Section Camera.

(** [double] with the operations the comparator uses. *)
Variable double : Type.
Variable dadd dsub dmul : double → double → double.
Variable dlt : double → double → bool.

Definition vec3 : Type := double * double * double.

(** [DrawSurfaceTask]: the sort reads [center]; what else a task
    carries travels along in [payload]. *)
Record DrawSurfaceTask := { center : vec3; payload : nat }.

Definition vsub (a b : vec3) : vec3 :=
  (dsub a.1.1 b.1.1, dsub a.1.2 b.1.2, dsub a.2 b.2).

Definition dot (a b : vec3) : double :=
  dadd (dadd (dmul a.1.1 b.1.1) (dmul a.1.2 b.1.2)) (dmul a.2 b.2).

(** [dot(va, va)] for [va = center - e]. *)
Definition distance2 (e : vec3) (a : DrawSurfaceTask) : double :=
  let va := vsub (center a) e in dot va va.

(** The lambda given to [std::sort]. *)
Definition nearer (e : vec3) (a b : DrawSurfaceTask) : bool :=
  dlt (distance2 e a) (distance2 e b).

(** [CameraImpl::sortOpaqueFrontToBack]. *)
Definition sortOpaqueFrontToBack (e : vec3) (opaque : list DrawSurfaceTask)
    : list DrawSurfaceTask :=
  std_sort (nearer e) opaque.

(** [CameraImpl::renderUpdate] as far as [draws.opaque] goes:
    [clear()] empties the list, the two early returns leave it empty,
    otherwise the traversal of the layers fills it with [traversed] and
    the list is sorted. *)
Definition renderUpdate (mapconfigReady : bool) (windowWidth windowHeight : Z)
    (eye : vec3) (traversed : list DrawSurfaceTask) : list DrawSurfaceTask :=
  let cleared : list DrawSurfaceTask := [] in
  if negb mapconfigReady then cleared
  else if (windowWidth =? 0) || (windowHeight =? 0) then cleared
  else sortOpaqueFrontToBack eye (cleared ++ traversed).

End Camera.

(** ** Configurations used in the examples *)

(** A resource in the given state, not referenced from outside the
    map, with the given availability test and redirection count. *)
Definition resourceIn (n : string) (s : State) (a : option Availability)
    (redirections : Z) : Resource :=
  {| name := n; ramMemoryCost := 0; gpuMemoryCost := 0; use_count := 1;
     state := s; lastAccessTick := 0; availTest := a;
     url := n; redirectUrl := ""; code := 0; contentType := "";
     contentData := []; redirectionsCount := redirections |}.

(** A pipeline whose only resource is with the fetcher. *)
Definition oneDownload (r : Resource) : MapImpl :=
  {| resources := {[ name r := r ]}; prepareQue := ∅; prepareQueNew := ∅;
     invalidUrl := ∅; invalidUrlNew := ∅; downloads := 1;
     takeItemIndex := 0; frameIndex := 0;
     maxConcurrentDownloads := 10;
     maxResourcesMemory := 512 * 1024 * 1024;
     fetcher := [name r]; cache := ∅; stateLog := [] |}.

Definition okReply (c : Z) (mime : string) (size : nat) : Reply :=
  {| reply_code := c; reply_contentType := mime;
     reply_contentData := repeat Byte.x00 size; reply_redirectUrl := "" |}.

Definition redirectReply (c : Z) (target : string) : Reply :=
  {| reply_code := c; reply_contentType := ""; reply_contentData := [];
     reply_redirectUrl := target |}.

(** The fetcher answers the task [k] with each reply in turn; a reply
    for a task it does not hold is not delivered. *)
Fixpoint deliver (conv : string → string) (k : string) (ps : list Reply)
    (w : MapImpl) : MapImpl :=
  match ps with
  | [] => w
  | p :: rest =>
      if bool_decide (k ∈ fetcher w)
      then deliver conv k rest (complete conv k p w).2
      else w
  end.

(** A cache over its budget of 500 at frame 500: two old resources,
    one accessed within the last 100 ticks, one being downloaded and
    one marked by an earlier pass. *)
Definition cached (n : string) (s : State) (tick ram gpu : Z) : Resource :=
  {| name := n; ramMemoryCost := ram; gpuMemoryCost := gpu; use_count := 1;
     state := s; lastAccessTick := tick; availTest := None;
     url := n; redirectUrl := ""; code := 0; contentType := "";
     contentData := []; redirectionsCount := 0 |}.

Definition cacheOverBudget : MapImpl :=
  {| resources :=
       list_to_map
         [ ("http://t/a", cached "http://t/a" ready 20 100 100);
           ("http://t/b", cached "http://t/b" ready 20 300 100);
           ("http://t/c", cached "http://t/c" ready 450 100 100);
           ("http://t/d", cached "http://t/d" downloading 20 0 0);
           ("http://t/e", cached "http://t/e" finalizing 10 50 50) ];
     prepareQue := ∅; prepareQueNew := ∅;
     invalidUrl := ∅; invalidUrlNew := ∅; downloads := 1;
     takeItemIndex := 0; frameIndex := 500;
     maxConcurrentDownloads := 10;
     maxResourcesMemory := 500;
     fetcher := ["http://t/d"]; cache := ∅; stateLog := [] |}.

(** A cache over its budget of 500 shortly before the frame counter
    wraps around: its only resource was accessed 40 frames ago. *)
Definition cacheNearWrap : MapImpl :=
  {| resources :=
       {[ "http://t/a" := cached "http://t/a" ready 4294967246 300 300 ]};
     prepareQue := ∅; prepareQueNew := ∅;
     invalidUrl := ∅; invalidUrlNew := ∅; downloads := 0;
     takeItemIndex := 0; frameIndex := 4294967286;
     maxConcurrentDownloads := 10;
     maxResourcesMemory := 500;
     fetcher := []; cache := ∅; stateLog := [] |}.

(** The scenario of the download limit: [n] tiles are asked for in one
    frame and the next [dataRenderTick] hands the queue to the data
    thread.  The decoder accepts everything, nothing is built in, and a
    name is its own cache path. *)
Definition tileNames (n : nat) : list string :=
  (λ i : nat, "http://t/" +:+ pretty i) <$> seq 0 n.

Definition play (es : list Event) (w : MapImpl) : MapImpl :=
  run (λ _, true) (λ _, []) id es w.

Definition requested (n : nat) (limit : Z) : MapImpl :=
  play ((EvGet <$> tileNames n) ++ [EvRenderTick])
    (initial limit (512 * 1024 * 1024)).

(** The next frame: every tile is touched again, the queues are
    swapped and the data thread ticks [n] times. *)
Definition nextFrame (n : nat) (w : MapImpl) : MapImpl :=
  play ([EvFrame] ++ (EvTouch <$> tileNames n) ++ [EvRenderTick]
        ++ repeat EvDataTick n) w.

(** The fetcher finishes the task it has held longest. *)
Definition completeFirst (p : Reply) (w : MapImpl) : MapImpl :=
  match fetcher w with
  | k :: _ => play [EvFetched k p] w
  | [] => w
  end.

Definition countState (s : State) (w : MapImpl) : nat :=
  length (List.filter (λ kit : string * Resource, bool_decide (state kit.2 = s))
            (map_to_list (resources w))).

(** Small whole numbers as binary64 values. *)
Definition floatOf (n : nat) : PrimFloat.float :=
  Nat.iter n (PrimFloat.add PrimFloat.one) PrimFloat.zero.

(** * Further code of the resource manager *)

(** ** Validity of a resource *)

Inductive Validity := Invalid | Indeterminate | Valid.

(** [MapImpl::getResourceValidity]. *)
Definition getResourceValidity (n : string) (w : MapImpl) : Validity :=
  match resources w !! n with
  | None => Invalid
  | Some r =>
      match state r with
      | errorDownload | errorLoad => Invalid
      | finalizing | initializing | downloading | downloaded => Indeterminate
      | ready => Valid
      end
  end.

(** ** Names of cache files *)

Fixpoint mapString (f : Ascii.ascii → Ascii.ascii) (s : string) : string :=
  match s with
  | EmptyString => EmptyString
  | String c rest => String (f c) (mapString f rest)
  end.

(** The characters the loop of [convertNameToPath] takes over as they
    are: letters, digits, the dash and the dot. *)
Definition keptChar (it : Ascii.ascii) : bool :=
  (Ascii.leb "a"%char it && Ascii.leb it "z"%char)
  || (Ascii.leb "A"%char it && Ascii.leb it "Z"%char)
  || (Ascii.leb "0"%char it && Ascii.leb it "9"%char)
  || (Ascii.eqb it "-"%char || Ascii.eqb it "."%char).

(** One round of the loop: [res += ...]. *)
Definition convertChar (preserveSlashes : bool) (it : Ascii.ascii) : Ascii.ascii :=
  if keptChar it then it
  else if preserveSlashes && (Ascii.eqb it "/"%char || Ascii.eqb it "\"%char)
  then "/"%char
  else "_"%char.

Section CachePaths.

(** [boost::filesystem::path(path).normalize().string()]. *)
Variable normalize : string → string.

(** [MapImpl::convertNameToPath]. *)
Definition convertNameToPath (path : string) (preserveSlashes : bool) : string :=
  mapString (convertChar preserveSlashes) (normalize path).

End CachePaths.

(** The characters a converted name can hold. *)
Definition pathChar (preserveSlashes : bool) (c : Ascii.ascii) : bool :=
  keptChar c || Ascii.eqb c "_"%char || (preserveSlashes && Ascii.eqb c "/"%char).

Fixpoint allChars (p : Ascii.ascii → bool) (s : string) : bool :=
  match s with
  | EmptyString => true
  | String c rest => p c && allChars p rest
  end.

(** ** The cache directory and the stored blacklist *)

(** [cachePath.back()]. *)
Fixpoint back (s : string) : option Ascii.ascii :=
  match s with
  | EmptyString => None
  | String c EmptyString => Some c
  | String _ rest => back rest
  end.

(** The cache path as the constructor [MapImpl::Resources::Resources]
    leaves it; [None] when it throws "invalid home dir, the cache path
    must be defined".  [homeDir] is what [utility::homeDir()]
    returns. *)
Definition Resources_cachePath (cachePathVal homeDir : string) : option string :=
  let slashed (cachePath : string) :=
    if bool_decide (back cachePath = Some "/"%char)
    then cachePath else cachePath +:+ "/" in
  if bool_decide (cachePathVal = "")
  then if bool_decide (homeDir = "") then None
       else Some (slashed (homeDir +:+ "/.cache/vts-browser/"))
  else Some (slashed cachePathVal).

(** The character ['\n']. *)
Definition newline : Ascii.ascii := Ascii.ascii_of_nat 10.

(** No line end in a name. *)
Definition oneLine (s : string) : Prop :=
  allChars (λ c, negb (Ascii.eqb c newline)) s = true.

(** What the loop [while (f.good()) { std::getline(f, line);
    invalidUrl.insert(line); }] reads from a file with the given
    content: the pieces between line ends, the piece after the last
    line end included, be it empty. *)
Fixpoint readLines (content : string) : list string :=
  match content with
  | EmptyString => [EmptyString]
  | String c rest =>
      if Ascii.eqb c newline then EmptyString :: readLines rest
      else match readLines rest with
           | line :: lines => String c line :: lines
           | [] => [String c EmptyString]
           end
  end.

(** [for (auto &&line : invalidUrl) f << line << '\n']. *)
Fixpoint writeLines (lines : list string) : string :=
  match lines with
  | [] => EmptyString
  | line :: rest => line +:+ String newline (writeLines rest)
  end.

(** The blacklist the constructor starts with: the lines of the file
    [invalidUrl.txt] when [keepInvalidUrls] is set and the file exists
    ([file] is its content). *)
Definition loadInvalidUrl (keepInvalidUrls : bool) (file : option string)
    : gset string :=
  match file with
  | Some content =>
      if keepInvalidUrls then list_to_set (readLines content) else ∅
  | None => ∅
  end.

(** The file the destructor [MapImpl::Resources::~Resources] writes. *)
Definition saveInvalidUrl (invalidUrl : gset string) : string :=
  writeLines (elements invalidUrl).

(** ** Notions used in the further properties of the pipeline *)

(** Two maps agree on every key but [k]. *)
Definition same_elsewhere (k : string) (m m' : gmap string Resource) : Prop :=
  ∀ j, j ≠ k → m' !! j = m !! j.

(** The names that are refused: the blacklist and its staging set. *)
Definition blacklist (w : MapImpl) : gset string :=
  invalidUrl w ∪ invalidUrlNew w.

(** The download slots that are counted as taken although no task is
    with the fetcher. *)
Definition lostSlots (w : MapImpl) : Z :=
  downloads w - Z.of_nat (length (fetcher w)).

(** The states a resource leaves by eviction only. *)
Definition settled (s : State) : Prop :=
  s = ready ∨ s = errorDownload ∨ s = errorLoad.

(** * Further code of the map renderer *)

(** ** Tile ids *)

(** [TileId]: three [uint32] fields. *)
Module TileId.
Record t := { lod : Z; x : Z; y : Z }.
End TileId.

(** [MapImpl::roundId]; [metaTileBinaryOrder] is
    [mapConfig->referenceFrame.metaBinaryOrder].  The shifts are
    [uint32] shifts, defined for a shift count below 32. *)
Definition roundId (metaTileBinaryOrder : Z) (nodeId : TileId.t) : TileId.t :=
  {| TileId.lod := TileId.lod nodeId;
     TileId.x := wrap32 (Z.shiftl (Z.shiftr (TileId.x nodeId)
                                     metaTileBinaryOrder)
                           metaTileBinaryOrder);
     TileId.y := wrap32 (Z.shiftl (Z.shiftr (TileId.y nodeId)
                                     metaTileBinaryOrder)
                           metaTileBinaryOrder) |}.

(** [lowerUpperCombine]: the components are 0 or 1 before they become
    [double]s. *)
Definition lowerUpperCombine (i : Z) : Z * Z * Z :=
  ((Z.shiftr i 0) mod 2, (Z.shiftr i 1) mod 2, (Z.shiftr i 2) mod 2).

(** The corner tables of the tile box in [renderNode]. *)
Definition cora : list Z := [0; 0; 1; 2; 4; 4; 5; 6; 0; 1; 2; 3].
Definition corb : list Z := [1; 2; 3; 3; 5; 6; 7; 7; 4; 5; 6; 7].

(** The pairs of corners between which [renderNode] draws the lines of
    the tile box: [cornersPhys[cora[i]]] and [cornersPhys[corb[i]]]. *)
Definition tileBoxLines : list (Z * Z) := zip cora corb.

(** Two corners that differ in exactly one coordinate. *)
Definition oneApart (p q : Z * Z * Z) : bool :=
  (Z.abs (p.1.1 - q.1.1) + Z.abs (p.1.2 - q.1.2) + Z.abs (p.2 - q.2) =? 1).

(** ** Frustum culling *)

Section Culling.

(** [double] with the operations [aabbTest] uses. *)
Variable double : Type.
Variable dadd dmul : double → double → double.
Variable dneg : double → double.
Variable dlt : double → double → bool.
Variable dzero : double.

Definition vec4 : Type := double * double * double * double.

Definition vec4to3 (p : vec4) : vec3 double := (p.1.1.1, p.1.1.2, p.1.2).

(** The "p-vertex" of the box for the plane [p]: in each coordinate the
    upper bound [aabb[1]] when the coefficient is positive, the lower
    bound [aabb[0]] otherwise. *)
Definition pVertex (aabb : vec3 double * vec3 double) (p : vec4)
    : vec3 double :=
  ((if dlt dzero p.1.1.1 then aabb.2 else aabb.1).1.1,
   (if dlt dzero p.1.1.2 then aabb.2 else aabb.1).1.2,
   (if dlt dzero p.1.2 then aabb.2 else aabb.1).2).

(** The test of one plane on a point: [dot(vec4to3(p), v) < -p[3]]. *)
Definition behind (p : vec4) (v : vec3 double) : bool :=
  dlt (dot double dadd dmul (vec4to3 p) v) (dneg p.2).

(** [aabbTest]: the loop leaves with [false] at the first plane that
    has the p-vertex behind it. *)
Fixpoint aabbTest (aabb : vec3 double * vec3 double) (planes : list vec4)
    : bool :=
  match planes with
  | [] => true
  | p :: rest =>
      if behind p (pVertex aabb p) then false else aabbTest aabb rest
  end.

(** [a <= b] for [double]s that are numbers. *)
Definition dle (a b : double) : Prop := dlt b a = false.

(** The point [q] lies in the box. *)
Definition inBox (aabb : vec3 double * vec3 double) (q : vec3 double) : Prop :=
  (dle aabb.1.1.1 q.1.1 ∧ dle q.1.1 aabb.2.1.1)
  ∧ (dle aabb.1.1.2 q.1.2 ∧ dle q.1.2 aabb.2.1.2)
  ∧ (dle aabb.1.2 q.2 ∧ dle q.2 aabb.2.2).

End Culling.

(** ** Bound layers of a submesh *)

Section BoundLayers.

(** [BoundParamInfo] with the call [it->prepare(nodeInfo, this,
    subMeshIndex, priority)], which is defined elsewhere: its return
    value and the item as the call leaves it. *)
Variable BoundParamInfo : Type.
Variable prepare : BoundParamInfo → Validity * BoundParamInfo.
Variable watertight transparent : BoundParamInfo → bool.

(** "prepare all layers": the flag [determined] and the list after the
    loop. *)
Fixpoint prepareAll (boundList : list BoundParamInfo)
    : bool * list BoundParamInfo :=
  match boundList with
  | [] => (true, [])
  | it :: rest =>
      let '(v, it') := prepare it in
      let '(determined, rest') := prepareAll rest in
      match v with
      | Invalid => (determined, rest')              (* erase *)
      | Indeterminate => (false, it' :: rest')
      | Valid => (determined, it' :: rest')
      end
  end.

(** The [while] loop over the reversed list and the [erase] after it:
    what is kept ends with the first layer that is watertight and not
    transparent. *)
Fixpoint keepThrough (l : list BoundParamInfo) : list BoundParamInfo :=
  match l with
  | [] => []
  | it :: rest =>
      if negb (watertight it) || transparent it
      then it :: keepThrough rest
      else [it]
  end.

(** "skip overlapping layers". *)
Definition skipOverlapping (boundList : list BoundParamInfo)
    : list BoundParamInfo :=
  reverse (keepThrough (reverse boundList)).

(** [MapImpl::reorderBoundLayers]: the return value and [boundList] as
    the call leaves it. *)
Definition reorderBoundLayers (boundList : list BoundParamInfo)
    : Validity * list BoundParamInfo :=
  let '(determined, boundList) := prepareAll boundList in
  if negb determined then (Indeterminate, boundList)
  else (Valid, skipOverlapping boundList).

(** A layer that hides the layers below it. *)
Definition covering (it : BoundParamInfo) : bool :=
  watertight it && negb (transparent it).

End BoundLayers.

(** ** Clearing the traversal tree *)

Module Clearing.

Section Nodes.

(** What a node holds besides its place in the tree: metadata and
    draws. *)
Variable Data : Type.

(** [TraverseNode] as [traverseClearing] sees it. *)
#[warnings="-register-all"]
Inductive TraverseNode := {
  nodeId : TileId.t;
  lastAccessTime : Z;
  data : option Data;
  childs : list TraverseNode;
}.

(** Modelled from the spec: [TraverseNode::clear] is defined elsewhere;
    it prunes the subtree, leaving the node as [travDetermineMeta]
    expects it: without metadata, draws and children. *)
Definition clear (trav : TraverseNode) : TraverseNode :=
  {| nodeId := nodeId trav; lastAccessTime := lastAccessTime trav;
     data := None; childs := [] |}.

(** The test on nodes of lod 3:
    [(id.y * 8 + id.x) % 64 != renderer.tickIndex % 64]. *)
Definition skippedAt (tickIndex : Z) (id : TileId.t) : bool :=
  (TileId.lod id =? 3)
  && negb (wrap32 (wrap32 (TileId.y id * 8) + TileId.x id) mod 64
           =? tickIndex mod 64).

(** [trav->lastAccessTime + 5 < renderer.tickIndex]. *)
Definition stale (tickIndex : Z) (trav : TraverseNode) : bool :=
  wrap32 (lastAccessTime trav + 5) <? tickIndex.

(** [MapImpl::traverseClearing]: the tree as the call leaves it. *)
Fixpoint traverseClearing (tickIndex : Z) (trav : TraverseNode)
    : TraverseNode :=
  if skippedAt tickIndex (nodeId trav) then trav
  else if stale tickIndex trav then clear trav
  else {| nodeId := nodeId trav; lastAccessTime := lastAccessTime trav;
          data := data trav;
          childs := List.map (traverseClearing tickIndex) (childs trav) |}.

(** The nodes of the tree, the root first. *)
Fixpoint nodes (trav : TraverseNode) : list TraverseNode :=
  trav :: flat_map nodes (childs trav).

(** Induction over the tree. *)
Fixpoint TraverseNode_tree_ind (P : TraverseNode → Prop)
    (step : ∀ trav, Forall P (childs trav) → P trav)
    (trav : TraverseNode) : P trav :=
  step trav
    (match trav as t return Forall P (childs t) with
     | Build_TraverseNode _ _ _ cs =>
         (fix go (l : list TraverseNode) : Forall P l :=
            match l with
            | [] => @List.Forall_nil _ P
            | c :: rest =>
                @List.Forall_cons _ P c rest
                  (TraverseNode_tree_ind P step c) (go rest)
            end) cs
     end).

End Nodes.

End Clearing.

(** ** The traversal loop of a frame *)

Section RenderLoop.

Variable Priority : Type.

(** Code outside [traverse] as it answers during the [k]-th pass
    through the loop; [top] is the place of the entry that
    [traverseQueue.top()] returns, which is for the order of the
    priority queue to say. *)
Variable travDetermineMeta :
  nat → TraverseNode Priority → bool * TraverseNode Priority.
Variable travDetermineDraws : nat → TraverseNode Priority → TraverseNode Priority.
Variable visibilityTest coarsenessTest : nat → TraverseNode Priority → bool.
Variable computeResourcePriority : nat → TraverseNode Priority → Priority.
Variable top : list (TraverseNode Priority * bool) → nat.
Variable mode : TraverseMode.

(** [TraverseQueueItem], and with it the passes of the loop in which
    the ancestors of the node were visited, nearest first.  The code
    keeps no such record; it serves to say where a node lies in the
    tree. *)
Record TraverseQueueItem := {
  item_trav : TraverseNode Priority;
  item_loadOnly : bool;
  item_ancestors : list nat;
}.

(** A call of [renderNode]: the pass in which it happens, the passes
    that visited the ancestors of the node, and the node. *)
Record RenderCall := {
  call_pass : nat;
  call_ancestors : list nat;
  call_trav : TraverseNode Priority;
}.

(** [traverse(t.trav, t.loadOnly)] in pass [k]. *)
Definition visit (k : nat) (it : TraverseQueueItem) : list (TraverseEvent Priority) :=
  traverse Priority (travDetermineMeta k) (travDetermineDraws k)
    (visibilityTest k) (coarsenessTest k) (computeResourcePriority k)
    mode (item_trav it) (item_loadOnly it).

Definition renderCalls (k : nat) (it : TraverseQueueItem)
    (evs : list (TraverseEvent Priority)) : list RenderCall :=
  omap (λ ev, match ev with
              | Rendered t =>
                  Some {| call_pass := k;
                          call_ancestors := item_ancestors it;
                          call_trav := t |}
              | Queued _ _ => None
              end) evs.

Definition queued (k : nat) (it : TraverseQueueItem)
    (evs : list (TraverseEvent Priority)) : list TraverseQueueItem :=
  omap (λ ev, match ev with
              | Rendered _ => None
              | Queued t loadOnly =>
                  Some {| item_trav := t; item_loadOnly := loadOnly;
                          item_ancestors := k :: item_ancestors it |}
              end) evs.

(** [top()] and [pop()]. *)
Definition pop (queue : list TraverseQueueItem)
    : option (TraverseQueueItem * list TraverseQueueItem) :=
  let i := (top ((λ it, (item_trav it, item_loadOnly it)) <$> queue)
            `mod` length queue)%nat in
  match queue !! i with
  | Some it => Some (it, delete i queue)
  | None => None
  end.

(** The loop [while (!renderer.traverseQueue.empty())] of
    [renderTickRender], from pass [k] on: the calls of [renderNode] it
    makes.  The loop runs as long as the metadata oracle keeps handing
    out children; [fuel] bounds the passes looked at. *)
Fixpoint traverseLoop (fuel k : nat) (queue : list TraverseQueueItem)
    : list RenderCall :=
  match fuel with
  | O => []
  | S fuel =>
      match pop queue with
      | None => []
      | Some (it, rest) =>
          let evs := visit k it in
          renderCalls k it evs
          ++ traverseLoop fuel (S k) (rest ++ queued k it evs)
      end
  end.

(** [renderer.traverseQueue.emplace(renderer.traverseRoot, false)] and
    the loop. *)
Definition renderTickRender (fuel : nat) (traverseRoot : TraverseNode Priority)
    : list RenderCall :=
  traverseLoop fuel 0
    [{| item_trav := traverseRoot; item_loadOnly := false;
        item_ancestors := [] |}].

End RenderLoop.

(** ** Virtual surfaces *)

(** [vtslibs::vts::VirtualSurfaceConfig]: the ids of the surfaces it
    stands for and the path of its tileset mapping. *)
Record VirtualSurfaceConfig := {
  vs_id : list string;
  vs_mapping : string;
}.

(** The test in the loop "check for virtual surface" of
    [prerequisitesCheck]: the two [continue]s are not taken.
    [viewSurfaces] has the keys of [mapConfig->view.surfaces]; strings
    are ordered by [operator<]. *)
Definition matchesView (viewSurfaces : list string)
    (it : VirtualSurfaceConfig) : bool :=
  let viewSurfaces := std_sort String.ltb viewSurfaces in
  let virtSurfaces := vs_id it in
  if negb (length virtSurfaces =? length viewSurfaces)%nat then false
  else
    let virtSurfaces2 := std_sort String.ltb virtSurfaces in
    bool_decide (viewSurfaces = virtSurfaces2).

(** The virtual surface at which the loop leaves with [break] (or with
    [return false], while its tileset mapping is not ready yet). *)
Fixpoint findVirtualSurface (viewSurfaces : list string)
    (virtualSurfaces : list VirtualSurfaceConfig)
    : option VirtualSurfaceConfig :=
  match virtualSurfaces with
  | [] => None
  | it :: rest =>
      if matchesView viewSurfaces it then Some it
      else findVirtualSurface viewSurfaces rest
  end.

(** * Properties *)

(** ** Machine integers *)

Lemma wrap32_small z : 0 ≤ z < 2 ^ 32 → wrap32 z = z.
Proof. intros H. unfold wrap32. by apply Z.mod_small. Qed.

Lemma wrap32_range z : 0 ≤ wrap32 z < 2 ^ 32.
Proof. unfold wrap32. apply Z.mod_pos_bound. lia. Qed.

(** ** The sort meets its contract *)

Section StdSortFacts.
Context {A : Type} (comp : A → A → bool).

Lemma sort_insert_perm x l : Permutation (x :: l) (sort_insert comp x l).
Proof.
  induction l as [|y t IH]; simpl; [done|].
  destruct (comp x y); [done|].
  rewrite perm_swap. by apply perm_skip.
Qed.

Lemma std_sort_perm l : Permutation l (std_sort comp l).
Proof.
  induction l as [|x l IH]; simpl; [done|].
  etrans; [apply perm_skip, IH|]. apply sort_insert_perm.
Qed.

Lemma sort_insert_hd a x l :
  (not_after comp) a x → HdRel (not_after comp) a l → HdRel (not_after comp) a (sort_insert comp x l).
Proof.
  intros Hax Hal. destruct l as [|y t]; simpl.
  - by constructor.
  - destruct (comp x y); constructor; [done|]. by inversion Hal.
Qed.

Hypothesis comp_asym : ∀ a b, comp a b = true → comp b a = false.

Lemma sort_insert_sorted x l :
  Sorted (not_after comp) l → Sorted (not_after comp) (sort_insert comp x l).
Proof.
  induction 1 as [|y t Ht IH Hy]; simpl.
  - repeat constructor.
  - destruct (comp x y) eqn:E.
    + constructor; [by constructor|]. constructor. by apply comp_asym.
    + constructor; [done|]. by apply sort_insert_hd.
Qed.

Lemma std_sort_sorted l : Sorted (not_after comp) (std_sort comp l).
Proof.
  induction l as [|x l IH]; simpl; [constructor|].
  by apply sort_insert_sorted.
Qed.
End StdSortFacts.

Lemma Sorted_weaken {A} (R S : A → A → Prop) (l : list A) :
  (∀ a b, R a b → S a b) → Sorted R l → Sorted S l.
Proof.
  intros HRS. induction 1 as [|x l Hl IH Hx]; constructor; [done|].
  destruct Hx; constructor; auto.
Qed.

(** ** Draw order *)

(** The contract of the sort on a list whose elements the comparator
    orders without contradiction. *)
Section StdSortOn.
Context {A : Type} (comp : A → A → bool).

Lemma sort_insert_sorted_on x l :
  (∀ y, y ∈ l → comp x y = true → comp y x = false) →
  Sorted (not_after comp) l → Sorted (not_after comp) (sort_insert comp x l).
Proof.
  intros Hx. induction 1 as [|y t Ht IH Hy]; simpl.
  - repeat constructor.
  - destruct (comp x y) eqn:E.
    + constructor; [by constructor|]. constructor.
      apply Hx; [left|done].
    + constructor.
      * apply IH. intros z Hz. apply Hx. by right.
      * by apply sort_insert_hd.
Qed.

Lemma std_sort_sorted_on l :
  (∀ a b, a ∈ l → b ∈ l → comp a b = true → comp b a = false) →
  Sorted (not_after comp) (std_sort comp l).
Proof.
  induction l as [|x l IH]; intros Hl; simpl; [constructor|].
  apply sort_insert_sorted_on.
  - intros y Hy. apply Hl; [left|]. right.
    by rewrite (std_sort_perm comp l).
  - apply IH. intros a b Ha Hb. apply Hl; by right.
Qed.

End StdSortOn.

Lemma Sorted_weaken_on {A} (R S : A → A → Prop) (l : list A) :
  (∀ a b, a ∈ l → b ∈ l → R a b → S a b) → Sorted R l → Sorted S l.
Proof.
  intros HRS Hl. induction Hl as [|x l Hl IH Hx]; constructor.
  - apply IH. intros a b Ha Hb. apply HRS; by right.
  - destruct Hx as [|y l Hxy]; constructor.
    apply HRS; [left|right; left|done].
Qed.

Section CameraFacts.

Variable double : Type.
Variable dadd dsub dmul : double → double → double.
Variable dlt : double → double → bool.
Variable dle : double → double → Prop.

Local Abbreviation distance2C := (distance2 double dadd dsub dmul).

(** C9: after [renderUpdate] the opaque draw tasks are in front-to-back
    order, of two consecutive tasks the earlier has a squared distance
    from the eye less than or equal to that of the later, provided the
    squared distances of the tasks compare as numbers do: of two of
    them at most one is smaller than the other, and one that is not
    greater is less or equal.  That is so when none of them is NaN.
    On the path that traverses, the list holds exactly the tasks the
    traversal emitted. *)
Theorem C9_opaque_sorted_front_to_back
    (mapconfigReady : bool) (windowWidth windowHeight : Z)
    (eye : vec3 double) (traversed : list (DrawSurfaceTask double)) :
  (∀ a b, a ∈ traversed → b ∈ traversed →
          dlt (distance2 double dadd dsub dmul eye a)
              (distance2 double dadd dsub dmul eye b) = true →
          dlt (distance2 double dadd dsub dmul eye b)
              (distance2 double dadd dsub dmul eye a) = false) →
  (∀ a b, a ∈ traversed → b ∈ traversed →
          dlt (distance2 double dadd dsub dmul eye b)
              (distance2 double dadd dsub dmul eye a) = false →
          dle (distance2 double dadd dsub dmul eye a)
              (distance2 double dadd dsub dmul eye b)) →
  let handed := renderUpdate double dadd dsub dmul dlt mapconfigReady
                  windowWidth windowHeight eye traversed in
  Sorted (λ a b, dle (distance2 double dadd dsub dmul eye a)
                     (distance2 double dadd dsub dmul eye b)) handed
  ∧ (mapconfigReady = true → windowWidth ≠ 0 → windowHeight ≠ 0 →
     Permutation traversed handed).
Proof.
  intros Hasym Hnum. simpl. unfold renderUpdate. split.
  - destruct mapconfigReady; simpl; [|constructor].
    destruct ((windowWidth =? 0) || (windowHeight =? 0)); [constructor|].
    unfold sortOpaqueFrontToBack.
    eapply (Sorted_weaken_on (not_after (nearer double dadd dsub dmul dlt eye))).
    + intros a b Ha Hb Hab.
      rewrite <- (std_sort_perm (nearer double dadd dsub dmul dlt eye)
                    traversed) in Ha, Hb.
      by apply Hnum.
    + apply std_sort_sorted_on. intros a b Ha Hb. by apply Hasym.
  - intros -> Hw Hh. simpl.
    apply Z.eqb_neq in Hw, Hh. rewrite Hw, Hh. simpl.
    apply std_sort_perm.
Qed.

End CameraFacts.

(** A property of all pairs of a list, checked entry by entry. *)
Lemma all_pairs {A} (P : A → A → Prop) (l : list A) :
  Forall (λ a, Forall (P a) l) l → ∀ a b, a ∈ l → b ∈ l → P a b.
Proof.
  intros H a b Ha Hb. rewrite Forall_forall in H.
  specialize (H a Ha). rewrite Forall_forall in H. by apply H.
Qed.

(** The theorem at binary64 with the eye at (10, 0, 0): three tasks at
    squared distances 1, 81 and 36 from the eye come out as 1, 36,
    81. *)
Lemma C9_opaque_sorted_witness :
  let eye : vec3 PrimFloat.float := (floatOf 10, floatOf 0, floatOf 0) in
  let at_x (x p : nat) : DrawSurfaceTask PrimFloat.float :=
    {| center := (floatOf x, floatOf 0, floatOf 0); payload := p |} in
  let tasks := [at_x 9 0; at_x 1 1; at_x 4 2]%nat in
  let handed := renderUpdate PrimFloat.float PrimFloat.add PrimFloat.sub
                  PrimFloat.mul PrimFloat.ltb true 800 600 eye tasks in
  let d := distance2 PrimFloat.float PrimFloat.add PrimFloat.sub
             PrimFloat.mul eye in
  map (payload PrimFloat.float) handed = [0; 2; 1]%nat
  ∧ map d handed = [floatOf 1; floatOf 36; floatOf 81]
  ∧ Sorted (λ a b, PrimFloat.leb (d a) (d b) = true) handed.
Proof.
  intros eye at_x tasks handed d.
  split; [reflexivity|]. split; [reflexivity|].
  apply (C9_opaque_sorted_front_to_back PrimFloat.float PrimFloat.add
           PrimFloat.sub PrimFloat.mul PrimFloat.ltb
           (λ a b, PrimFloat.leb a b = true) true 800 600 eye tasks).
  - apply (all_pairs (λ a b, PrimFloat.ltb (d a) (d b) = true →
                             PrimFloat.ltb (d b) (d a) = false) tasks).
    repeat constructor; vm_compute; congruence.
  - apply (all_pairs (λ a b, PrimFloat.ltb (d b) (d a) = false →
                             PrimFloat.leb (d a) (d b) = true) tasks).
    repeat constructor; vm_compute; congruence.
Defined.

(** C9 as stated fails at binary64.  The constructor leaves the eye at
    NaN; with it every squared distance is NaN and no comparison
    holds: of the two tasks handed on, the first is not at a squared
    distance less than or equal to that of the second, and no other
    order of the two would do. *)
Lemma C9_nan_counterexample :
  let eye : vec3 PrimFloat.float :=
    (PrimFloat.nan, PrimFloat.nan, PrimFloat.nan) in
  let at_x (x p : nat) : DrawSurfaceTask PrimFloat.float :=
    {| center := (floatOf x, floatOf 0, floatOf 0); payload := p |} in
  let tasks := [at_x 1 0; at_x 2 1]%nat in
  let handed := renderUpdate PrimFloat.float PrimFloat.add PrimFloat.sub
                  PrimFloat.mul PrimFloat.ltb true 800 600 eye tasks in
  let d := distance2 PrimFloat.float PrimFloat.add PrimFloat.sub
             PrimFloat.mul eye in
  length handed = 2%nat
  ∧ ¬ Sorted (λ a b, PrimFloat.leb (d a) (d b) = true) handed
  ∧ ∀ l, Permutation tasks l →
         ¬ Sorted (λ a b, PrimFloat.leb (d a) (d b) = true) l.
Proof.
  intros eye at_x tasks handed d.
  assert (Hnone : ∀ l, Permutation tasks l →
            ¬ Sorted (λ a b, PrimFloat.leb (d a) (d b) = true) l).
  { intros l Hp Hs.
    assert (Hnan : ∀ a b, a ∈ tasks → b ∈ tasks →
                          PrimFloat.leb (d a) (d b) = false).
    { apply (all_pairs (λ a b, PrimFloat.leb (d a) (d b) = false) tasks).
      repeat constructor. }
    pose proof (Permutation_length Hp) as Hlen.
    destruct l as [|a [|b l]]; try discriminate Hlen.
    apply Sorted_inv in Hs as [_ Hs]. apply HdRel_inv in Hs.
    rewrite Hnan in Hs; [done| |]; rewrite Hp; [left|right; left]. }
  split; [reflexivity|]. split; [|done].
  apply Hnone. unfold handed, renderUpdate, sortOpaqueFrontToBack.
  apply (std_sort_perm _ tasks).
Qed.



(** ** Hierarchical traversal *)

Section TraversalFacts.

Variable Priority : Type.
Variable travDetermineMeta : TraverseNode Priority → bool * TraverseNode Priority.
Variable travDetermineDraws : TraverseNode Priority → TraverseNode Priority.
Variable visibilityTest : TraverseNode Priority → bool.
Variable coarsenessTest : TraverseNode Priority → bool.
Variable computeResourcePriority : TraverseNode Priority → Priority.

Local Abbreviation traverseP :=
  (traverse Priority travDetermineMeta travDetermineDraws visibilityTest
     coarsenessTest computeResourcePriority).
Local Abbreviation enqueueChildsP := (enqueueChilds Priority computeResourcePriority).
Local Abbreviation prepareMetaP := (prepareMeta Priority travDetermineMeta).
Local Abbreviation determineDrawsP := (determineDraws Priority travDetermineDraws).

Lemma childOk_false t : childOk Priority t = false ↔ lacksData Priority t.
Proof.
  unfold childOk, lacksData. destruct (meta t) as [m|].
  - rewrite negb_false_iff, andb_true_iff, orb_true_iff, negb_true_iff.
    split.
    + intros [Hs Hr]. right. by exists m.
    + intros [?|(m' & [= <-] & Hs & Hr)]; done.
  - split; [by left|done].
Qed.

Lemma forallb_childOk_false l :
  (∃ t, t ∈ l ∧ lacksData Priority t) → forallb (childOk Priority) l = false.
Proof.
  intros (t & Hin & Ht). apply childOk_false in Ht.
  destruct (forallb (childOk Priority) l) eqn:E; [|done].
  rewrite forallb_forall in E. rewrite <- Ht. symmetry. apply E.
  by apply list_elem_of_In.
Qed.

Lemma forallb_childOk_true l :
  (∀ t, t ∈ l → ¬ lacksData Priority t) → forallb (childOk Priority) l = true.
Proof.
  intros H. apply forallb_forall. intros t Hin.
  destruct (childOk Priority t) eqn:E; [done|].
  apply childOk_false in E. destruct (H t); [by apply list_elem_of_In|done].
Qed.

(** C7, amended: a visible node that fails the coarseness test and is
    not in load-only mode is rendered as a fallback, and all its
    children are queued with [loadOnly] set, when one of its children
    lacks data; when it has children and none lacks data it is not
    rendered and the children are queued with [loadOnly] unchanged;
    when it has no children it is rendered itself and nothing is
    queued. *)
Theorem C7_fallback_or_descend (trav resolved : TraverseNode Priority)
    (m : MetaInfo) :
  prepareMetaP trav = Some resolved →
  meta resolved = Some m →
  let seen := determineDrawsP m resolved in
  visibilityTest seen = true →
  coarsenessTest seen = false →
  let events := traverseP Hierarchical trav false in
  ((∃ t, t ∈ childs seen ∧ lacksData Priority t) →
     events = Rendered seen :: enqueueChildsP seen true)
  ∧ (childs seen ≠ [] → (∀ t, t ∈ childs seen → ¬ lacksData Priority t) →
     events = enqueueChildsP seen false)
  ∧ (childs seen = [] → events = [Rendered seen]).
Proof.
  intros Hprep Hmeta seen Hvis Hcoarse events.
  assert (Hev : events = traverseHierarchical Priority visibilityTest
                           coarsenessTest computeResourcePriority seen false).
  { unfold events, traverse. by rewrite Hprep, Hmeta. }
  rewrite Hev. unfold traverseHierarchical. rewrite Hvis, Hcoarse. simpl.
  split; [|split].
  - intros Hex. rewrite (forallb_childOk_false _ Hex). simpl.
    destruct Hex as (t & Hin & _).
    destruct (childs seen) eqn:E; [by apply not_elem_of_nil in Hin|].
    unfold enqueueChilds. by rewrite E.
  - intros Hne Hall. rewrite (forallb_childOk_true _ Hall). simpl.
    destruct (childs seen) eqn:E; [done|].
    unfold enqueueChilds. by rewrite E.
  - intros Hnil. rewrite Hnil. reflexivity.
Qed.

End TraversalFacts.

(** A node with two children, the second still without metadata: the
    node is drawn and both children are queued load-only. *)
Lemma C7_fallback_witness :
  let child (md : option MetaInfo) : TraverseNode unit :=
    {| meta := md; renders := {| opaque := []; transparent := [];
                                 infographic := [] |};
       childs := []; priority := tt |} in
  let node : TraverseNode unit :=
    {| meta := Some {| surface := false |};
       renders := {| opaque := []; transparent := []; infographic := [] |};
       childs := [child (Some {| surface := false |}); child None];
       priority := tt |} in
  traverse unit (λ t, (false, t)) (λ t, t) (λ _, true) (λ _, false)
    (λ _, tt) Hierarchical node false
  = [Rendered node; Queued (child (Some {| surface := false |})) true;
     Queued (child None) true].
Proof.
  intros child node.
  refine (proj1 (C7_fallback_or_descend unit (λ t, (false, t)) (λ t, t)
                   (λ _, true) (λ _, false) (λ _, tt) node node
                   {| surface := false |} _ _ _ _) _);
    try reflexivity.
  exists (child None). split; [|by left].
  simpl. apply list_elem_of_In. right. by left.
Defined.

(** C7 as stated fails at a node without children: all of its (zero)
    children are ready, yet the node is rendered and nothing is
    queued. *)
Lemma C7_leaf_counterexample :
  let leaf : TraverseNode unit :=
    {| meta := Some {| surface := true |};
       renders := {| opaque := [ {| task_ready := true |} ];
                     transparent := []; infographic := [] |};
       childs := []; priority := tt |} in
  let events := traverse unit (λ t, (false, t)) (λ t, t) (λ _, true)
                  (λ _, false) (λ _, tt) Hierarchical leaf false in
  (∀ t, t ∈ childs leaf → ¬ lacksData unit t)
  ∧ events = [Rendered leaf]
  ∧ ¬ (Rendered leaf ∉ events).
Proof.
  intros leaf events. split; [|split].
  - intros t Hin. by apply not_elem_of_nil in Hin.
  - reflexivity.
  - intros H. apply H. unfold events. simpl. apply list_elem_of_here.
Qed.

(** ** Primitive updates *)

(** An assignment to a state field touches the resource map and the
    log, nothing else. *)
Ltac frame_assign :=
  intros; unfold assign_state; destruct (resources _ !! _); reflexivity.

Lemma assign_state_cache k s w : cache (assign_state k s w) = cache w.
Proof. frame_assign. Qed.
Lemma assign_state_fetcher k s w : fetcher (assign_state k s w) = fetcher w.
Proof. frame_assign. Qed.
Lemma assign_state_downloads k s w : downloads (assign_state k s w) = downloads w.
Proof. frame_assign. Qed.
Lemma assign_state_invalidUrl k s w : invalidUrl (assign_state k s w) = invalidUrl w.
Proof. frame_assign. Qed.
Lemma assign_state_invalidUrlNew k s w :
  invalidUrlNew (assign_state k s w) = invalidUrlNew w.
Proof. frame_assign. Qed.
Lemma assign_state_prepareQue k s w : prepareQue (assign_state k s w) = prepareQue w.
Proof. frame_assign. Qed.
Lemma assign_state_prepareQueNew k s w :
  prepareQueNew (assign_state k s w) = prepareQueNew w.
Proof. frame_assign. Qed.
Lemma assign_state_frameIndex k s w : frameIndex (assign_state k s w) = frameIndex w.
Proof. frame_assign. Qed.
Lemma assign_state_takeItemIndex k s w :
  takeItemIndex (assign_state k s w) = takeItemIndex w.
Proof. frame_assign. Qed.
Lemma assign_state_maxDownloads k s w :
  maxConcurrentDownloads (assign_state k s w) = maxConcurrentDownloads w.
Proof. frame_assign. Qed.
Lemma assign_state_maxMemory k s w :
  maxResourcesMemory (assign_state k s w) = maxResourcesMemory w.
Proof. frame_assign. Qed.

Lemma alter_absent {V} (f : V → V) (k : string) (m : gmap string V) :
  m !! k = None → alter f k m = m.
Proof.
  intros H. apply map_eq. intros j. rewrite lookup_alter.
  case_decide; subst; by rewrite ?H.
Qed.

Lemma assign_state_resources k s w :
  resources (assign_state k s w) = alter (set_state s) k (resources w).
Proof.
  unfold assign_state. destruct (resources w !! k) eqn:E; simpl; [done|].
  by rewrite alter_absent.
Qed.

Lemma assign_state_stateLog k s w :
  stateLog (assign_state k s w)
  = stateLog w ++ match resources w !! k with
                  | Some r => [(k, state r, s)]
                  | None => []
                  end.
Proof.
  unfold assign_state. destruct (resources w !! k); simpl; [done|].
  by rewrite app_nil_r.
Qed.

Create Rewrite HintDb frame.

#[local] Hint Rewrite assign_state_cache assign_state_fetcher
  assign_state_downloads assign_state_invalidUrl assign_state_invalidUrlNew
  assign_state_prepareQue assign_state_prepareQueNew assign_state_frameIndex
  assign_state_takeItemIndex assign_state_maxDownloads
  assign_state_maxMemory assign_state_resources : frame.

(** Reading a resource after an update of the object under [k]. *)
Lemma lookup_alter_resource (f : Resource → Resource) k j
    (m : gmap string Resource) :
  alter f k m !! j = if decide (k = j) then f <$> m !! j else m !! j.
Proof. rewrite lookup_alter. case_decide; by subst. Qed.

Ltac frame := repeat (autorewrite with frame; simpl).

(** ** The completion of a fetch *)

Section FetchFacts.

Variable convertNameToCache : string → string.

Local Abbreviation fetchedFileP := (fetchedFile convertNameToCache).
Local Abbreviation finishFetchP := (finishFetch convertNameToCache).

Lemma handleErrorCodes_cache k w : cache (handleErrorCodes k w) = cache w.
Proof. unfold handleErrorCodes. repeat case_match; by frame. Qed.

Lemma availabilityTests_cache k w : cache (availabilityTests k w).2 = cache w.
Proof. unfold availabilityTests. repeat case_match; by frame. Qed.

Lemma handleRedirections_cache k w : cache (handleRedirections k w).2 = cache w.
Proof. unfold handleRedirections. repeat case_match; by frame. Qed.

(** When the redirection block sends the task back to the fetcher, the
    resource is still [downloading]. *)
Lemma handleRedirections_refetch k w w' :
  handleRedirections k w = (true, w') → state_at k w' = Some downloading.
Proof.
  unfold handleRedirections, state_at.
  destruct (resources w !! k) as [r|] eqn:E; [|done].
  destruct (state r) eqn:Es; try done.
  destruct (isRedirect (code r)); [|done].
  destruct (5 <? redirectionsCount r); [done|].
  intros [= <-]. simpl. rewrite !lookup_alter_resource.
  rewrite !decide_True by done. rewrite E. simpl. by rewrite Es.
Qed.

(** What the tail of [fetchedFile] leaves behind. *)
Lemma finishFetch_errorDownload k w r' :
  resources (finishFetchP k w) !! k = Some r' →
  state r' = errorDownload →
  contentData r' = [] ∧ name r' ∈ invalidUrlNew (finishFetchP k w)
  ∧ cache (finishFetchP k w) = cache w.
Proof.
  unfold finishFetch. simpl.
  destruct (resources w !! k) as [r|] eqn:E; [|simpl; by rewrite E].
  destruct (decide (state r = errorDownload)) as [Hs|Hs].
  - rewrite Hs. simpl. rewrite lookup_alter_resource, decide_True by done.
    rewrite E. simpl. intros [= <-] _. simpl. split; [done|].
    split; [set_solver|done].
  - assert (Hr : resources (assign_state k downloaded
                   (saveToCache convertNameToCache k
                      (with_downloads (wrap32 (downloads w - 1)) w))) !! k
                 = Some (set_state downloaded r)).
    { frame. unfold saveToCache. simpl. rewrite E. simpl.
      rewrite lookup_alter_resource, decide_True by done. by rewrite E. }
    destruct (state r); try done; rewrite Hr; by intros [= <-].
Qed.

Lemma finishFetch_cache k w :
  cache (finishFetchP k w) ≠ cache w →
  state_at k (finishFetchP k w) = Some downloaded.
Proof.
  unfold finishFetch, state_at. simpl.
  destruct (resources w !! k) as [r|] eqn:E; [|done].
  destruct (decide (state r = errorDownload)) as [Hs|Hs].
  - by rewrite Hs.
  - intros _.
    assert (Hr : resources (assign_state k downloaded
                   (saveToCache convertNameToCache k
                      (with_downloads (wrap32 (downloads w - 1)) w))) !! k
                 = Some (set_state downloaded r)).
    { frame. unfold saveToCache. simpl. rewrite E. simpl.
      rewrite lookup_alter_resource, decide_True by done. by rewrite E. }
    destruct (state r); try done; by rewrite Hr.
Qed.

(** [fetchedFile] split along its three ways out. *)
Lemma fetchedFile_cases k w o w' :
  fetchedFileP k w = (o, w') →
  cache (availabilityTests k (handleErrorCodes k w)).2 = cache w
  ∧ ((∃ e, o = Thrown e ∧ cache w' = cache w)
     ∨ (o = Returned ∧ cache w' = cache w
        ∧ state_at k w' = Some downloading)
     ∨ (∃ w3, o = Returned ∧ cache w3 = cache w
              ∧ w' = finishFetchP k w3)).
Proof.
  unfold fetchedFile. intros H.
  pose proof (availabilityTests_cache k (handleErrorCodes k w)) as Ha.
  rewrite handleErrorCodes_cache in Ha. split; [done|].
  destruct (availabilityTests k (handleErrorCodes k w)) as [[|e] w2];
    simpl in Ha.
  - pose proof (handleRedirections_cache k w2) as Hr.
    destruct (handleRedirections k w2) as [[|] w3] eqn:E3; simpl in Hr;
      injection H as <- <-.
    + right; left. split; [done|]. split; [congruence|].
      by eapply handleRedirections_refetch.
    + right; right. exists w3. split; [done|]. split; [congruence|done].
  - injection H as <- <-. left. by exists e.
Qed.

(** The completion code of [fetchedFile]: when the call returns with
    the resource in state [errorDownload], the content buffer is
    freed, the name is in the staging set [invalidUrlNew] and the disk
    cache is as before; and whenever a call of [fetchedFile] changes
    the disk cache, it returns with the resource in state
    [downloaded]. *)
Lemma fetchedFile_returned_blacklisted (k : string) (w w' : MapImpl)
    (o : Outcome) :
  fetchedFileP k w = (o, w') →
  (∀ r', o = Returned → resources w' !! k = Some r' →
         state r' = errorDownload →
         contentData r' = [] ∧ name r' ∈ invalidUrlNew w'
         ∧ cache w' = cache w)
  ∧ (cache w' ≠ cache w → o = Returned ∧ state_at k w' = Some downloaded).
Proof.
  intros H. destruct (fetchedFile_cases _ _ _ _ H) as [_ Hc]. split.
  - intros r' -> Hr Hs.
    destruct Hc as [(e & ? & _)|[(_ & _ & Hd)|(w3 & _ & Hc3 & ->)]];
      [done| |].
    + unfold state_at in Hd. rewrite Hr in Hd. simpl in Hd. congruence.
    + destruct (finishFetch_errorDownload _ _ _ Hr Hs) as (? & ? & ?).
      repeat split; [done..|congruence].
  - intros Hne.
    destruct Hc as [(e & _ & ?)|[(_ & ? & _)|(w3 & -> & Hc3 & ->)]];
      [done..|].
    split; [done|]. apply finishFetch_cache. congruence.
Qed.

End FetchFacts.

(** A fetch answered with status 404: the resource ends in
    [errorDownload], is blacklisted and leaves the cache empty. *)
Lemma fetchedFile_returned_example :
  let k := "http://a/t.jpg" in
  let w := update k (set_reply (okReply 404 "text/html" 3))
             (oneDownload (resourceIn k downloading None 0)) in
  let w' := (fetchedFile id k w).2 in
  (contentData <$> resources w' !! k) = Some []
  ∧ k ∈ invalidUrlNew w' ∧ cache w' = cache w.
Proof.
  intros k w w'.
  destruct (fetchedFile_returned_blacklisted id k w w' Returned) as [H _];
    [reflexivity|].
  destruct (H (set_contentData [] (set_state errorDownload
             (set_reply (okReply 404 "text/html" 3)
                (resourceIn k downloading None 0)))))
    as (H1 & H2 & H3); [reflexivity..|].
  split; [reflexivity|]. split; [exact H2|exact H3].
Defined.

(** C10 at a completion that ends in [errorDownload] by way of the
    [negativeSize] test: a reply with status 200 and one byte of
    content, against a threshold of 2.  The test sets [errorDownload]
    and falls into the [default] case, so that [fetchedFile] throws
    before its completion code: the content buffer still holds the
    byte and the name is in neither blacklist set.  Nothing is written
    to the disk cache.  The same resource answered with status 404
    goes through the completion code: buffer freed, name staged. *)
Theorem C10_thrown_completion_evaluated :
  let k := "http://a/t.jpg" in
  let test := Some {| avail_type := negativeSize; avail_mime := "";
                      avail_codes := []; avail_size := 2 |} in
  let start := oneDownload (resourceIn k downloading test 0) in
  let small := complete id k (okReply 200 "image/jpeg" 1) start in
  let failed := complete id k (okReply 404 "text/html" 3) start in
  (small.1 = Thrown "invalid availability test type"
   ∧ state_at k small.2 = Some errorDownload
   ∧ (contentData <$> resources small.2 !! k) = Some [Byte.x00]
   ∧ invalidUrlNew small.2 = ∅ ∧ invalidUrl small.2 = ∅
   ∧ cache small.2 = ∅)
  ∧ (failed.1 = Returned
     ∧ state_at k failed.2 = Some errorDownload
     ∧ (contentData <$> resources failed.2 !! k) = Some []
     ∧ invalidUrlNew failed.2 = {[k]}
     ∧ cache failed.2 = ∅).
Proof. vm_compute. repeat split. Qed.

(** ** Availability tests and redirections, as the code runs them *)

(** [negativeCode] rejects a status that is not in the set. *)
Lemma availabilityTests_negativeCode k w r a :
  resources w !! k = Some r → state r = downloading →
  availTest r = Some a → avail_type a = negativeCode →
  availabilityTests k w
  = (Returned, if bool_decide (code r ∈ avail_codes a) then w
               else assign_state k errorDownload w).
Proof.
  intros Hr Hs Ha Ht. unfold availabilityTests. rewrite Hr, Hs, Ha, Ht.
  by case_bool_decide.
Qed.

(** [negativeType] rejects a content type equal to the mime type. *)
Lemma availabilityTests_negativeType k w r a :
  resources w !! k = Some r → state r = downloading →
  availTest r = Some a → avail_type a = negativeType →
  availabilityTests k w
  = (Returned, if String.eqb (avail_mime a) (contentType r)
               then assign_state k errorDownload w else w).
Proof.
  intros Hr Hs Ha Ht. unfold availabilityTests. rewrite Hr, Hs, Ha, Ht.
  by destruct (String.eqb _ _).
Qed.

(** [negativeSize] throws whatever the size is. *)
Lemma availabilityTests_negativeSize k w r a :
  resources w !! k = Some r → state r = downloading →
  availTest r = Some a → avail_type a = negativeSize →
  (availabilityTests k w).1 = Thrown "invalid availability test type".
Proof.
  intros Hr Hs Ha Ht. unfold availabilityTests. by rewrite Hr, Hs, Ha, Ht.
Qed.

(** A redirect is followed as long as the count read before the
    increment is at most 5, that is on redirections one to six. *)
Lemma handleRedirections_followed k w r :
  resources w !! k = Some r → state r = downloading →
  isRedirect (code r) = true →
  (handleRedirections k w).1 = bool_decide (redirectionsCount r ≤ 5).
Proof.
  intros Hr Hs Hc. unfold handleRedirections. rewrite Hr, Hs, Hc.
  destruct (5 <? redirectionsCount r) eqn:E; simpl.
  - apply Z.ltb_lt in E. by rewrite bool_decide_false by lia.
  - apply Z.ltb_ge in E. by rewrite bool_decide_true by lia.
Qed.

(** C2 on concrete replies with status below 400.  With a
    [negativeSize] test the call throws, above the threshold (the
    resource stays [downloading], its slot stays taken) as well as
    below it (the resource is [errorDownload] but neither blacklisted
    nor counted down).  With a [negativeCode] test the status in the
    set is accepted and the status outside the set rejected.  A
    [negativeType] test behaves as the specification says. *)
Theorem C2_availability_tests_evaluated :
  let k := "http://a/t.jpg" in
  let test ty := Some {| avail_type := ty; avail_mime := "text/html";
                         avail_codes := [204]; avail_size := 2 |} in
  let answer ty p :=
    complete id k p (oneDownload (resourceIn k downloading (test ty) 0)) in
  let big := answer negativeSize (okReply 200 "image/jpeg" 5) in
  let small := answer negativeSize (okReply 200 "image/jpeg" 1) in
  (big.1 = Thrown "invalid availability test type"
   ∧ state_at k big.2 = Some downloading ∧ downloads big.2 = 1)
  ∧ (small.1 = Thrown "invalid availability test type"
     ∧ state_at k small.2 = Some errorDownload
     ∧ invalidUrlNew small.2 = ∅ ∧ downloads small.2 = 1)
  ∧ state_at k (answer negativeCode (okReply 204 "image/jpeg" 5)).2
    = Some downloaded
  ∧ state_at k (answer negativeCode (okReply 200 "image/jpeg" 5)).2
    = Some errorDownload
  ∧ state_at k (answer negativeType (okReply 200 "text/html" 5)).2
    = Some errorDownload
  ∧ state_at k (answer negativeType (okReply 200 "image/jpeg" 5)).2
    = Some downloaded.
Proof. vm_compute. repeat split. Qed.

(** C3 on a chain of redirections, starting from a task that has
    followed none: after six redirect replies the task is with the
    fetcher for the seventh time and the resource still [downloading];
    a success reply then ends in [downloaded]; only a seventh redirect
    reply ends in [errorDownload]. *)
Theorem C3_redirect_chain_evaluated :
  let k := "http://a/t.jpg" in
  let start := oneDownload (resourceIn k downloading None 0) in
  let hops n := deliver id k (repeat (redirectReply 302 "http://b/t.jpg") n)
                  start in
  (state_at k (hops 6%nat) = Some downloading
   ∧ fetcher (hops 6%nat) = [k]
   ∧ (redirectionsCount <$> resources (hops 6%nat) !! k) = Some 6
   ∧ (url <$> resources (hops 6%nat) !! k) = Some "http://b/t.jpg")
  ∧ state_at k (deliver id k [okReply 200 "image/jpeg" 3] (hops 6%nat))
    = Some downloaded
  ∧ (state_at k (hops 7%nat) = Some errorDownload
     ∧ fetcher (hops 7%nat) = []).
Proof. vm_compute. repeat split. Qed.

(** ** The eviction pass *)

Lemma evictBefore_asym a b : evictBefore a b = true → evictBefore b a = false.
Proof.
  unfold evictBefore.
  destruct (Z.eqb_spec (lastAccessTick a.2) (lastAccessTick b.2)) as [E|E].
  - rewrite E, Z.eqb_refl. intros H. apply Z.ltb_lt in H.
    apply Z.ltb_ge. lia.
  - rewrite (proj2 (Z.eqb_neq _ _)) by lia.
    intros H. apply Z.ltb_lt in H. apply Z.ltb_ge. lia.
Qed.

Lemma not_after_evictOrder a b : not_after evictBefore a b → evictOrder a b.
Proof.
  unfold not_after, evictBefore, evictOrder.
  destruct (Z.eqb_spec (lastAccessTick b.2) (lastAccessTick a.2)) as [E|E].
  - intros H. apply Z.ltb_ge in H. right. split; [done|lia].
  - intros H. apply Z.ltb_ge in H. left. lia.
Qed.

Lemma collectOld_elem w kit :
  kit ∈ collectOld w
  ↔ resources w !! kit.1 = Some kit.2
    ∧ longUnused (frameIndex w) kit.2 = true.
Proof.
  unfold collectOld. rewrite list_elem_of_In, filter_In, <- list_elem_of_In.
  destruct kit as [k r]. by rewrite elem_of_map_to_list.
Qed.

Lemma sorted_candidates_elem w kit :
  kit ∈ std_sort evictBefore (collectOld w) ↔ kit ∈ collectOld w.
Proof. by rewrite <- (std_sort_perm evictBefore (collectOld w)). Qed.

Lemma longUnused_true frame r :
  longUnused frame r = true
  ↔ wrap32 (lastAccessTick r + 100) < frame ∧ use_count r = 1
    ∧ state r ≠ downloading.
Proof.
  unfold longUnused.
  rewrite !andb_true_iff, negb_true_iff, bool_decide_eq_false.
  rewrite Z.ltb_lt, Z.eqb_eq. tauto.
Qed.

Lemma evictVisit_maxMemory w kit :
  maxResourcesMemory (evictVisit w kit) = maxResourcesMemory w.
Proof. unfold evictVisit. case_bool_decide; by frame. Qed.

(** A visit changes nothing but the object it visits. *)
Lemma evictVisit_other w kit k :
  name kit.2 = kit.1 → k ≠ kit.1 →
  resources (evictVisit w kit) !! k = resources w !! k.
Proof.
  intros Hn Hk. unfold evictVisit. case_bool_decide; frame.
  - rewrite Hn. by rewrite lookup_delete_ne.
  - by rewrite lookup_alter_ne.
Qed.

Lemma evictWalk_other res memUse w k :
  (∀ kit, kit ∈ res → name kit.2 = kit.1) →
  (∀ kit, kit ∈ res → kit.1 ≠ k) →
  resources (evictWalk res memUse w) !! k = resources w !! k.
Proof.
  revert memUse w. induction res as [|kit res IH]; intros memUse w Hn Hk;
    simpl; [done|].
  destruct (memUse <=? maxResourcesMemory w); [done|].
  rewrite IH.
  - apply evictVisit_other; [apply Hn; left|].
    intros Heq. by eapply Hk; [left|].
  - intros ? ?. apply Hn. by right.
  - intros ? ?. apply Hk. by right.
Qed.

Lemma filter_fst_NoDup {A B} (f : A * B → bool) (l : list (A * B)) :
  NoDup l.*1 → NoDup (List.filter f l).*1.
Proof.
  induction l as [|x l IH]; simpl; [done|].
  rewrite NoDup_cons. intros [Hx Hnd]. destruct (f x); simpl; [|auto].
  constructor; [|auto]. intros Hin. apply Hx.
  apply list_elem_of_fmap in Hin as (y & -> & Hy).
  apply list_elem_of_fmap. exists y. split; [done|].
  apply list_elem_of_In. apply list_elem_of_In, filter_In in Hy. tauto.
Qed.

Lemma sorted_candidates_NoDup w :
  NoDup (std_sort evictBefore (collectOld w)).*1.
Proof.
  rewrite <- (std_sort_perm evictBefore (collectOld w)).
  apply filter_fst_NoDup, NoDup_fst_map_to_list.
Qed.

(** Followed when their turn comes, the pointers lead to the objects
    that were collected. *)
Lemma evictLoop_walk res memUse w :
  NoDup res.*1 →
  (∀ kit, kit ∈ res →
     resources w !! kit.1 = Some kit.2 ∧ name kit.2 = kit.1) →
  evictLoop res.*1 memUse w = evictWalk res memUse w.
Proof.
  revert memUse w. induction res as [|kit res IH]; intros memUse w Hnd Hres;
    simpl; [done|].
  destruct (memUse <=? maxResourcesMemory w); [done|].
  destruct (Hres kit) as [Hk Hname]; [left|]. rewrite Hk.
  simpl in Hnd. apply NoDup_cons in Hnd as [Hfresh Hnd].
  destruct kit as [k it]. apply IH; [done|].
  intros kit' Hin. destruct (Hres kit') as [Hk' Hname']; [by right|].
  split; [|done]. rewrite evictVisit_other; [done..|].
  simpl. intros Heq. apply Hfresh.
  apply list_elem_of_fmap. by exists kit'.
Qed.

Lemma clearOldResources_walk w :
  names_ok w →
  clearOldResources w
  = let all := map_to_list (resources w) in
    let memUse := wrap32 (memRamUse all + memGpuUse all) in
    if maxResourcesMemory w <? memUse
    then evictWalk (std_sort evictBefore (collectOld w)) memUse w
    else w.
Proof.
  intros Hn. unfold clearOldResources. simpl.
  destruct (_ <? _); [|done].
  apply evictLoop_walk; [apply sorted_candidates_NoDup|].
  intros kit Hin. apply sorted_candidates_elem, collectOld_elem in Hin.
  destruct Hin as [Hk _]. split; [done|]. exact (Hn _ _ Hk).
Qed.

(** The loop visits a prefix of [res] and stops at the first candidate
    it meets with the accounted use within budget. *)
Lemma evictWalk_prefix res memUse w :
  ∃ n : nat,
    (n ≤ length res)%nat
    ∧ evictWalk res memUse w = foldl evictVisit w (take n res)
    ∧ (∀ j : nat, (j < n)%nat →
         maxResourcesMemory w < accounted memUse (take j res))
    ∧ (n = length res
       ∨ accounted memUse (take n res) ≤ maxResourcesMemory w).
Proof.
  revert memUse w. induction res as [|kit res IH]; intros memUse w.
  - exists 0%nat. simpl. split; [lia|]. split; [done|].
    split; [lia|by left].
  - simpl. destruct (memUse <=? maxResourcesMemory w) eqn:E.
    + exists 0%nat. simpl. split; [lia|]. split; [done|].
      split; [lia|]. right. unfold accounted. simpl. by apply Z.leb_le.
    + destruct (IH (wrap32 (memUse - memoryCost kit.2)) (evictVisit w kit))
        as (n & Hn & Heq & Hlt & Hstop).
      rewrite evictVisit_maxMemory in Hlt, Hstop.
      exists (S n). simpl. split; [lia|]. split; [done|]. split.
      * intros [|j] Hj; simpl.
        -- unfold accounted. simpl. by apply Z.leb_gt.
        -- apply Hlt. lia.
      * destruct Hstop as [->|Hstop]; [by left|by right].
Qed.

(** A resource that is not a candidate is left as it is. *)
Lemma clearOldResources_keeps w k r :
  names_ok w →
  resources w !! k = Some r →
  longUnused (frameIndex w) r = false →
  resources (clearOldResources w) !! k = Some r.
Proof.
  intros Hnames Hr Hlong. rewrite clearOldResources_walk by done. simpl.
  destruct (maxResourcesMemory w <? _); [|done].
  rewrite evictWalk_other; [done| |].
  - intros kit Hin. apply sorted_candidates_elem, collectOld_elem in Hin.
    destruct Hin as [Hk _]. exact (Hnames _ _ Hk).
  - intros kit Hin Heq. subst k.
    apply sorted_candidates_elem, collectOld_elem in Hin.
    destruct Hin as [Hk Hl]. congruence.
Qed.





(** ** Steps other than the eviction pass *)

Lemma mild_refl m : mild m m.
Proof.
  intros j. destruct (m !! j) as [r|] eqn:E; [|done].
  by exists r.
Qed.

Lemma mild_trans m1 m2 m3 : mild m1 m2 → mild m2 m3 → mild m1 m3.
Proof.
  intros H12 H23 j. specialize (H12 j). specialize (H23 j).
  destruct (m1 !! j) as [r1|].
  - destruct H12 as (r2 & E2 & Hn2 & Hs2). rewrite E2 in H23.
    destruct H23 as (r3 & E3 & Hn3 & Hs3).
    exists r3. split; [done|]. split; [congruence|auto].
  - destruct (m2 !! j) as [r2|].
    + destruct (H12 r2 eq_refl) as [Hn2 Hs2].
      destruct H23 as (r3 & E3 & Hn3 & Hs3).
      intros r' Hr'. rewrite E3 in Hr'. injection Hr' as <-.
      split; [congruence|auto].
    + done.
Qed.

Lemma mild_alter f k m : gentle f → mild m (alter f k m).
Proof.
  intros Hf j. rewrite lookup_alter_resource.
  destruct (m !! j) as [r|] eqn:E; case_decide; simpl; try done.
  - exists (f r). split; [done|]. apply Hf.
  - by exists r.
Qed.

Lemma mild_insert n m : m !! n = None → mild m (<[n := newResource n]> m).
Proof.
  intros Hn j. destruct (decide (n = j)) as [<-|Hne].
  - rewrite Hn, lookup_insert_eq. by intros r' [= <-].
  - rewrite lookup_insert_ne by done.
    destruct (m !! j) as [r|]; [by exists r|done].
Qed.

Lemma gentle_set_state s : s ≠ finalizing → gentle (set_state s).
Proof. intros Hs r. split; [done|]. simpl. by intros ->. Qed.
Lemma gentle_set_lastAccessTick t : gentle (set_lastAccessTick t).
Proof. by intros r. Qed.
Lemma gentle_set_contentData d : gentle (set_contentData d).
Proof. by intros r. Qed.
Lemma gentle_set_url u : gentle (set_url u).
Proof. by intros r. Qed.
Lemma gentle_set_redirectionsCount n : gentle (set_redirectionsCount n).
Proof. by intros r. Qed.
Lemma gentle_set_reply p : gentle (set_reply p).
Proof. by intros r. Qed.
Lemma gentle_set_attributes ram gpu uc a : gentle (set_attributes ram gpu uc a).
Proof. by intros r. Qed.

Create HintDb gentle.
#[local] Hint Resolve gentle_set_lastAccessTick gentle_set_contentData
  gentle_set_url gentle_set_redirectionsCount gentle_set_reply
  gentle_set_attributes : gentle.
#[local] Hint Extern 1 (gentle (set_state _)) =>
  (apply gentle_set_state; discriminate) : gentle.

(** Peel the updates off the map on the right, one at a time. *)
Ltac mild_chain :=
  repeat match goal with
         | |- mild ?m ?m => apply mild_refl
         | |- mild ?m (alter ?f ?k ?m') =>
             apply (mild_trans m m');
             [|apply mild_alter; auto with gentle]
         end.

Ltac mild_op := intros; repeat case_match; frame; mild_chain.

Section QuietFacts.

Variable load_ok : Resource → bool.
Variable internalMemory : string → list Byte.byte.
Variable convertNameToCache : string → string.

Local Abbreviation dataTickP :=
  (dataTick load_ok internalMemory convertNameToCache).
Local Abbreviation apply_eventP :=
  (apply_event load_ok internalMemory convertNameToCache).
Local Abbreviation runP := (run load_ok internalMemory convertNameToCache).

Lemma loadResource_mild k w :
  mild (resources w) (resources (loadResource load_ok k w)).
Proof. unfold loadResource. mild_op. Qed.

Lemma loadFromCache_resources k w :
  resources (loadFromCache convertNameToCache k w)
  = alter (set_contentData
             (default [] (cache w !! convertNameToCache
                            (default "" (name <$> resources w !! k)))))
      k (resources w).
Proof.
  unfold loadFromCache. destruct (resources w !! k) eqn:E; simpl; [done|].
  by rewrite alter_absent.
Qed.

Lemma loadFromInternalMemory_resources k w :
  resources (loadFromInternalMemory internalMemory k w)
  = alter (set_contentData
             (internalMemory (default "" (name <$> resources w !! k))))
      k (resources w).
Proof.
  unfold loadFromInternalMemory.
  destruct (resources w !! k) eqn:E; simpl; [done|].
  by rewrite alter_absent.
Qed.

Lemma saveToCache_resources k w :
  resources (saveToCache convertNameToCache k w) = resources w.
Proof. unfold saveToCache. by destruct (resources w !! k). Qed.

Lemma loadResource_resources k w :
  resources (loadResource load_ok k w)
  = alter (λ r, set_contentData []
                  (set_state (if load_ok r then ready else errorLoad) r))
      k (resources w).
Proof.
  unfold loadResource. destruct (resources w !! k) as [r|] eqn:E.
  - destruct (load_ok r) eqn:El; frame; apply map_eq; intros j;
      rewrite !lookup_alter_resource; case_decide; subst;
      rewrite ?E; simpl; by rewrite ?El.
  - by rewrite alter_absent.
Qed.

Lemma gentle_load :
  gentle (λ r, set_contentData []
                 (set_state (if load_ok r then ready else errorLoad) r)).
Proof. intros r. split; [done|]. simpl. by destruct (load_ok r). Qed.

#[local] Hint Resolve gentle_load : gentle.
#[local] Hint Rewrite loadFromCache_resources
  loadFromInternalMemory_resources saveToCache_resources
  loadResource_resources : frame.

Lemma dataTick_mild w : mild (resources w) (resources (dataTickP w).2).
Proof. unfold dataTick. mild_op. Qed.

Lemma handleErrorCodes_mild k w :
  mild (resources w) (resources (handleErrorCodes k w)).
Proof. unfold handleErrorCodes. mild_op. Qed.

Lemma availabilityTests_mild k w :
  mild (resources w) (resources (availabilityTests k w).2).
Proof. unfold availabilityTests. mild_op. Qed.

Lemma handleRedirections_mild k w :
  mild (resources w) (resources (handleRedirections k w).2).
Proof. unfold handleRedirections. mild_op. Qed.

Lemma finishFetch_mild k w :
  mild (resources w) (resources (finishFetch convertNameToCache k w)).
Proof. unfold finishFetch. mild_op. Qed.

Lemma fetchedFile_mild k w :
  mild (resources w) (resources (fetchedFile convertNameToCache k w).2).
Proof.
  unfold fetchedFile.
  pose proof (handleErrorCodes_mild k w) as H1.
  pose proof (availabilityTests_mild k (handleErrorCodes k w)) as H2.
  destruct (availabilityTests k (handleErrorCodes k w)) as [[|e] w2];
    simpl in H2; [|by eapply mild_trans].
  pose proof (handleRedirections_mild k w2) as H3.
  destruct (handleRedirections k w2) as [[|] w3]; simpl in *.
  - eapply mild_trans; [|done]. by eapply mild_trans.
  - eapply mild_trans; [|apply finishFetch_mild].
    eapply mild_trans; [|done]. by eapply mild_trans.
Qed.

Lemma complete_mild k p w :
  mild (resources w) (resources (complete convertNameToCache k p w).2).
Proof.
  unfold complete. eapply mild_trans; [|apply fetchedFile_mild].
  simpl. mild_chain.
Qed.

Lemma touchResource_mild k w :
  mild (resources w) (resources (touchResource k w)).
Proof. unfold touchResource. mild_op. Qed.

Lemma getMapResource_mild n w :
  mild (resources w) (resources (getMapResource n w)).
Proof.
  unfold getMapResource. eapply mild_trans; [|apply touchResource_mild].
  destruct (resources w !! n) eqn:E; simpl; [apply mild_refl|].
  by apply mild_insert.
Qed.

(** Every event but the eviction pass is mild. *)
Lemma apply_event_mild e w :
  isRenderTick e = false →
  mild (resources w) (resources (apply_eventP e w)).
Proof.
  destruct e; simpl; intros He; try done.
  - apply getMapResource_mild.
  - apply touchResource_mild.
  - apply dataTick_mild.
  - case_bool_decide; [apply complete_mild|apply mild_refl].
  - apply mild_refl.
  - mild_chain.
Qed.

Lemma run_mild es w :
  Forall (λ e, isRenderTick e = false) es →
  mild (resources w) (resources (runP es w)).
Proof.
  revert w. induction es as [|e es IH]; intros w Hes; simpl.
  - apply mild_refl.
  - inversion Hes; subst.
    eapply mild_trans; [by apply apply_event_mild|]. by apply IH.
Qed.

End QuietFacts.

Lemma mild_names_ok w w' :
  mild (resources w) (resources w') → names_ok w → names_ok w'.
Proof.
  intros Hm Hn j r' Hr'. specialize (Hm j).
  destruct (resources w !! j) as [r|] eqn:E.
  - destruct Hm as (r2 & E2 & Hn2 & _).
    rewrite Hr' in E2. injection E2 as <-. rewrite Hn2. by apply (Hn j).
  - by destruct (Hm r' Hr').
Qed.

Lemma mild_alive k w w' :
  mild (resources w) (resources w') → alive k w → alive k w'.
Proof.
  intros Hm (r & Hr & Hs). specialize (Hm k). rewrite Hr in Hm.
  destruct Hm as (r' & Hr' & _ & Hs'). exists r'. split; [done|].
  intros Hf. by apply Hs, Hs'.
Qed.

Lemma mild_present k w w' :
  mild (resources w) (resources w') →
  is_Some (resources w !! k) → is_Some (resources w' !! k).
Proof.
  intros Hm [r Hr]. specialize (Hm k). rewrite Hr in Hm.
  destruct Hm as (r' & Hr' & _). by exists r'.
Qed.

(** ** Two-phase eviction *)

Lemma evictVisit_names_ok w kit : names_ok w → names_ok (evictVisit w kit).
Proof.
  intros Hn. unfold evictVisit. case_bool_decide.
  - intros j r. simpl. rewrite lookup_delete_Some. intros [_ Hr].
    by apply (Hn j).
  - intros j r. frame. rewrite lookup_alter_resource.
    case_decide; [|by apply (Hn j)].
    destruct (resources w !! j) as [r0|] eqn:E; [|done].
    simpl. intros [= <-]. simpl. by apply (Hn j).
Qed.

Lemma evictWalk_names_ok res memUse w :
  names_ok w → names_ok (evictWalk res memUse w).
Proof.
  revert memUse w. induction res as [|kit res IH]; intros memUse w Hn;
    simpl; [done|].
  destruct (memUse <=? maxResourcesMemory w); [done|].
  by apply IH, evictVisit_names_ok.
Qed.

Lemma dataRenderTick_names_ok w : names_ok w → names_ok (dataRenderTick w).
Proof.
  intros Hn. unfold dataRenderTick. rewrite clearOldResources_walk by done.
  simpl. destruct (_ <? _); [|done]. by apply evictWalk_names_ok.
Qed.

(** The loop erases an entry only through a candidate collected in
    state [finalizing]. *)
Lemma evictWalk_present res memUse w k :
  (∀ kit, kit ∈ res → name kit.2 = kit.1) →
  (∀ kit, kit ∈ res → kit.1 = k → state kit.2 ≠ finalizing) →
  is_Some (resources w !! k) →
  is_Some (resources (evictWalk res memUse w) !! k).
Proof.
  revert memUse w. induction res as [|kit res IH]; intros memUse w Hn Hs Hk;
    simpl; [done|].
  destruct (memUse <=? maxResourcesMemory w); [done|].
  apply IH.
  - intros ? ?. apply Hn. by right.
  - intros ? ?. apply Hs. by right.
  - unfold evictVisit. case_bool_decide as Hf.
    + simpl. rewrite lookup_delete_ne; [done|].
      rewrite (Hn kit) by left. intros Heq. by apply (Hs kit); [left|..].
    + frame. rewrite lookup_alter_resource. case_decide; [|done].
      by apply fmap_is_Some.
Qed.

Lemma dataRenderTick_present w k r :
  names_ok w → resources w !! k = Some r → state r ≠ finalizing →
  is_Some (resources (dataRenderTick w) !! k).
Proof.
  intros Hn Hr Hs. unfold dataRenderTick.
  rewrite clearOldResources_walk by done. simpl.
  destruct (_ <? _); [|by exists r].
  apply evictWalk_present; [| |by exists r].
  - intros kit Hin. apply sorted_candidates_elem, collectOld_elem in Hin.
    destruct Hin as [Hk _]. exact (Hn _ _ Hk).
  - intros kit Hin Heq. subst k.
    apply sorted_candidates_elem, collectOld_elem in Hin.
    destruct Hin as [Hk _]. simpl in Hk. congruence.
Qed.

Lemma touchResource_alive k w :
  is_Some (resources w !! k) → alive k (touchResource k w).
Proof.
  intros [r Hr]. unfold touchResource, alive. rewrite Hr.
  destruct (state r) eqn:Es; frame;
    rewrite ?lookup_alter_resource, ?decide_True by done;
    rewrite Hr; simpl; eexists; (split; [done|]); simpl; congruence.
Qed.

Lemma touchResource_resurrects k w :
  state_at k w = Some finalizing →
  state_at k (touchResource k w) = Some initializing.
Proof.
  unfold state_at, touchResource.
  destruct (resources w !! k) as [r|] eqn:Hr; [|done].
  simpl. intros [= ->]. frame.
  rewrite !lookup_alter_resource, !decide_True by done. by rewrite Hr.
Qed.

Section TwoPhase.

Variable load_ok : Resource → bool.
Variable internalMemory : string → list Byte.byte.
Variable convertNameToCache : string → string.

Local Abbreviation runP := (run load_ok internalMemory convertNameToCache).

(** C5: when a pass has left the resource [k] in state [finalizing], a
    touch right after the pass sets it back to [initializing]; and when
    [k] is touched at any point before the next pass, whatever else
    happens in between, the next pass does not erase it.  A pass erases
    a resource only if it finds it in state [finalizing]. *)
Theorem C5_two_phase_eviction (w0 : MapImpl) (k : string)
    (before after : list Event) :
  names_ok w0 →
  state_at k (dataRenderTick w0) = Some finalizing →
  Forall (λ e, isRenderTick e = false) before →
  Forall (λ e, isRenderTick e = false) after →
  let marked := dataRenderTick w0 in
  state_at k (touchResource k marked) = Some initializing
  ∧ is_Some (resources
               (dataRenderTick
                  (runP after (touchResource k (runP before marked))))
             !! k)
  ∧ (∀ w r, names_ok w → resources w !! k = Some r →
            resources (dataRenderTick w) !! k = None →
            state r = finalizing).
Proof.
  intros Hn Hmark Hbefore Hafter marked. split; [|split].
  - by apply touchResource_resurrects.
  - assert (Hn1 : names_ok marked) by by apply dataRenderTick_names_ok.
    assert (Hp1 : is_Some (resources marked !! k)).
    { unfold marked. unfold state_at in Hmark.
      by destruct (resources (dataRenderTick w0) !! k). }
    pose proof (run_mild load_ok internalMemory convertNameToCache
                  before marked Hbefore) as Hm2.
    set (w2 := runP before marked) in *.
    pose proof (touchResource_mild k w2) as Hm3.
    set (w3 := touchResource k w2) in *.
    pose proof (run_mild load_ok internalMemory convertNameToCache
                  after w3 Hafter) as Hm4.
    set (w4 := runP after w3) in *.
    assert (Ha3 : alive k w3).
    { apply touchResource_alive. by eapply mild_present. }
    destruct (mild_alive k w3 w4 Hm4 Ha3) as (r & Hr & Hs).
    eapply dataRenderTick_present; [|done..].
    eapply mild_names_ok; [done|]. eapply mild_names_ok; [done|].
    by eapply mild_names_ok.
  - intros w r Hnw Hr Hnone.
    destruct (decide (state r = finalizing)) as [|Hs]; [done|].
    destruct (dataRenderTick_present w k r Hnw Hr Hs) as [r' Hr'].
    congruence.
Qed.

End TwoPhase.

(** On [cacheOverBudget] the pass marks "http://t/b"; a touch before
    the next pass keeps it in the map. *)
Lemma C5_two_phase_witness :
  let k := "http://t/b" in
  let marked := dataRenderTick cacheOverBudget in
  state_at k marked = Some finalizing
  ∧ state_at k (touchResource k marked) = Some initializing
  ∧ is_Some (resources
               (dataRenderTick
                  (run (λ _, true) (λ _, []) id [EvFrame]
                     (touchResource k
                        (run (λ _, true) (λ _, []) id [EvDataTick] marked))))
             !! k).
Proof.
  intros k marked.
  destruct (C5_two_phase_eviction (λ _, true) (λ _, []) id cacheOverBudget k
              [EvDataTick] [EvFrame]) as (H1 & H2 & _).
  - unfold names_ok. apply (bool_decide_unpack _). vm_compute. exact I.
  - reflexivity.
  - repeat constructor.
  - repeat constructor.
  - split; [reflexivity|]. split; [exact H1|exact H2].
Defined.

(** ** The invariant of the pipeline *)

Lemma state_at_assign_state k s j w :
  state_at j (assign_state k s w)
  = if decide (k = j) then (λ _, s) <$> state_at j w else state_at j w.
Proof.
  unfold state_at. frame. rewrite lookup_alter_resource.
  case_decide; [|done]. by destruct (resources w !! j).
Qed.

Lemma state_at_update k f j w :
  (∀ r, state (f r) = state r) →
  state_at j (update k f w) = state_at j w.
Proof.
  intros Hf. unfold state_at. simpl. rewrite lookup_alter_resource.
  case_decide; [|done]. destruct (resources w !! j); simpl; [|done].
  by rewrite Hf.
Qed.

(** [sound] reads the resource map, the fetcher's tasks and the log. *)
Lemma sound_ext w w' :
  resources w' = resources w → fetcher w' = fetcher w →
  stateLog w' = stateLog w → sound w → sound w'.
Proof.
  unfold sound, names_ok, fetching_ok, edges_ok, state_at.
  by intros -> -> ->.
Qed.

Lemma sound_update k f w :
  (∀ r, name (f r) = name r ∧ state (f r) = state r) →
  sound w → sound (update k f w).
Proof.
  intros Hf (Hn & [Hnd Hf'] & He). split; [|split; [split|]]; try done.
  - intros j r. simpl. rewrite lookup_alter_resource.
    case_decide; [|by apply (Hn j)].
    destruct (resources w !! j) as [r0|] eqn:E; [|done].
    simpl. intros [= <-]. rewrite (proj1 (Hf r0)). by apply (Hn j).
  - intros j Hj. rewrite state_at_update; [by apply Hf'|]. apply Hf.
Qed.

Lemma not_fetching k w r :
  sound w → resources w !! k = Some r → state r ≠ downloading →
  k ∉ fetcher w.
Proof.
  intros (_ & [_ Hf] & _) Hr Hs Hin. specialize (Hf k Hin).
  unfold state_at in Hf. rewrite Hr in Hf. simpl in Hf. congruence.
Qed.

(** An assignment along an edge of the graph, to a resource the
    fetcher does not hold. *)
Lemma sound_assign k s w :
  k ∉ fetcher w →
  (∀ r, resources w !! k = Some r → code_edge (state r) s = true) →
  sound w → sound (assign_state k s w).
Proof.
  intros Hk Hedge (Hn & [Hnd Hf] & He). split; [|split; [split|]].
  - intros j r. frame. rewrite lookup_alter_resource.
    case_decide; [|by apply (Hn j)].
    destruct (resources w !! j) as [r0|] eqn:E; [|done].
    simpl. intros [= <-]. simpl. by apply (Hn j).
  - by frame.
  - intros j. frame. intros Hj. rewrite state_at_assign_state.
    rewrite decide_False; [by apply Hf|]. by intros ->.
  - unfold edges_ok. rewrite assign_state_stateLog.
    apply Forall_app. split; [done|].
    destruct (resources w !! k) as [r|] eqn:E; [|constructor].
    constructor; [|constructor]. unfold on_graph. simpl. by apply Hedge.
Qed.

Lemma sound_fetch k w :
  k ∉ fetcher w → state_at k w = Some downloading →
  sound w → sound (fetch k w).
Proof.
  intros Hk Hs (Hn & [Hnd Hf] & He). split; [done|]. split; [|done].
  split; simpl.
  - apply NoDup_app. split; [done|]. split; [|apply NoDup_singleton].
    intros x Hx Hx'. apply list_elem_of_singleton in Hx'. by subst.
  - intros j Hj. apply elem_of_app in Hj as [Hj|Hj]; [by apply Hf|].
    apply list_elem_of_singleton in Hj. by subst.
Qed.

Lemma remove_task_notin k l : NoDup l → k ∉ remove_task k l.
Proof.
  induction 1 as [|x l Hx Hnd IH]; simpl; [apply not_elem_of_nil|].
  case_bool_decide; [by subst|].
  rewrite not_elem_of_cons. split; [congruence|done].
Qed.

Lemma remove_task_elem k j l : j ∈ remove_task k l → j ∈ l.
Proof.
  induction l as [|x l IH]; simpl; [done|].
  case_bool_decide; rewrite !elem_of_cons; [by right|].
  intros [?|?]; [by left|right; auto].
Qed.

Lemma remove_task_NoDup k l : NoDup l → NoDup (remove_task k l).
Proof.
  induction 1 as [|x l Hx Hnd IH]; simpl; [constructor|].
  case_bool_decide; [done|]. constructor; [|done].
  intros Hin. by apply Hx, (remove_task_elem k).
Qed.

Lemma remove_task_length k l :
  k ∈ l → S (length (remove_task k l)) = length l.
Proof.
  induction l as [|x l IH]; simpl; [by intros ?%not_elem_of_nil|].
  case_bool_decide; [done|]. rewrite elem_of_cons.
  intros [?|Hin]; [congruence|]. simpl. by rewrite IH.
Qed.

Lemma sound_remove k w :
  sound w → sound (with_fetcher (remove_task k (fetcher w)) w).
Proof.
  intros (Hn & [Hnd Hf] & He). split; [done|]. split; [|done].
  split; simpl; [by apply remove_task_NoDup|].
  intros j Hj. by apply Hf, (remove_task_elem k).
Qed.

Lemma sound_insert n w :
  resources w !! n = None →
  sound w → sound (with_resources (<[n := newResource n]>) w).
Proof.
  intros Hnone (Hn & [Hnd Hf] & He). split; [|split; [split|]]; try done.
  - intros j r. simpl. destruct (decide (n = j)) as [<-|Hne].
    + rewrite lookup_insert_eq. by intros [= <-].
    + rewrite lookup_insert_ne by done. by apply (Hn j).
  - intros j Hj. specialize (Hf j Hj). unfold state_at in *. simpl.
    rewrite lookup_insert_ne; [done|]. intros <-. by rewrite Hnone in Hf.
Qed.

Lemma sound_delete k w :
  k ∉ fetcher w → sound w → sound (with_resources (delete k) w).
Proof.
  intros Hk (Hn & [Hnd Hf] & He). split; [|split; [split|]]; try done.
  - intros j r. simpl. rewrite lookup_delete_Some. intros [_ Hr].
    by apply (Hn j).
  - intros j Hj. specialize (Hf j Hj). unfold state_at in *. simpl.
    rewrite lookup_delete_ne; [done|]. by intros <-.
Qed.

Lemma update_absent k f w : resources w !! k = None → update k f w = w.
Proof.
  intros H. destruct w. unfold update, with_resources. simpl in *.
  by rewrite alter_absent.
Qed.

Lemma fetcher_in_state k w :
  sound w → k ∈ fetcher w → state_at k w = Some downloading.
Proof. intros (_ & [_ Hf] & _). apply Hf. Qed.

Lemma not_fetching_state k w s :
  sound w → state_at k w = Some s → s ≠ downloading → k ∉ fetcher w.
Proof.
  intros Hs Hk Hne Hin. rewrite (fetcher_in_state k w Hs Hin) in Hk.
  congruence.
Qed.

Lemma state_at_lookup k w r :
  resources w !! k = Some r → state_at k w = Some (state r).
Proof. unfold state_at. by intros ->. Qed.

Section SoundFacts.

Variable load_ok : Resource → bool.
Variable internalMemory : string → list Byte.byte.
Variable convertNameToCache : string → string.

Local Abbreviation dataTickP :=
  (dataTick load_ok internalMemory convertNameToCache).
Local Abbreviation apply_eventP :=
  (apply_event load_ok internalMemory convertNameToCache).
Local Abbreviation reachableP :=
  (reachable load_ok internalMemory convertNameToCache).

Lemma loadFromInternalMemory_update k w :
  ∃ d, loadFromInternalMemory internalMemory k w
       = update k (set_contentData d) w.
Proof.
  unfold loadFromInternalMemory. destruct (resources w !! k) eqn:E.
  - by eexists.
  - exists []. by rewrite update_absent.
Qed.

Lemma loadFromCache_update k w :
  ∃ d, loadFromCache convertNameToCache k w = update k (set_contentData d) w.
Proof.
  unfold loadFromCache. destruct (resources w !! k) eqn:E.
  - by eexists.
  - exists []. by rewrite update_absent.
Qed.

(** Decoding, out of [downloaded] or straight out of [downloading]. *)
Lemma loadResource_sound k w :
  k ∉ fetcher w →
  (state_at k w = Some downloaded ∨ state_at k w = Some downloading) →
  sound w → sound (loadResource load_ok k w).
Proof.
  intros Hk Hst Hs. unfold loadResource.
  destruct (resources w !! k) as [r|] eqn:Hr; [|done].
  rewrite (state_at_lookup k w r Hr) in Hst.
  apply sound_update; [done|].
  destruct (load_ok r); apply sound_assign; try done;
    intros r' Hr'; rewrite Hr in Hr'; injection Hr' as <-;
    destruct Hst as [[= ->]|[= ->]]; reflexivity.
Qed.

Lemma dataTick_sound w : sound w → sound (dataTickP w).2.
Proof.
  intros Hs. unfold dataTick.
  set (w0 := with_invalid _ _ w).
  assert (Hs0 : sound w0) by by apply (sound_ext w).
  destruct (takeItem w0) as [k|]; [|done].
  set (w1 := with_queues _ _ _ w0).
  assert (Hs1 : sound w1) by by apply (sound_ext w0).
  destruct (resources w1 !! k) as [r|] eqn:Hr; [|done].
  pose proof (state_at_lookup k w1 r Hr) as Hst.
  destruct (state r) eqn:Es; try done; simpl.
  - (* initializing *)
    assert (Hk : k ∉ fetcher w1) by by eapply not_fetching_state.
    case_bool_decide.
    { simpl. apply sound_assign; [done| |done].
      intros r' Hr'. rewrite Hr in Hr'. injection Hr' as <-.
      by rewrite Es. }
    set (w2 := assign_state k downloading w1).
    assert (Hs2 : sound w2).
    { apply sound_assign; [done| |done].
      intros r' Hr'. rewrite Hr in Hr'. injection Hr' as <-.
      by rewrite Es. }
    assert (Hk2 : k ∉ fetcher w2) by (unfold w2; by frame).
    assert (Hst2 : state_at k w2 = Some downloading).
    { unfold w2. rewrite state_at_assign_state, decide_True by done.
      by rewrite Hst. }
    destruct (negb (contains "://" (name r))); simpl.
    { destruct (loadFromInternalMemory_update k w2) as [d ->].
      apply loadResource_sound; [done| |by apply sound_update].
      right. by rewrite state_at_update. }
    destruct (negb (contains ".json" (name r))
              && availableInCache convertNameToCache (name r) w2); simpl.
    { destruct (loadFromCache_update k w2) as [d ->].
      apply loadResource_sound; [done| |by apply sound_update].
      right. by rewrite state_at_update. }
    destruct (downloads w2 <? maxConcurrentDownloads w2); simpl.
    { apply (sound_ext (fetch k w2)); try done. by apply sound_fetch. }
    apply sound_assign; [done| |done].
    intros r' Hr'. unfold state_at in Hst2. rewrite Hr' in Hst2.
    injection Hst2 as ->. reflexivity.
  - (* downloaded *)
    apply loadResource_sound; [|by left|done].
    by eapply not_fetching_state.
Qed.

Lemma touchResource_sound k w : sound w → sound (touchResource k w).
Proof.
  intros Hs. unfold touchResource.
  destruct (resources w !! k) as [r|] eqn:Hr; [|done].
  set (w1 := update k (set_lastAccessTick (frameIndex w)) w).
  assert (Hs1 : sound w1) by by apply sound_update.
  assert (Hst : state_at k w1 = Some (state r)).
  { unfold w1. rewrite state_at_update by done.
    by apply state_at_lookup. }
  destruct (state r) eqn:Es; try done;
    try (eapply sound_ext; [| | |exact Hs1]; done).
  eapply sound_ext; [reflexivity..|].
  apply sound_assign; [by eapply not_fetching_state| |done].
  intros r' Hr'. unfold state_at in Hst. rewrite Hr' in Hst.
  injection Hst as ->. reflexivity.
Qed.

Lemma getMapResource_sound n w : sound w → sound (getMapResource n w).
Proof.
  intros Hs. unfold getMapResource. apply touchResource_sound.
  destruct (resources w !! n) eqn:E; [done|]. by apply sound_insert.
Qed.

End SoundFacts.

(** *** The completion of a fetch keeps the invariant *)

Section SoundFetch.

Variable convertNameToCache : string → string.

(** Between the blocks of [fetchedFile] the task is out of the
    fetcher's hands and the resource is [downloading] or has just been
    failed. *)
Lemma handleErrorCodes_sound k w :
  sound w → k ∉ fetcher w → state_at k w = Some downloading →
  let w' := handleErrorCodes k w in
  (sound w' ∧ (k ∉ fetcher w')
   ∧ (state_at k w' = Some downloading ∨ state_at k w' = Some errorDownload)).
Proof.
  intros Hs Hk Hst. unfold handleErrorCodes.
  destruct (resources w !! k) as [r|] eqn:Hr; [|by auto].
  destruct ((400 <=? code r) || (code r =? 0)); simpl; [|by auto].
  split; [|split].
  - apply sound_assign; [done| |done].
    intros r' Hr'. unfold state_at in Hst. rewrite Hr' in Hst.
    by injection Hst as ->.
  - by frame.
  - right. rewrite state_at_assign_state, decide_True by done.
    by rewrite Hst.
Qed.

Lemma fail_download_sound k w :
  sound w → k ∉ fetcher w → state_at k w = Some downloading →
  let w' := assign_state k errorDownload w in
  (sound w' ∧ (k ∉ fetcher w')
   ∧ (state_at k w' = Some downloading ∨ state_at k w' = Some errorDownload)).
Proof.
  intros Hs Hk Hst. split; [|split].
  - apply sound_assign; [done| |done].
    intros r' Hr'. unfold state_at in Hst. rewrite Hr' in Hst.
    by injection Hst as ->.
  - by frame.
  - right. rewrite state_at_assign_state, decide_True by done.
    by rewrite Hst.
Qed.

Lemma availabilityTests_sound k w :
  sound w → k ∉ fetcher w →
  (state_at k w = Some downloading ∨ state_at k w = Some errorDownload) →
  let w' := (availabilityTests k w).2 in
  (sound w' ∧ (k ∉ fetcher w')
   ∧ (state_at k w' = Some downloading ∨ state_at k w' = Some errorDownload)).
Proof.
  intros Hs Hk Hst. unfold availabilityTests.
  destruct (resources w !! k) as [r|] eqn:Hr; [|by auto].
  pose proof (state_at_lookup k w r Hr) as Hst'.
  destruct (state r) eqn:Es; try by auto.
  destruct (availTest r) as [a|]; [|by auto].
  destruct (avail_type a); simpl.
  - destruct (String.eqb _ _); simpl; [|by auto].
    by apply fail_download_sound.
  - case_bool_decide; simpl; [by auto|]. by apply fail_download_sound.
  - destruct (_ <=? _); simpl; [|by auto]. by apply fail_download_sound.
Qed.

Lemma handleRedirections_sound k w :
  sound w → k ∉ fetcher w →
  (state_at k w = Some downloading ∨ state_at k w = Some errorDownload) →
  let w' := (handleRedirections k w).2 in
  (sound w'
   ∧ ((handleRedirections k w).1 = false →
      (k ∉ fetcher w')
      ∧ (state_at k w' = Some downloading
         ∨ state_at k w' = Some errorDownload))).
Proof.
  intros Hs Hk Hst. unfold handleRedirections.
  destruct (resources w !! k) as [r|] eqn:Hr; [|by auto].
  pose proof (state_at_lookup k w r Hr) as Hst'.
  destruct (state r) eqn:Es; try by auto.
  destruct (isRedirect (code r)); [|by auto].
  set (w1 := update k (set_redirectionsCount _) w).
  assert (Hs1 : sound w1) by by apply sound_update.
  assert (Hst1 : state_at k w1 = Some downloading).
  { unfold w1. by rewrite state_at_update. }
  destruct (5 <? redirectionsCount r); simpl.
  - destruct (fail_download_sound k w1) as (? & ? & ?); [done..|].
    by auto.
  - split; [|done]. apply sound_fetch; [done| |by apply sound_update].
    by rewrite state_at_update.
Qed.

Lemma saveToCache_same k w :
  resources (saveToCache convertNameToCache k w) = resources w
  ∧ fetcher (saveToCache convertNameToCache k w) = fetcher w
  ∧ stateLog (saveToCache convertNameToCache k w) = stateLog w.
Proof. unfold saveToCache. by destruct (resources w !! k). Qed.

Lemma finishFetch_sound k w :
  sound w → k ∉ fetcher w →
  (state_at k w = Some downloading ∨ state_at k w = Some errorDownload) →
  sound (finishFetch convertNameToCache k w).
Proof.
  intros Hs Hk Hst. unfold finishFetch.
  assert (Hs1 : sound (with_downloads (wrap32 (downloads w - 1)) w))
    by by apply (sound_ext w).
  simpl. destruct (resources w !! k) as [r|] eqn:Hr; [|done].
  pose proof (state_at_lookup k w r Hr) as Hst'.
  rewrite Hst' in Hst.
  destruct (saveToCache_same k (with_downloads (wrap32 (downloads w - 1)) w))
    as (Ec1 & Ec2 & Ec3).
  destruct Hst as [[= Es]|[= Es]]; rewrite Es.
  - apply sound_assign.
    + by rewrite Ec2.
    + intros r'. rewrite Ec1. simpl. rewrite Hr.
      intros [= <-]. by rewrite Es.
    + by eapply sound_ext; [..|exact Hs1].
  - eapply sound_ext; [reflexivity..|]. by apply sound_update.
Qed.

Lemma complete_sound k p w :
  sound w → k ∈ fetcher w →
  sound (complete convertNameToCache k p w).2.
Proof.
  intros Hs Hin. unfold complete.
  pose proof (fetcher_in_state k w Hs Hin) as Hst.
  set (w0 := with_fetcher _ w).
  assert (Hs0 : sound w0) by by apply sound_remove.
  assert (Hk0 : k ∉ fetcher w0).
  { simpl. apply remove_task_notin. by destruct Hs as (_ & [? _] & _). }
  set (w1 := update k (set_reply p) w0).
  assert (Hs1 : sound w1) by by apply sound_update.
  assert (Hst1 : state_at k w1 = Some downloading).
  { unfold w1. by rewrite state_at_update. }
  unfold fetchedFile.
  destruct (handleErrorCodes_sound k w1) as (Hs2 & Hk2 & Hst2); [done..|].
  destruct (availabilityTests_sound k (handleErrorCodes k w1))
    as (Hs3 & Hk3 & Hst3); [done..|].
  destruct (availabilityTests k (handleErrorCodes k w1)) as [[|e] w3];
    simpl in *; [|done].
  destruct (handleRedirections_sound k w3) as (Hs4 & H4); [done..|].
  destruct (handleRedirections k w3) as [[|] w4]; simpl in *; [done|].
  destruct H4 as [Hk4 Hst4]; [done|]. by apply finishFetch_sound.
Qed.

End SoundFetch.

(** *** The eviction pass keeps the invariant *)

Lemma evictWalk_sound res memUse w :
  NoDup res.*1 →
  (∀ kit, kit ∈ res →
     resources w !! kit.1 = Some kit.2 ∧ state kit.2 ≠ downloading) →
  sound w → sound (evictWalk res memUse w).
Proof.
  revert memUse w. induction res as [|kit res IH]; intros memUse w Hnd Hres Hs;
    simpl; [done|].
  destruct (memUse <=? maxResourcesMemory w); [done|].
  destruct (Hres kit) as [Hk Hst]; [left|].
  assert (Hname : name kit.2 = kit.1).
  { destruct Hs as (Hn & _). exact (Hn _ _ Hk). }
  assert (Hfetch : kit.1 ∉ fetcher w) by by eapply not_fetching.
  simpl in Hnd. apply NoDup_cons in Hnd as [Hfresh Hnd].
  apply IH; [done| |].
  - intros kit' Hin. destruct (Hres kit') as [Hk' Hst']; [by right|].
    split; [|done]. rewrite evictVisit_other; [done..|].
    intros Heq. apply Hfresh. rewrite <- Heq.
    apply list_elem_of_fmap. by exists kit'.
  - unfold evictVisit. case_bool_decide as Hf.
    + rewrite Hname. by apply sound_delete.
    + apply sound_assign; [done| |done].
      intros r Hr. rewrite Hk in Hr. injection Hr as <-.
      by destruct (state kit.2).
Qed.

Lemma dataRenderTick_sound w : sound w → sound (dataRenderTick w).
Proof.
  intros Hs. unfold dataRenderTick. fold (swapQueues w).
  assert (Hs0 : sound (swapQueues w)) by by apply (sound_ext w).
  rewrite clearOldResources_walk by by destruct Hs0.
  simpl. destruct (_ <? _); [|done].
  apply evictWalk_sound; [apply sorted_candidates_NoDup| |done].
  intros kit Hin. apply sorted_candidates_elem, collectOld_elem in Hin.
  destruct Hin as [Hk Hl]. split; [done|].
  apply longUnused_true in Hl. tauto.
Qed.

(** ** Every assignment lies on the graph of the code *)

Section Graph.

Variable load_ok : Resource → bool.
Variable internalMemory : string → list Byte.byte.
Variable convertNameToCache : string → string.

Local Abbreviation apply_eventP :=
  (apply_event load_ok internalMemory convertNameToCache).
Local Abbreviation reachableP :=
  (reachable load_ok internalMemory convertNameToCache).

Lemma apply_event_sound e w : sound w → sound (apply_eventP e w).
Proof.
  intros Hs. destruct e; simpl.
  - by apply getMapResource_sound.
  - by apply touchResource_sound.
  - by apply dataTick_sound.
  - case_bool_decide; [by apply complete_sound|done].
  - by apply dataRenderTick_sound.
  - by apply (sound_ext w).
  - by apply sound_update.
Qed.

Lemma initial_sound maxDownloads maxMemory :
  sound (initial maxDownloads maxMemory).
Proof.
  split; [|split; [split|]].
  - intros j r. simpl. by rewrite lookup_empty.
  - constructor.
  - intros j Hj. by apply not_elem_of_nil in Hj.
  - constructor.
Qed.

Lemma reachable_sound w : reachableP w → sound w.
Proof.
  induction 1; [apply initial_sound|by apply apply_event_sound].
Qed.

(** C1, amended: in every pipeline that events lead to, each
    assignment to a state field made so far follows an edge of section
    4.3 or one of five further edges: [downloading] to [ready],
    [downloading] to [errorLoad], [downloading] to [initializing],
    [initializing] to [finalizing], [downloaded] to [finalizing]. *)
Theorem C1_state_changes_on_code_graph (w : MapImpl) :
  reachableP w →
  Forall (λ e : StateWrite,
            spec_edge e.1.2 e.2 = true ∨ extra_edge e.1.2 e.2 = true)
    (stateLog w).
Proof.
  intros Hr. destruct (reachable_sound w Hr) as (_ & _ & He).
  eapply Forall_impl; [exact He|].
  intros e. unfold on_graph, code_edge. by rewrite orb_true_iff.
Qed.

End Graph.

(** ** The download limit *)

Lemma limits_assign_state k s w : limits (assign_state k s w) = limits w.
Proof. unfold limits. by frame. Qed.

Lemma within_limit_ext w w' :
  limits w' = limits w → within_limit w → within_limit w'.
Proof. unfold limits, within_limit. by intros [= -> -> ->]. Qed.

Section LimitFacts.

Variable load_ok : Resource → bool.
Variable internalMemory : string → list Byte.byte.
Variable convertNameToCache : string → string.

Local Abbreviation dataTickP :=
  (dataTick load_ok internalMemory convertNameToCache).
Local Abbreviation apply_eventP :=
  (apply_event load_ok internalMemory convertNameToCache).
Local Abbreviation reachableP :=
  (reachable load_ok internalMemory convertNameToCache).

Lemma limits_loadResource k w : limits (loadResource load_ok k w) = limits w.
Proof.
  unfold loadResource. destruct (resources w !! k); [|done].
  destruct (load_ok _); unfold limits; by frame.
Qed.

Lemma limits_loadFromInternalMemory k w :
  limits (loadFromInternalMemory internalMemory k w) = limits w.
Proof. unfold loadFromInternalMemory. by destruct (resources w !! k). Qed.

Lemma limits_loadFromCache k w :
  limits (loadFromCache convertNameToCache k w) = limits w.
Proof. unfold loadFromCache. by destruct (resources w !! k). Qed.

Lemma limits_saveToCache k w :
  limits (saveToCache convertNameToCache k w) = limits w.
Proof. unfold saveToCache. by destruct (resources w !! k). Qed.

(** [dataTick] leaves the limit alone or hands one more task to the
    fetcher, the latter only below the limit. *)
Lemma dataTick_limits w :
  limits (dataTickP w).2 = limits w
  ∨ ∃ k, downloads w < maxConcurrentDownloads w
         ∧ limits (dataTickP w).2
           = (fetcher w ++ [k], wrap32 (downloads w + 1),
              maxConcurrentDownloads w).
Proof.
  unfold dataTick. destruct (takeItem _) as [k|]; [|by left]. simpl.
  destruct (resources w !! k) as [r|]; [|by left].
  destruct (state r); try by left.
  - case_bool_decide; simpl; [left; by rewrite limits_assign_state|].
    destruct (negb (contains "://" (name r))); simpl.
    { left. by rewrite limits_loadResource, limits_loadFromInternalMemory,
                       limits_assign_state. }
    destruct (negb (contains ".json" (name r)) && _); simpl.
    { left. by rewrite limits_loadResource, limits_loadFromCache,
                       limits_assign_state. }
    rewrite assign_state_downloads, assign_state_maxDownloads. simpl.
    destruct (downloads w <? maxConcurrentDownloads w) eqn:E; simpl.
    + right. exists k. apply Z.ltb_lt in E. split; [done|].
      unfold limits. by frame.
    + left. by rewrite !limits_assign_state.
  - left. simpl. by rewrite limits_loadResource.
Qed.

Lemma dataTick_within_limit w :
  within_limit w → within_limit (dataTickP w).2.
Proof.
  intros (H1 & H2 & H3).
  destruct (dataTick_limits w) as [E|(k & Hlt & E)].
  - by apply (within_limit_ext w).
  - unfold within_limit. injection E as -> -> ->.
    rewrite length_app. simpl. rewrite wrap32_small by lia. lia.
Qed.

Lemma limits_handleErrorCodes k w : limits (handleErrorCodes k w) = limits w.
Proof.
  unfold handleErrorCodes. destruct (resources w !! k); [|done].
  destruct (_ || _); [apply limits_assign_state|done].
Qed.

Lemma limits_availabilityTests k w :
  limits (availabilityTests k w).2 = limits w.
Proof.
  unfold availabilityTests. repeat case_match; simpl;
    by rewrite ?limits_assign_state.
Qed.

Lemma limits_handleRedirections k w :
  limits (handleRedirections k w).2
  = if (handleRedirections k w).1
    then (fetcher w ++ [k], downloads w, maxConcurrentDownloads w)
    else limits w.
Proof.
  unfold handleRedirections. repeat case_match; simpl; try done.
  by rewrite limits_assign_state.
Qed.

Lemma limits_finishFetch k w :
  limits (finishFetch convertNameToCache k w)
  = (fetcher w, wrap32 (downloads w - 1), maxConcurrentDownloads w).
Proof.
  unfold finishFetch. simpl. destruct (resources w !! k); [|done].
  destruct (state _); try done;
    by rewrite limits_assign_state, limits_saveToCache.
Qed.

Lemma complete_within_limit k p w :
  k ∈ fetcher w → within_limit w →
  within_limit (complete convertNameToCache k p w).2.
Proof.
  intros Hin (H1 & H2 & H3). pose proof (remove_task_length k _ Hin) as Hl.
  unfold complete, fetchedFile.
  set (w1 := update k (set_reply p) _).
  assert (E1 : limits w1 = (remove_task k (fetcher w), downloads w,
                            maxConcurrentDownloads w)) by done.
  pose proof (limits_handleErrorCodes k w1) as E2.
  pose proof (limits_availabilityTests k (handleErrorCodes k w1)) as E3.
  destruct (availabilityTests k (handleErrorCodes k w1)) as [[|e] w3];
    simpl in *.
  - rewrite E2, E1 in E3. injection E3 as Ef Ed Em.
    pose proof (limits_handleRedirections k w3) as E4.
    destruct (handleRedirections k w3) as [[|] w4]; simpl in *.
    + injection E4 as Ef4 Ed4 Em4. unfold within_limit.
      rewrite Ef4, Ed4, Em4, Ef, Ed, Em, length_app. simpl. lia.
    + pose proof (limits_finishFetch k w4) as E5.
      injection E4 as Ef4 Ed4 Em4. injection E5 as Ef5 Ed5 Em5.
      unfold within_limit.
      rewrite Ef5, Ed5, Em5, Ef4, Ed4, Em4, Ef, Ed, Em.
      rewrite wrap32_small by lia. lia.
  - rewrite E2, E1 in E3. injection E3 as Ef Ed Em. unfold within_limit.
    rewrite Ef, Ed, Em. lia.
Qed.

Lemma limits_touchResource k w : limits (touchResource k w) = limits w.
Proof.
  unfold touchResource. destruct (resources w !! k); [|done].
  destruct (state _); try done. simpl.
  unfold limits. simpl. by frame.
Qed.

Lemma limits_evictLoop res memUse w :
  limits (evictLoop res memUse w) = limits w.
Proof.
  revert memUse w. induction res as [|k res IH]; intros memUse w; simpl;
    [done|].
  destruct (_ <=? _); [done|]. destruct (resources w !! k); [|done].
  rewrite IH. unfold evictVisit.
  case_bool_decide; [done|apply limits_assign_state].
Qed.

Lemma limits_dataRenderTick w : limits (dataRenderTick w) = limits w.
Proof.
  unfold dataRenderTick, clearOldResources. destruct (_ <? _); [|done].
  by rewrite limits_evictLoop.
Qed.

Lemma apply_event_within_limit e w :
  within_limit w → within_limit (apply_eventP e w).
Proof.
  intros Hl. destruct e; simpl.
  - apply (within_limit_ext w); [|done]. unfold getMapResource.
    rewrite limits_touchResource. by destruct (resources w !! n).
  - apply (within_limit_ext w); [|done]. apply limits_touchResource.
  - by apply dataTick_within_limit.
  - case_bool_decide; [by apply complete_within_limit|done].
  - apply (within_limit_ext w); [|done]. apply limits_dataRenderTick.
  - by apply (within_limit_ext w).
  - by apply (within_limit_ext w).
Qed.

Lemma reachable_within_limit w : reachableP w → within_limit w.
Proof.
  induction 1 as [maxD maxM Hmax|w e Hr IH].
  - unfold within_limit. simpl. lia.
  - by apply apply_event_within_limit.
Qed.

Lemma reachable_run es w :
  reachableP w → reachableP (run load_ok internalMemory convertNameToCache es w).
Proof.
  revert w. induction es as [|e es IH]; intros w Hr; simpl; [done|].
  apply IH. by constructor.
Qed.

End LimitFacts.

Lemma evictLoop_prepareQue res memUse w :
  prepareQue (evictLoop res memUse w) = prepareQue w.
Proof.
  revert memUse w. induction res as [|k res IH]; intros memUse w; simpl;
    [done|].
  destruct (_ <=? _); [done|]. destruct (resources w !! k); [|done].
  rewrite IH. unfold evictVisit.
  case_bool_decide; by frame.
Qed.

Lemma dataRenderTick_prepareQue w :
  prepareQue (dataRenderTick w) = prepareQueNew w.
Proof.
  unfold dataRenderTick, clearOldResources. destruct (_ <? _); [|done].
  by rewrite evictLoop_prepareQue.
Qed.

Section DownloadLimit.

Variable load_ok : Resource → bool.
Variable internalMemory : string → list Byte.byte.
Variable convertNameToCache : string → string.

Local Abbreviation dataTickP :=
  (dataTick load_ok internalMemory convertNameToCache).
Local Abbreviation reachableP :=
  (reachable load_ok internalMemory convertNameToCache).

(** A resource whose turn comes with the limit reached. *)
Lemma dataTick_limit_reached w k r :
  takeItem w = Some k →
  resources w !! k = Some r →
  state r = initializing →
  name r ∉ invalidUrl w ∪ invalidUrlNew w →
  contains "://" (name r) = true →
  negb (contains ".json" (name r))
  && availableInCache convertNameToCache (name r) w = false →
  maxConcurrentDownloads w ≤ downloads w →
  (dataTickP w).1 = true
  ∧ state_at k (dataTickP w).2 = Some initializing
  ∧ limits (dataTickP w).2 = limits w
  ∧ k ∈ prepareQue (dataRenderTick (touchResource k (dataTickP w).2)).
Proof.
  intros Htake Hr Hs Hbl Hurl Hcache Hmax. unfold dataTick.
  change (takeItem (with_invalid (invalidUrl w ∪ invalidUrlNew w) ∅ w))
    with (takeItem w).
  rewrite Htake. simpl. rewrite Hr, Hs.
  rewrite bool_decide_false by done. rewrite Hurl. simpl.
  unfold availableInCache in *. rewrite assign_state_cache. simpl.
  rewrite Hcache.
  rewrite assign_state_downloads, assign_state_maxDownloads. simpl.
  rewrite (proj2 (Z.ltb_ge _ _)) by done. simpl.
  assert (Hst : ∀ w', resources w' = resources w →
            state_at k (assign_state k initializing
                          (assign_state k downloading w'))
            = Some initializing).
  { intros w' Hw'. rewrite !state_at_assign_state, !decide_True by done.
    unfold state_at. by rewrite Hw', Hr. }
  split; [done|]. split; [apply Hst; reflexivity|].
  split; [rewrite !limits_assign_state; reflexivity|].
  rewrite dataRenderTick_prepareQue. unfold touchResource.
  set (w2 := assign_state k initializing _).
  assert (Hst2 : state_at k w2 = Some initializing)
    by (apply Hst; reflexivity).
  unfold state_at in Hst2.
  destruct (resources w2 !! k) as [r2|]; simpl in Hst2; [|done].
  injection Hst2 as ->. simpl. set_solver.
Qed.

(** C6: in every pipeline that events lead to, the tasks with the
    fetcher are distinct, each belongs to a [downloading] resource, and
    there are at most [maxConcurrentDownloads] of them.  A resource
    whose turn comes while the counter has reached the limit is
    [initializing] after the tick, which reports that nothing was
    started, and the next touch puts it back into the queue.  With 20
    tiles asked for and a limit of 10, twenty ticks leave 10 resources
    [downloading] and 10 [initializing]; this is still so a frame
    later, and once one download has completed another resource
    enters [downloading]. *)
Theorem C6_download_limit :
  (∀ w, reachableP w →
     NoDup (fetcher w)
     ∧ (∀ k, k ∈ fetcher w → state_at k w = Some downloading)
     ∧ Z.of_nat (length (fetcher w)) ≤ maxConcurrentDownloads w)
  ∧ (∀ w k r,
       takeItem w = Some k →
       resources w !! k = Some r →
       state r = initializing →
       name r ∉ invalidUrl w ∪ invalidUrlNew w →
       contains "://" (name r) = true →
       negb (contains ".json" (name r))
       && availableInCache convertNameToCache (name r) w = false →
       maxConcurrentDownloads w ≤ downloads w →
       (dataTickP w).1 = true
       ∧ state_at k (dataTickP w).2 = Some initializing
       ∧ limits (dataTickP w).2 = limits w
       ∧ k ∈ prepareQue (dataRenderTick (touchResource k (dataTickP w).2)))
  ∧ (let started := play (repeat EvDataTick 20) (requested 20 10) in
     let later := nextFrame 20 started in
     let freed := nextFrame 20
                    (completeFirst (okReply 200 "image/jpeg" 3) later) in
     (countState downloading started = 10%nat
      ∧ countState initializing started = 10%nat
      ∧ length (fetcher started) = 10%nat)
     ∧ (countState downloading later = 10%nat
        ∧ countState initializing later = 10%nat)
     ∧ (countState downloading freed = 10%nat
        ∧ countState initializing freed = 9%nat
        ∧ countState ready freed = 1%nat)).
Proof.
  split; [|split].
  - intros w Hr.
    destruct (reachable_sound _ _ _ w Hr) as (_ & [Hnd Hf] & _).
    destruct (reachable_within_limit _ _ _ w Hr) as (H1 & H2 & _).
    split; [done|]. split; [done|lia].
  - apply dataTick_limit_reached.
  - vm_compute. repeat split.
Qed.

End DownloadLimit.

(** The first part at the pipeline of the scenario: ten tasks are with
    the fetcher and the limit is ten. *)
Lemma C6_download_limit_witness :
  let w := play (repeat EvDataTick 20) (requested 20 10) in
  Z.of_nat (length (fetcher w)) ≤ maxConcurrentDownloads w.
Proof.
  intros w.
  destruct (C6_download_limit (λ _, true) (λ _, []) id) as [H _].
  apply H. unfold w, play, requested, play.
  repeat apply reachable_run. constructor. lia.
Defined.

(** The amended C1 at the pipeline of the scenario. *)
Lemma C1_state_changes_witness :
  let w := play (repeat EvDataTick 20) (requested 20 10) in
  Forall (λ e : StateWrite,
            spec_edge e.1.2 e.2 = true ∨ extra_edge e.1.2 e.2 = true)
    (stateLog w).
Proof.
  intros w.
  apply (C1_state_changes_on_code_graph (λ _, true) (λ _, []) id).
  unfold w, play, requested, play.
  repeat apply reachable_run. constructor. lia.
Defined.

(** C1 as stated fails.  With a download limit of 1 and two tiles asked
    for, the tile whose turn comes second is set to [downloading] and
    back to [initializing]; a resource whose name has no "://" is
    decoded out of [downloading] and never is [downloaded]. *)
Lemma C1_counterexample :
  let blocked :=
    play [EvGet "http://t/0"; EvGet "http://t/1"; EvRenderTick;
          EvDataTick; EvDataTick] (initial 1 (512 * 1024 * 1024)) in
  let builtin :=
    play [EvGet "data/meshes/sphere.obj"; EvRenderTick; EvDataTick]
      (initial 10 (512 * 1024 * 1024)) in
  (stateLog blocked
   = [("http://t/1", initializing, downloading);
      ("http://t/0", initializing, downloading);
      ("http://t/0", downloading, initializing)]
   ∧ ¬ Forall (on_graph spec_edge) (stateLog blocked))
  ∧ (stateLog builtin
     = [("data/meshes/sphere.obj", initializing, downloading);
        ("data/meshes/sphere.obj", downloading, ready)]
     ∧ ¬ Forall (on_graph spec_edge) (stateLog builtin)).
Proof.
  intros blocked builtin.
  assert (Hb : stateLog blocked
               = [("http://t/1", initializing, downloading);
                  ("http://t/0", initializing, downloading);
                  ("http://t/0", downloading, initializing)])
    by reflexivity.
  assert (Hi : stateLog builtin
               = [("data/meshes/sphere.obj", initializing, downloading);
                  ("data/meshes/sphere.obj", downloading, ready)])
    by reflexivity.
  split; (split; [done|]).
  - rewrite Hb. intros H. do 2 apply Forall_cons in H as [_ H].
    apply Forall_cons in H as [H _]. by unfold on_graph in H.
  - rewrite Hi. intros H. apply Forall_cons in H as [_ H].
    apply Forall_cons in H as [H _]. by unfold on_graph in H.
Qed.

(** * Further properties of the resource manager *)

(** ** Names of cache files *)

Lemma convertChar_pathChar b c : pathChar b (convertChar b c) = true.
Proof.
  unfold convertChar, pathChar. destruct (keptChar c) eqn:E.
  - by rewrite E.
  - destruct b; simpl; [|done].
    by destruct (Ascii.eqb c "/" || Ascii.eqb c "\").
Qed.

Lemma convertChar_cases b c :
  (keptChar c = true ∧ convertChar b c = c)
  ∨ (b = true ∧ convertChar b c = "/"%char)
  ∨ convertChar b c = "_"%char.
Proof.
  unfold convertChar. destruct (keptChar c); [by left|].
  destruct b; simpl; [|by right; right].
  destruct (Ascii.eqb c "/" || Ascii.eqb c "\"); [by right; left|].
  by right; right.
Qed.

Lemma convertChar_again b c :
  convertChar b (convertChar b c) = convertChar b c.
Proof.
  destruct (convertChar_cases b c) as [[Hk ->]|[[-> ->]| ->]].
  - unfold convertChar. by rewrite Hk.
  - reflexivity.
  - by destruct b.
Qed.

Lemma mapString_length f s : String.length (mapString f s) = String.length s.
Proof. induction s; simpl; congruence. Qed.

Lemma get_mapString f i s :
  String.get i (mapString f s) = f <$> String.get i s.
Proof.
  revert i. induction s as [|c s IH]; intros i; simpl; [done|].
  destruct i; [done|]. apply IH.
Qed.

(** The loop's case distinction on the character code. *)
Lemma convertChar_code b c :
  convertChar b c
  = let n := nat_of_ascii c in
    if ((97 <=? n) && (n <=? 122) || (65 <=? n) && (n <=? 90)
        || (48 <=? n) && (n <=? 57) || (n =? 45) || (n =? 46))%nat
    then c
    else if b && ((n =? 47) || (n =? 92))%nat then "/"%char
    else "_"%char.
Proof.
  destruct b; destruct c as [[] [] [] [] [] [] [] []]; reflexivity.
Qed.

Section CachePathFacts.

Variable normalize : string → string.

(** X1: [convertNameToPath] goes through the normalized path character
    by character.  A letter, a digit, a dash or a dot is taken over;
    with [preserveSlashes] a slash stays and a backslash becomes a
    slash; every other character becomes an underscore.  So the result
    is as long as the normalized path and holds nothing but letters,
    digits, dashes, dots and underscores (and slashes when they are
    preserved); and when normalizing leaves the result as it is,
    converting it again changes nothing. *)
Theorem convertNameToPath_sanitized (path : string) (preserveSlashes : bool) :
  let src := normalize path in
  let res := convertNameToPath normalize path preserveSlashes in
  String.length res = String.length src
  ∧ (∀ i c, String.get i src = Some c →
       String.get i res
       = Some (let n := nat_of_ascii c in
               if ((97 <=? n) && (n <=? 122) || (65 <=? n) && (n <=? 90)
                   || (48 <=? n) && (n <=? 57) || (n =? 45) || (n =? 46))%nat
               then c
               else if preserveSlashes && ((n =? 47) || (n =? 92))%nat
               then "/"%char
               else "_"%char))
  ∧ allChars (pathChar preserveSlashes) res = true
  ∧ (normalize res = res →
     convertNameToPath normalize res preserveSlashes = res).
Proof.
  simpl. unfold convertNameToPath.
  split; [apply mapString_length|]. split.
  { intros i c Hc. rewrite get_mapString, Hc. simpl.
    by rewrite convertChar_code. }
  assert (H : allChars (pathChar preserveSlashes)
                (mapString (convertChar preserveSlashes) (normalize path))
              = true
              ∧ mapString (convertChar preserveSlashes)
                  (mapString (convertChar preserveSlashes) (normalize path))
                = mapString (convertChar preserveSlashes) (normalize path)).
  { induction (normalize path) as [|c s [IH1 IH2]]; simpl; [done|].
    rewrite convertChar_pathChar, convertChar_again, IH1, IH2. done. }
  destruct H as [H1 H2]. split; [done|].
  intros Hn. rewrite Hn. exact H2.
Qed.

End CachePathFacts.

(** With a normalization that changes nothing: the path of a tile with
    and without its slashes, and the result converted once more. *)
Lemma convertNameToPath_witness :
  convertNameToPath id "cdn.x/Tiles\12-3 4.jpg?v=1" true
  = "cdn.x/Tiles/12-3_4.jpg_v_1"
  ∧ convertNameToPath id "cdn.x/Tiles\12-3 4.jpg?v=1" false
    = "cdn.x_Tiles_12-3_4.jpg_v_1"
  ∧ convertNameToPath id "cdn.x/Tiles/12-3_4.jpg_v_1" true
    = "cdn.x/Tiles/12-3_4.jpg_v_1".
Proof.
  split; [reflexivity|]. split; [reflexivity|].
  destruct (convertNameToPath_sanitized id "cdn.x/Tiles\12-3 4.jpg?v=1" true)
    as (_ & _ & _ & H).
  apply H. reflexivity.
Defined.

(** ** The cache directory and the stored blacklist *)

Lemma back_app_slash s : back (s +:+ "/") = Some "/"%char.
Proof.
  induction s as [|c s IH]; [done|]. simpl in *.
  destruct s; [done|]. exact IH.
Qed.

(** X2: the constructor throws exactly when neither a cache path nor a
    home directory is given; otherwise the cache path ends with a
    slash, and a given path that ends with a slash is taken as it
    is. *)
Theorem Resources_cachePath_slash (cachePathVal homeDir : string) :
  (Resources_cachePath cachePathVal homeDir = None
   ↔ cachePathVal = "" ∧ homeDir = "")
  ∧ (∀ p, Resources_cachePath cachePathVal homeDir = Some p →
       back p = Some "/"%char
       ∧ (cachePathVal ≠ "" →
          p = cachePathVal ∨ p = cachePathVal +:+ "/")
       ∧ (back cachePathVal = Some "/"%char → p = cachePathVal)).
Proof.
  unfold Resources_cachePath. split.
  - case_bool_decide as Hc; [case_bool_decide as Hh|].
    + by split.
    + split; [done|]. by intros [_ ?].
    + split; [done|]. by intros [? _].
  - intros p. case_bool_decide as Hc.
    + case_bool_decide as Hh; [done|]. subst cachePathVal.
      case_bool_decide as Hb; intros [= <-]; (split; [|done]).
      * done.
      * apply back_app_slash.
    + case_bool_decide as Hb; intros [= <-].
      * split; [done|]. split; [by left|done].
      * split; [apply back_app_slash|]. split; [by right|done].
Qed.

Lemma readLines_line line rest :
  oneLine line →
  readLines (line +:+ String newline rest) = line :: readLines rest.
Proof.
  unfold oneLine. induction line as [|c line IH]; simpl; [done|].
  intros [Hc Hl]%andb_true_iff. apply negb_true_iff in Hc. rewrite Hc.
  by rewrite IH.
Qed.

Lemma readLines_writeLines lines :
  Forall oneLine lines → readLines (writeLines lines) = lines ++ [""].
Proof.
  induction 1 as [|line lines Hl _ IH]; simpl; [done|].
  by rewrite readLines_line, IH.
Qed.

(** X3: a blacklist written by the destructor and read back by the
    constructor holds the names it held, and the empty name in
    addition: the loop inserts the empty line it reads at the end of
    the file. *)
Theorem invalidUrl_roundtrip (invalidUrl : gset string) :
  (∀ n, n ∈ invalidUrl → oneLine n) →
  loadInvalidUrl true (Some (saveInvalidUrl invalidUrl))
  = invalidUrl ∪ {[""]}.
Proof.
  intros Hlines. unfold loadInvalidUrl, saveInvalidUrl.
  rewrite readLines_writeLines.
  - rewrite list_to_set_app_L, list_to_set_elements_L. simpl.
    set_solver.
  - apply Forall_forall. intros n Hn. apply Hlines.
    by apply elem_of_elements.
Qed.

Lemma invalidUrl_roundtrip_witness :
  loadInvalidUrl true (Some (saveInvalidUrl {["http://t/0"; "http://t/1"]}))
  = {["http://t/0"; "http://t/1"]} ∪ {[""]}.
Proof.
  apply invalidUrl_roundtrip. intros n Hn.
  apply elem_of_union in Hn as [Hn|Hn]; apply elem_of_singleton in Hn;
    subst; reflexivity.
Defined.

(** ** Asking for a resource *)



(** ** Which entries an operation writes to *)

Lemma same_elsewhere_refl k m : same_elsewhere k m m.
Proof. by intros j _. Qed.

Lemma same_elsewhere_trans k m1 m2 m3 :
  same_elsewhere k m1 m2 → same_elsewhere k m2 m3 → same_elsewhere k m1 m3.
Proof. intros H1 H2 j Hj. rewrite H2, H1; done. Qed.

Lemma same_elsewhere_alter f k m : same_elsewhere k m (alter f k m).
Proof. intros j Hj. by rewrite lookup_alter_ne. Qed.

Lemma same_elsewhere_update k f w :
  same_elsewhere k (resources w) (resources (update k f w)).
Proof. apply same_elsewhere_alter. Qed.

Lemma same_elsewhere_assign k s w :
  same_elsewhere k (resources w) (resources (assign_state k s w)).
Proof. rewrite assign_state_resources. apply same_elsewhere_alter. Qed.

Ltac elsewhere_chain :=
  repeat first
    [ apply same_elsewhere_refl
    | apply same_elsewhere_alter
    | apply same_elsewhere_update
    | apply same_elsewhere_assign
    | eapply same_elsewhere_trans; [|apply same_elsewhere_alter]
    | eapply same_elsewhere_trans; [|apply same_elsewhere_update]
    | eapply same_elsewhere_trans; [|apply same_elsewhere_assign] ].

Section ElsewhereFacts.

Variable load_ok : Resource → bool.
Variable internalMemory : string → list Byte.byte.
Variable convertNameToCache : string → string.
Local Abbreviation dataTickE :=
  (dataTick load_ok internalMemory convertNameToCache).
Local Abbreviation completeE := (complete convertNameToCache).

#[local] Hint Rewrite (loadFromCache_resources convertNameToCache)
  (loadFromInternalMemory_resources internalMemory)
  (saveToCache_resources convertNameToCache)
  (loadResource_resources load_ok) : frame.

Lemma loadResource_elsewhere k w :
  same_elsewhere k (resources w) (resources (loadResource load_ok k w)).
Proof.
  rewrite loadResource_resources. repeat case_match; elsewhere_chain.
Qed.

Lemma dataTick_elsewhere w k :
  takeItem (with_invalid (invalidUrl w ∪ invalidUrlNew w) ∅ w) = Some k →
  same_elsewhere k (resources w) (resources (dataTickE w).2).
Proof.
  intros Hk. unfold dataTick. rewrite Hk. cbn zeta.
  repeat case_match; frame; elsewhere_chain.
Qed.

Lemma dataTick_idle w :
  takeItem (with_invalid (invalidUrl w ∪ invalidUrlNew w) ∅ w) = None →
  dataTickE w = (true, with_invalid (invalidUrl w ∪ invalidUrlNew w) ∅ w).
Proof. intros Hk. unfold dataTick. by rewrite Hk. Qed.

Lemma handleErrorCodes_elsewhere k w :
  same_elsewhere k (resources w) (resources (handleErrorCodes k w)).
Proof. unfold handleErrorCodes. repeat case_match; frame; elsewhere_chain. Qed.

Lemma availabilityTests_elsewhere k w :
  same_elsewhere k (resources w) (resources (availabilityTests k w).2).
Proof. unfold availabilityTests. repeat case_match; frame; elsewhere_chain. Qed.

Lemma handleRedirections_elsewhere k w :
  same_elsewhere k (resources w) (resources (handleRedirections k w).2).
Proof.
  unfold handleRedirections. repeat case_match; frame; elsewhere_chain.
Qed.

Lemma finishFetch_elsewhere k w :
  same_elsewhere k (resources w)
    (resources (finishFetch convertNameToCache k w)).
Proof. unfold finishFetch. repeat case_match; frame; elsewhere_chain. Qed.

Lemma fetchedFile_elsewhere k w :
  same_elsewhere k (resources w)
    (resources (fetchedFile convertNameToCache k w).2).
Proof.
  unfold fetchedFile.
  pose proof (handleErrorCodes_elsewhere k w) as H1.
  pose proof (availabilityTests_elsewhere k (handleErrorCodes k w)) as H2.
  destruct (availabilityTests k (handleErrorCodes k w)) as [[|e] w2];
    simpl in *.
  - pose proof (handleRedirections_elsewhere k w2) as H3.
    destruct (handleRedirections k w2) as [[|] w3]; simpl in *.
    + eauto using same_elsewhere_trans.
    + pose proof (finishFetch_elsewhere k w3).
      eauto using same_elsewhere_trans.
  - eauto using same_elsewhere_trans.
Qed.

Lemma complete_elsewhere k p w :
  same_elsewhere k (resources w) (resources (completeE k p w).2).
Proof.
  unfold complete.
  eapply same_elsewhere_trans; [|apply fetchedFile_elsewhere].
  apply same_elsewhere_alter.
Qed.

Lemma touchResource_elsewhere k w :
  same_elsewhere k (resources w) (resources (touchResource k w)).
Proof. unfold touchResource. repeat case_match; frame; elsewhere_chain. Qed.

End ElsewhereFacts.

Lemma state_at_elsewhere k j w w' :
  same_elsewhere k (resources w) (resources w') → j ≠ k →
  state_at j w' = state_at j w.
Proof. intros H Hj. unfold state_at. by rewrite H. Qed.

Lemma getResourceValidity_state_at n w w' :
  state_at n w' = state_at n w →
  getResourceValidity n w' = getResourceValidity n w.
Proof.
  unfold state_at, getResourceValidity.
  destruct (resources w' !! n), (resources w !! n); simpl; try done.
  by intros [= ->].
Qed.

(** ** Resources that have reached an end state *)

Section SettledFacts.

Variable load_ok : Resource → bool.
Variable internalMemory : string → list Byte.byte.
Variable convertNameToCache : string → string.
Local Abbreviation dataTickS :=
  (dataTick load_ok internalMemory convertNameToCache).
Local Abbreviation apply_eventS :=
  (apply_event load_ok internalMemory convertNameToCache).
Local Abbreviation runS := (run load_ok internalMemory convertNameToCache).
Local Abbreviation reachableS :=
  (reachable load_ok internalMemory convertNameToCache).

Lemma touchResource_settled k j w s :
  state_at j w = Some s → settled s →
  state_at j (touchResource k w) = Some s.
Proof.
  intros Hj Hs. destruct (decide (j = k)) as [->|Hne].
  - unfold touchResource. unfold state_at in Hj.
    destruct (resources w !! k) as [r|] eqn:E; [|done].
    simpl in Hj. injection Hj as Hr.
    assert (state_at k (update k (set_lastAccessTick (frameIndex w)) w)
            = Some s) as Hu.
    { rewrite state_at_update by done. unfold state_at. by rewrite E, <- Hr. }
    destruct Hs as [->|[->| ->]]; rewrite Hr; exact Hu.
  - by rewrite (state_at_elsewhere k j w) by
      (done || apply touchResource_elsewhere).
Qed.

Lemma dataTick_settled j w s :
  state_at j w = Some s → settled s →
  state_at j (dataTickS w).2 = Some s.
Proof.
  intros Hj Hs.
  destruct (takeItem (with_invalid (invalidUrl w ∪ invalidUrlNew w) ∅ w))
    as [k|] eqn:Hk.
  - destruct (decide (j = k)) as [->|Hne].
    + unfold dataTick. rewrite Hk. cbn zeta. simpl.
      unfold state_at in Hj.
      destruct (resources w !! k) as [r|] eqn:E; [|done].
      simpl in Hj. injection Hj as Hr.
      destruct Hs as [->|[->| ->]]; rewrite Hr; simpl;
        unfold state_at; simpl; rewrite E; simpl; congruence.
    + rewrite (state_at_elsewhere k j w); [done| |done].
      by apply dataTick_elsewhere.
  - by rewrite dataTick_idle.
Qed.

Lemma apply_event_settled e j w s :
  sound w → isRenderTick e = false →
  state_at j w = Some s → settled s →
  state_at j (apply_eventS e w) = Some s.
Proof.
  intros Hw He Hj Hs. destruct e as [n|k| |k p| | |k ram gpu uc a];
    simpl in *; try done.
  - unfold getMapResource.
    destruct (resources w !! n) as [r|] eqn:E.
    + by apply touchResource_settled.
    + apply touchResource_settled; [|done].
      unfold state_at in *. simpl.
      destruct (decide (j = n)) as [->|Hne]; [by rewrite E in Hj|].
      by rewrite lookup_insert_ne.
  - by apply touchResource_settled.
  - by apply dataTick_settled.
  - case_bool_decide as Hin; [|done].
    assert (j ≠ k) as Hne.
    { intros ->. rewrite (fetcher_in_state k w Hw Hin) in Hj.
      injection Hj as <-. by destruct Hs as [|[|]]. }
    rewrite (state_at_elsewhere k j w); [done| |done].
    apply complete_elsewhere.
  - by rewrite state_at_update.
Qed.

(** X5: a resource that is [ready], [errorDownload] or [errorLoad]
    leaves that state by eviction only.  In a pipeline that events led
    to, whatever requests, touches, data ticks, frame changes and
    completed downloads follow, as long as no eviction pass is among
    them the state stays, and with it the answer of
    [getResourceValidity]. *)
Theorem settled_until_evicted (w : MapImpl) (es : list Event)
    (k : string) (s : State) :
  reachableS w →
  Forall (λ e, isRenderTick e = false) es →
  state_at k w = Some s → settled s →
  state_at k (runS es w) = Some s
  ∧ getResourceValidity k (runS es w) = getResourceValidity k w.
Proof.
  intros Hr Hes Hk Hs.
  assert (state_at k (runS es w) = Some s) as H.
  { revert w Hr Hk. induction Hes as [|e es He _ IH]; intros w Hr Hk;
      simpl; [done|].
    apply IH; [by constructor|].
    apply apply_event_settled; try done.
    by eapply reachable_sound. }
  split; [done|]. apply getResourceValidity_state_at. by rewrite H.
Qed.

End SettledFacts.

(** A built-in mesh, once decoded, stays [ready] through the next
    frame. *)
Lemma settled_until_evicted_witness :
  let k := "data/meshes/sphere.obj" in
  let w := play [EvGet k; EvRenderTick; EvDataTick]
             (initial 10 (512 * 1024 * 1024)) in
  let w' := play [EvFrame; EvTouch k; EvDataTick; EvGet "http://t/0"] w in
  state_at k w' = Some ready ∧ getResourceValidity k w' = Valid.
Proof.
  intros k w w'.
  destruct (settled_until_evicted (λ _, true) (λ _, []) id w
              [EvFrame; EvTouch k; EvDataTick; EvGet "http://t/0"]
              k ready) as [H1 H2].
  - unfold w, play. repeat apply reachable_run. constructor. lia.
  - repeat constructor.
  - reflexivity.
  - by left.
  - split; [exact H1|]. unfold w', play. rewrite H2. reflexivity.
Defined.

(** ** The data thread *)

Lemma set_state_same s r : state r = s → set_state s r = r.
Proof. intros <-. by destruct r. Qed.

Lemma alter_same (f : Resource → Resource) k (m : gmap string Resource) :
  (∀ r, m !! k = Some r → f r = r) → alter f k m = m.
Proof.
  intros Hf. apply map_eq. intros j. rewrite lookup_alter_resource.
  case_decide as Hj; [|done]. subst j.
  destruct (m !! k) as [r|] eqn:E; [|done]. simpl. by rewrite Hf.
Qed.

Section DataTickFacts.

Variable load_ok : Resource → bool.
Variable internalMemory : string → list Byte.byte.
Variable convertNameToCache : string → string.
Local Abbreviation dataTickD :=
  (dataTick load_ok internalMemory convertNameToCache).
Local Abbreviation apply_eventD :=
  (apply_event load_ok internalMemory convertNameToCache).
Local Abbreviation runD := (run load_ok internalMemory convertNameToCache).
Local Abbreviation reachableD :=
  (reachable load_ok internalMemory convertNameToCache).

#[local] Hint Rewrite (loadFromCache_resources convertNameToCache)
  (loadFromInternalMemory_resources internalMemory)
  (saveToCache_resources convertNameToCache)
  (loadResource_resources load_ok) : frame.

Lemma state_at_alter (f : Resource → Resource) k w w' r :
  resources w' = alter f k (resources w) →
  resources w !! k = Some r →
  state_at k w' = Some (state (f r)).
Proof.
  intros H E. unfold state_at.
  by rewrite H, lookup_alter_resource, decide_True, E.
Qed.

(** X6: [dataTick] reports that there was nothing to do, which sends
    the data thread to sleep, exactly when it has left every resource
    as it was. *)
Theorem dataTick_sleeps_iff_idle (w : MapImpl) :
  (dataTickD w).1 = true ↔ resources (dataTickD w).2 = resources w.
Proof.
  unfold dataTick.
  destruct (takeItem _) as [k|]; [|done]. cbn zeta. simpl.
  destruct (resources w !! k) as [r|] eqn:E; [|done].
  assert (∀ w' s', state_at k w' = Some s' → s' ≠ state r →
            (false, w').1 = true ↔ resources (false, w').2 = resources w)
    as Hbusy.
  { intros w' s' Hs' Hne. simpl. split; [done|]. intros Hw'.
    unfold state_at in Hs'. rewrite Hw', E in Hs'. simpl in Hs'.
    congruence. }
  destruct (state r) eqn:Es; try done.
  - case_bool_decide.
    { eapply Hbusy;
        [eapply (state_at_alter (set_state errorLoad)); [by frame|done]|].
      simpl. congruence. }
    destruct (negb (contains "://" (name r))).
    { eapply Hbusy;
        [unfold state_at; frame;
         rewrite !lookup_alter_resource, !decide_True by done;
         rewrite E; simpl; reflexivity|].
      by destruct (load_ok _). }
    destruct (negb (contains ".json" (name r)) && _).
    { eapply Hbusy;
        [unfold state_at; frame;
         rewrite !lookup_alter_resource, !decide_True by done;
         rewrite E; simpl; reflexivity|].
      by destruct (load_ok _). }
    rewrite assign_state_downloads, assign_state_maxDownloads. simpl.
    destruct (downloads w <? maxConcurrentDownloads w).
    + eapply Hbusy;
        [eapply (state_at_alter (set_state downloading)); [by frame|done]|].
      simpl. congruence.
    + simpl. split; [intros _|done]. frame.
      rewrite alter_alter_eq. apply alter_same. intros r0 Hr0.
      assert (r0 = r) as -> by congruence. simpl.
      destruct r. simpl in *. by subst.
  - eapply Hbusy;
      [unfold state_at; frame;
       rewrite !lookup_alter_resource, !decide_True by done;
       rewrite E; simpl; reflexivity|].
    by destruct (load_ok _).
Qed.

Lemma availableInCache_cache n w w' :
  cache w' = cache w →
  availableInCache convertNameToCache n w'
  = availableInCache convertNameToCache n w.
Proof. unfold availableInCache. by intros ->. Qed.

(** X7: when [dataTick] takes the resource [r] under key [k] from the
    queue, it hands a task to the fetcher exactly if [r] is
    [initializing], its name is not blacklisted, the name contains
    "://", the name contains ".json" or the disk cache has no such
    entry, and the counter of downloads is below the limit.  Then the
    task goes to the end of the fetcher's list, the counter goes up by
    one and the resource is [downloading]; otherwise fetcher and
    counter stay as they are. *)
Theorem dataTick_starts_download (w : MapImpl) (k : string) (r : Resource) :
  takeItem (with_invalid (invalidUrl w ∪ invalidUrlNew w) ∅ w) = Some k →
  resources w !! k = Some r →
  let starts :=
    state r = initializing
    ∧ (name r ∉ invalidUrl w ∪ invalidUrlNew w)
    ∧ contains "://" (name r) = true
    ∧ (contains ".json" (name r) = true
       ∨ availableInCache convertNameToCache (name r) w = false)
    ∧ downloads w < maxConcurrentDownloads w in
  let w' := (dataTickD w).2 in
  (starts →
     fetcher w' = fetcher w ++ [k]
     ∧ downloads w' = wrap32 (downloads w + 1)
     ∧ state_at k w' = Some downloading
     ∧ (dataTickD w).1 = false)
  ∧ (¬ starts → fetcher w' = fetcher w ∧ downloads w' = downloads w).
Proof.
  intros Hk E starts w'. subst starts w'. unfold dataTick.
  rewrite Hk. cbn zeta. simpl. rewrite E.
  assert (∀ w1 w2 : MapImpl, limits w1 = limits w2 →
            fetcher w1 = fetcher w2 ∧ downloads w1 = downloads w2) as Hlim.
  { unfold limits. by intros w1 w2 [= -> -> _]. }
  destruct (state r) eqn:Es;
    try (split; [by intros [? _]|intros _; done]).
  - case_bool_decide as Hbl.
    { split; [by intros (_ & ? & _)|intros _]. by frame. }
    destruct (contains "://" (name r)) eqn:Hurl; simpl.
    2:{ split; [by intros (_ & _ & ? & _)|intros _].
        apply Hlim.
        by rewrite limits_loadResource, limits_loadFromInternalMemory,
                   limits_assign_state. }
    rewrite (availableInCache_cache (name r) w (assign_state k downloading _))
      by by frame.
    destruct (contains ".json" (name r)) eqn:Hjson; simpl;
      [|destruct (availableInCache convertNameToCache (name r) w) eqn:Hav;
        simpl].
    2:{ split; [intros (_ & _ & _ & [?|?] & _); done|intros _].
        apply Hlim.
        by rewrite limits_loadResource, limits_loadFromCache,
                   limits_assign_state. }
    all: rewrite assign_state_downloads, assign_state_maxDownloads; simpl;
      destruct (downloads w <? maxConcurrentDownloads w) eqn:Hd; simpl;
      [apply Z.ltb_lt in Hd|apply Z.ltb_ge in Hd];
      (split;
        [intros (_ & _ & _ & _ & ?); try lia; frame;
         repeat split; try done;
         by eapply (state_at_alter (set_state downloading)); [by frame|]
        |intros Hn; try (by frame);
         exfalso; apply Hn; repeat split; auto]).
  - split; [by intros [? _]|intros _]. simpl. apply Hlim.
    by rewrite limits_loadResource.
Qed.

Lemma takeItem_elem w k : takeItem w = Some k → k ∈ prepareQue w.
Proof.
  unfold takeItem. intros H. apply elem_of_elements.
  by eapply list_elem_of_lookup_2.
Qed.

Lemma takeItem_nonempty w : prepareQue w ≠ ∅ → is_Some (takeItem w).
Proof.
  intros Hq. unfold takeItem. apply lookup_lt_is_Some.
  assert (length (elements (prepareQue w)) ≠ 0%nat) as Hl.
  { intros H0. apply Hq. apply length_zero_iff_nil in H0.
    by apply elements_empty_inv in H0 as ->%leibniz_equiv. }
  pose proof (Z.mod_pos_bound (takeItemIndex w)
                (Z.of_nat (length (elements (prepareQue w))))). lia.
Qed.

Lemma dataTick_queue w :
  prepareQueNew (dataTickD w).2 = prepareQueNew w
  ∧ match takeItem w with
    | Some k => prepareQue (dataTickD w).2 = prepareQue w ∖ {[k]}
    | None => prepareQue (dataTickD w).2 = prepareQue w
    end.
Proof.
  unfold dataTick.
  change (takeItem (with_invalid (invalidUrl w ∪ invalidUrlNew w) ∅ w))
    with (takeItem w).
  destruct (takeItem w) as [k|]; [|done]. cbn zeta. simpl.
  assert (∀ w1, prepareQueNew (loadResource load_ok k w1) = prepareQueNew w1
                ∧ prepareQue (loadResource load_ok k w1) = prepareQue w1)
    as Hl.
  { intros w1. unfold loadResource. repeat case_match; by frame. }
  assert (∀ w1, prepareQueNew (loadFromInternalMemory internalMemory k w1)
                = prepareQueNew w1
                ∧ prepareQue (loadFromInternalMemory internalMemory k w1)
                  = prepareQue w1) as Hi.
  { intros w1. unfold loadFromInternalMemory. by case_match. }
  assert (∀ w1, prepareQueNew (loadFromCache convertNameToCache k w1)
                = prepareQueNew w1
                ∧ prepareQue (loadFromCache convertNameToCache k w1)
                  = prepareQue w1) as Hc.
  { intros w1. unfold loadFromCache. by case_match. }
  repeat case_match; simpl;
    rewrite ?(proj1 (Hl _)), ?(proj2 (Hl _)), ?(proj1 (Hi _)),
            ?(proj2 (Hi _)), ?(proj1 (Hc _)), ?(proj2 (Hc _));
    by frame.
Qed.

(** X8: every call of [dataTick] takes exactly one entry from a queue
    that is not empty, whatever becomes of the resource, and leaves the
    queue of the next frame alone; on an empty queue it only merges the
    staged blacklist and reports that there is nothing to do.  So [n]
    calls empty a queue of at most [n] entries. *)
Theorem dataTick_takes_one (w : MapImpl) :
  (prepareQue w ≠ ∅ →
     ∃ k, k ∈ prepareQue w
          ∧ prepareQue (dataTickD w).2 = prepareQue w ∖ {[k]}
          ∧ prepareQueNew (dataTickD w).2 = prepareQueNew w)
  ∧ (prepareQue w = ∅ →
       dataTickD w
       = (true, with_invalid (invalidUrl w ∪ invalidUrlNew w) ∅ w))
  ∧ (∀ n, (size (prepareQue w) ≤ n)%nat →
          prepareQue (runD (repeat EvDataTick n) w) = ∅).
Proof.
  split; [|split].
  - intros Hq. destruct (takeItem_nonempty w Hq) as [k Hk].
    pose proof (dataTick_queue w) as [H1 H2]. rewrite Hk in H2.
    exists k. split; [by apply takeItem_elem|done].
  - intros Hq. apply dataTick_idle.
    unfold takeItem. simpl. rewrite Hq. by rewrite elements_empty.
  - intros n. revert w. induction n as [|n IH]; intros w Hn.
    + simpl. apply leibniz_equiv, size_empty_iff. lia.
    + simpl. apply IH.
      pose proof (dataTick_queue w) as [_ H2].
      destruct (takeItem w) as [k|] eqn:Hk.
      * rewrite H2. apply takeItem_elem in Hk.
        pose proof (size_difference (prepareQue w) {[k]}) as Hs.
        rewrite size_singleton in Hs.
        apply singleton_subseteq_l in Hk. specialize (Hs Hk). lia.
      * rewrite H2.
        destruct (decide (prepareQue w = ∅)) as [->|Hq];
          [rewrite size_empty; lia|].
        apply takeItem_nonempty in Hq as [k' Hk']. congruence.
Qed.

End DataTickFacts.

(** One tile asked for, below the limit: the first tick of the data
    thread hands it to the fetcher. *)
Lemma dataTick_starts_download_witness :
  let w := requested 1 10 in
  let w' := play [EvDataTick] w in
  fetcher w' = ["http://t/0"] ∧ downloads w' = 1
  ∧ state_at "http://t/0" w' = Some downloading.
Proof.
  intros w w'.
  destruct (dataTick_starts_download (λ _, true) (λ _, []) id w
              "http://t/0" (newResource "http://t/0")) as [H _].
  - reflexivity.
  - reflexivity.
  - destruct H as (H1 & H2 & H3 & _).
    + split; [reflexivity|].
      split; [apply (bool_decide_unpack _); vm_compute; exact I|].
      split; [reflexivity|]. split; [right; reflexivity|].
      vm_compute. reflexivity.
    + split; [exact H1|]. split; [exact H2|exact H3].
Defined.

(** ** The blacklist *)

Lemma blacklist_assign_state k s w : blacklist (assign_state k s w) = blacklist w.
Proof. unfold blacklist. by frame. Qed.

Section BlacklistFacts.

Variable load_ok : Resource → bool.
Variable internalMemory : string → list Byte.byte.
Variable convertNameToCache : string → string.
Local Abbreviation dataTickB :=
  (dataTick load_ok internalMemory convertNameToCache).
Local Abbreviation apply_eventB :=
  (apply_event load_ok internalMemory convertNameToCache).
Local Abbreviation runB := (run load_ok internalMemory convertNameToCache).

Lemma blacklist_loadResource k w :
  blacklist (loadResource load_ok k w) = blacklist w.
Proof.
  unfold loadResource. repeat case_match; unfold blacklist; by frame.
Qed.

Lemma blacklist_loadFromInternalMemory k w :
  blacklist (loadFromInternalMemory internalMemory k w) = blacklist w.
Proof. unfold loadFromInternalMemory. by case_match. Qed.

Lemma blacklist_loadFromCache k w :
  blacklist (loadFromCache convertNameToCache k w) = blacklist w.
Proof. unfold loadFromCache. by case_match. Qed.

Lemma blacklist_saveToCache k w :
  blacklist (saveToCache convertNameToCache k w) = blacklist w.
Proof. unfold saveToCache. by case_match. Qed.

Lemma blacklist_dataTick w : blacklist (dataTickB w).2 = blacklist w.
Proof.
  assert (blacklist (with_invalid (invalidUrl w ∪ invalidUrlNew w) ∅ w)
          = blacklist w) as Hsync.
  { unfold blacklist. simpl. apply union_empty_r_L. }
  unfold dataTick. cbn zeta. rewrite <- Hsync.
  generalize (with_invalid (invalidUrl w ∪ invalidUrlNew w) ∅ w).
  clear Hsync. intros w0.
  repeat case_match; simpl;
    rewrite ?blacklist_loadResource, ?blacklist_loadFromInternalMemory,
            ?blacklist_loadFromCache, ?blacklist_assign_state;
    first [done | unfold blacklist; by frame].
Qed.

Lemma blacklist_handleErrorCodes k w :
  blacklist (handleErrorCodes k w) = blacklist w.
Proof.
  unfold handleErrorCodes. repeat case_match;
    by rewrite ?blacklist_assign_state.
Qed.

Lemma blacklist_availabilityTests k w :
  blacklist (availabilityTests k w).2 = blacklist w.
Proof.
  unfold availabilityTests. repeat case_match; simpl;
    by rewrite ?blacklist_assign_state.
Qed.

Lemma blacklist_handleRedirections k w :
  blacklist (handleRedirections k w).2 = blacklist w.
Proof.
  unfold handleRedirections. repeat case_match; simpl;
    by rewrite ?blacklist_assign_state.
Qed.

Lemma blacklist_finishFetch k w :
  blacklist w ⊆ blacklist (finishFetch convertNameToCache k w).
Proof.
  unfold finishFetch. simpl. repeat case_match; simpl;
    rewrite ?blacklist_assign_state, ?blacklist_saveToCache; try done.
  unfold blacklist. simpl. rewrite (assoc_L (∪)). apply union_subseteq_l.
Qed.

Lemma blacklist_complete k p w :
  blacklist w ⊆ blacklist (complete convertNameToCache k p w).2.
Proof.
  unfold complete, fetchedFile.
  set (w1 := update k (set_reply p) _).
  assert (blacklist w1 = blacklist w) as E1 by done.
  pose proof (blacklist_handleErrorCodes k w1) as E2.
  pose proof (blacklist_availabilityTests k (handleErrorCodes k w1)) as E3.
  destruct (availabilityTests k (handleErrorCodes k w1)) as [[|e] w3];
    simpl in *; [|by rewrite E3, E2, E1].
  pose proof (blacklist_handleRedirections k w3) as E4.
  destruct (handleRedirections k w3) as [[|] w4]; simpl in *.
  - by rewrite E4, E3, E2, E1.
  - rewrite <- E1, <- E2, <- E3, <- E4. apply blacklist_finishFetch.
Qed.

Lemma blacklist_touchResource k w :
  blacklist (touchResource k w) = blacklist w.
Proof.
  unfold touchResource. repeat case_match; simpl; try done;
    unfold blacklist; by frame.
Qed.

Lemma blacklist_evictLoop res memUse w :
  blacklist (evictLoop res memUse w) = blacklist w.
Proof.
  revert memUse w. induction res as [|k res IH]; intros memUse w; simpl;
    [done|].
  destruct (_ <=? _); [done|]. destruct (resources w !! k); [|done].
  rewrite IH. unfold evictVisit.
  case_bool_decide; [done|apply blacklist_assign_state].
Qed.

Lemma blacklist_apply_event e w :
  blacklist w ⊆ blacklist (apply_eventB e w).
Proof.
  destruct e; simpl.
  - unfold getMapResource. rewrite blacklist_touchResource.
    by destruct (resources w !! n).
  - by rewrite blacklist_touchResource.
  - by rewrite blacklist_dataTick.
  - case_bool_decide; [apply blacklist_complete|done].
  - unfold dataRenderTick, clearOldResources.
    destruct (_ <? _); [|done]. by rewrite blacklist_evictLoop.
  - done.
  - done.
Qed.

(** X9: no operation of the pipeline takes a name off the blacklist
    (the set [invalidUrl] together with its staging set).  So once a
    name is blacklisted, a resource of that name whose turn comes in
    [dataTick] while it is [initializing] is set to [errorLoad], and
    the fetcher gets no task for it, however much later that is. *)
Theorem blacklisted_for_good (w : MapImpl) (n : string) (es : list Event)
    (k : string) (r : Resource) :
  n ∈ blacklist w →
  let w1 := runB es w in
  n ∈ blacklist w1
  ∧ (takeItem w1 = Some k → resources w1 !! k = Some r →
     name r = n → state r = initializing →
     state_at k (dataTickB w1).2 = Some errorLoad
     ∧ fetcher (dataTickB w1).2 = fetcher w1
     ∧ downloads (dataTickB w1).2 = downloads w1).
Proof.
  intros Hn w1.
  assert (n ∈ blacklist w1) as Hn1.
  { subst w1. revert w Hn. induction es as [|e es IH]; intros w Hn;
      simpl; [done|].
    apply IH. by apply blacklist_apply_event. }
  split; [done|]. intros Hk Hr Hname Hs. unfold dataTick.
  change (takeItem (with_invalid (invalidUrl w1 ∪ invalidUrlNew w1) ∅ w1))
    with (takeItem w1).
  rewrite Hk. cbn zeta. simpl. rewrite Hr, Hs.
  rewrite bool_decide_true by by rewrite Hname.
  simpl. frame. split; [|done].
  by eapply (state_at_alter (set_state errorLoad)); [by frame|].
Qed.

End BlacklistFacts.

(** A tile whose download was answered with 404 is on the blacklist,
    and still is after the next tick of the data thread has merged the
    staging set. *)
Lemma blacklisted_for_good_witness :
  let k := "http://t/0" in
  let w := play [EvDataTick; EvFetched k (okReply 404 "" 0)] (requested 1 10) in
  k ∈ blacklist (play [EvDataTick; EvFrame; EvGet "http://t/1"] w).
Proof.
  intros k w.
  destruct (blacklisted_for_good (λ _, true) (λ _, []) id w k
              [EvDataTick; EvFrame; EvGet "http://t/1"] k (newResource k))
    as [H _].
  - apply (bool_decide_unpack _). vm_compute. exact I.
  - exact H.
Defined.

(** ** Download slots *)

Lemma lostSlots_ext w w' : limits w' = limits w → lostSlots w' = lostSlots w.
Proof. unfold limits, lostSlots. by intros [= -> -> _]. Qed.

Section SlotFacts.

Variable load_ok : Resource → bool.
Variable internalMemory : string → list Byte.byte.
Variable convertNameToCache : string → string.
Local Abbreviation apply_eventL :=
  (apply_event load_ok internalMemory convertNameToCache).
Local Abbreviation reachableL :=
  (reachable load_ok internalMemory convertNameToCache).

Lemma complete_lostSlots k p w :
  k ∈ fetcher w → within_limit w →
  lostSlots (complete convertNameToCache k p w).2
  = lostSlots w
    + match (complete convertNameToCache k p w).1 with
      | Thrown _ => 1
      | Returned => 0
      end.
Proof.
  intros Hin (H1 & H2 & H3). pose proof (remove_task_length k _ Hin) as Hl.
  unfold complete, fetchedFile.
  set (w1 := update k (set_reply p) _).
  assert (E1 : limits w1 = (remove_task k (fetcher w), downloads w,
                            maxConcurrentDownloads w)) by done.
  pose proof (limits_handleErrorCodes k w1) as E2.
  pose proof (limits_availabilityTests k (handleErrorCodes k w1)) as E3.
  destruct (availabilityTests k (handleErrorCodes k w1)) as [[|e] w3];
    simpl in *.
  - rewrite E2, E1 in E3. injection E3 as Ef Ed Em.
    pose proof (limits_handleRedirections k w3) as E4.
    destruct (handleRedirections k w3) as [[|] w4]; simpl in *.
    + injection E4 as Ef4 Ed4 Em4. unfold lostSlots.
      rewrite Ef4, Ed4, Ef, Ed, length_app. simpl. lia.
    + pose proof (limits_finishFetch convertNameToCache k w4) as E5.
      injection E4 as Ef4 Ed4 Em4. injection E5 as Ef5 Ed5 Em5.
      unfold lostSlots.
      rewrite Ef5, Ed5, Ef4, Ed4, Ef, Ed.
      rewrite wrap32_small by lia. lia.
  - rewrite E2, E1 in E3. injection E3 as Ef Ed Em. unfold lostSlots.
    rewrite Ef, Ed. lia.
Qed.

(** X10: the counter [downloads] is never below the number of tasks
    the fetcher holds, and the difference, the slots that are taken
    without a task, grows by one with every call of [fetchedFile] that
    throws: the task has left the fetcher and the counter is not
    decremented.  Nothing else changes the difference, so every such
    call lowers for good the number of downloads that can run at the
    same time. *)
Theorem thrown_completion_loses_slot (w : MapImpl) (e : Event) :
  reachableL w →
  0 ≤ lostSlots w
  ∧ Z.of_nat (length (fetcher w)) ≤ maxConcurrentDownloads w - lostSlots w
  ∧ lostSlots (apply_eventL e w)
    = lostSlots w
      + match e with
        | EvFetched k p =>
            if bool_decide (k ∈ fetcher w)
            then match (complete convertNameToCache k p w).1 with
                 | Thrown _ => 1
                 | Returned => 0
                 end
            else 0
        | _ => 0
        end.
Proof.
  intros Hr.
  pose proof (reachable_within_limit _ _ _ w Hr) as Hl.
  pose proof Hl as (H1 & H2 & H3).
  split; [unfold lostSlots; lia|]. split; [unfold lostSlots; lia|].
  destruct e as [n|k| |k p| | |k ram gpu uc a]; simpl;
    rewrite ?Z.add_0_r.
  - apply lostSlots_ext. unfold getMapResource.
    rewrite limits_touchResource. by destruct (resources w !! n).
  - apply lostSlots_ext, limits_touchResource.
  - destruct (dataTick_limits load_ok internalMemory convertNameToCache w)
      as [E|(k & Hlt & E)]; [by apply lostSlots_ext|].
    injection E as Ef Ed Em. unfold lostSlots. rewrite Ef, Ed, length_app.
    simpl. rewrite wrap32_small by lia. lia.
  - case_bool_decide; [by apply complete_lostSlots|lia].
  - apply lostSlots_ext, limits_dataRenderTick.
  - done.
  - done.
Qed.

End SlotFacts.

(** A reply to a tile with a [negativeSize] availability test makes
    [fetchedFile] throw: the fetcher is empty and one slot stays
    taken. *)
Lemma thrown_completion_witness :
  let k := "http://t/0" in
  let a := {| avail_type := negativeSize; avail_mime := "";
              avail_codes := []; avail_size := 4 |} in
  let w := play [EvGet k; EvAttributes k 0 0 1 (Some a); EvRenderTick;
                 EvDataTick] (initial 10 (512 * 1024 * 1024)) in
  let w' := play [EvFetched k (okReply 200 "image/jpeg" 10)] w in
  lostSlots w = 0 ∧ lostSlots w' = 1 ∧ fetcher w' = [] ∧ downloads w' = 1.
Proof.
  intros k a w w'.
  destruct (thrown_completion_loses_slot (λ _, true) (λ _, []) id w
              (EvFetched k (okReply 200 "image/jpeg" 10))) as (_ & _ & H).
  - unfold w, play. repeat apply reachable_run. constructor. lia.
  - split; [reflexivity|]. split; [exact H|]. split; reflexivity.
Defined.

(** * Further properties of the map renderer *)

(** ** Tile ids *)

Lemma round_down (v k : Z) :
  0 ≤ v < 2 ^ 32 → 0 ≤ k →
  wrap32 (Z.shiftl (Z.shiftr v k) k) = v - v mod 2 ^ k.
Proof.
  intros Hv Hk. rewrite Z.shiftr_div_pow2, Z.shiftl_mul_pow2 by done.
  assert (0 < 2 ^ k) by (apply Z.pow_pos_nonneg; lia).
  pose proof (Z.div_mod v (2 ^ k) ltac:(lia)) as Hd.
  pose proof (Z.mod_pos_bound v (2 ^ k) ltac:(lia)) as Hm.
  pose proof (Z.mod_le v (2 ^ k) ltac:(lia) ltac:(lia)) as Hle.
  rewrite (Z.mul_comm (2 ^ k)) in Hd.
  generalize dependent (v `div` 2 ^ k * 2 ^ k). intros q Hd.
  generalize dependent (v mod 2 ^ k). intros m Hm Hle Hd.
  assert (q = v - m) as -> by lia.
  apply wrap32_small. lia.
Qed.

(** X11: for ids with [uint32] coordinates and a shift count below
    32, [roundId] keeps the lod and rounds each coordinate down to the
    next multiple of [2^metaTileBinaryOrder]: the result is at most the
    coordinate and less than [2^metaTileBinaryOrder] below it.
    Rounding a rounded id changes nothing, and two tiles of one lod
    get the same id exactly if their coordinates agree above the low
    [metaTileBinaryOrder] bits. *)
Theorem roundId_metatile (k : Z) (a b : TileId.t) :
  0 ≤ k < 32 →
  0 ≤ TileId.x a < 2 ^ 32 → 0 ≤ TileId.y a < 2 ^ 32 →
  0 ≤ TileId.x b < 2 ^ 32 → 0 ≤ TileId.y b < 2 ^ 32 →
  let r := roundId k a in
  TileId.lod r = TileId.lod a
  ∧ TileId.x r = TileId.x a - TileId.x a mod 2 ^ k
  ∧ TileId.y r = TileId.y a - TileId.y a mod 2 ^ k
  ∧ (TileId.x r mod 2 ^ k = 0 ∧ TileId.y r mod 2 ^ k = 0)
  ∧ roundId k r = r
  ∧ (roundId k a = roundId k b
     ↔ TileId.lod a = TileId.lod b
       ∧ TileId.x a `div` 2 ^ k = TileId.x b `div` 2 ^ k
       ∧ TileId.y a `div` 2 ^ k = TileId.y b `div` 2 ^ k).
Proof.
  intros Hk Hxa Hya Hxb Hyb r.
  assert (0 < 2 ^ k) as Hp by (apply Z.pow_pos_nonneg; lia).
  assert (∀ v, 0 ≤ v < 2 ^ 32 → v - v mod 2 ^ k = 2 ^ k * (v `div` 2 ^ k))
    as Hdiv.
  { intros v _. pose proof (Z.div_mod v (2 ^ k) ltac:(lia)) as Hd.
    generalize dependent (2 ^ k * v `div` 2 ^ k).
    generalize (v mod 2 ^ k). intros m q Hd. lia. }
  assert (∀ v, 0 ≤ v < 2 ^ 32 →
               0 ≤ v - v mod 2 ^ k < 2 ^ 32
               ∧ (v - v mod 2 ^ k) mod 2 ^ k = 0) as Hr.
  { intros v Hv. pose proof (Z.mod_pos_bound v (2 ^ k) ltac:(lia)).
    pose proof (Z.mod_le v (2 ^ k) ltac:(lia) ltac:(lia)).
    split; [lia|]. rewrite Hdiv by done.
    rewrite Z.mul_comm. apply Z.mod_mul. lia. }
  subst r. unfold roundId. simpl.
  rewrite !round_down by lia.
  destruct (Hr _ Hxa) as [Hxr Hxm]. destruct (Hr _ Hya) as [Hyr Hym].
  split; [done|]. split; [done|]. split; [done|]. split; [done|].
  split.
  - rewrite !round_down by lia. rewrite Hxm, Hym. by rewrite !Z.sub_0_r.
  - rewrite (round_down (TileId.x b)), (round_down (TileId.y b)) by lia.
    rewrite !Hdiv by done. split.
    + intros [= Hl H1 H2]. split; [done|].
      split; apply (Z.mul_reg_l _ _ (2 ^ k)); (lia || assumption).
    + intros (Hl & Hx & Hy). by rewrite Hl, Hx, Hy.
Qed.

(** With metatiles of 32 by 32 tiles, the tile (12, 1000, 77) belongs
    to the metatile at (12, 992, 64). *)
Lemma roundId_metatile_witness :
  roundId 5 {| TileId.lod := 12; TileId.x := 1000; TileId.y := 77 |}
  = {| TileId.lod := 12; TileId.x := 992; TileId.y := 64 |}
  ∧ roundId 5 {| TileId.lod := 12; TileId.x := 1000; TileId.y := 77 |}
    = roundId 5 {| TileId.lod := 12; TileId.x := 1023; TileId.y := 95 |}.
Proof.
  destruct (roundId_metatile 5
              {| TileId.lod := 12; TileId.x := 1000; TileId.y := 77 |}
              {| TileId.lod := 12; TileId.x := 1023; TileId.y := 95 |})
    as (_ & _ & _ & _ & _ & H); simpl; try lia.
  split; [reflexivity|]. apply H. simpl. repeat split; reflexivity.
Defined.

(** ** Corners of a tile *)

(** X12: [lowerUpperCombine] reads the three low bits of its argument,
    so that the indices 0 to 7 stand for the eight corners of a box;
    and the twelve lines [renderNode] draws for the tile box are the
    twelve edges of that box, each once: two corners are joined
    exactly if they differ in one coordinate. *)
Theorem tile_box_edges :
  (∀ i, 0 ≤ i →
     let c := lowerUpperCombine i in
     (c.1.1 = 0 ∨ c.1.1 = 1) ∧ (c.1.2 = 0 ∨ c.1.2 = 1)
     ∧ (c.2 = 0 ∨ c.2 = 1)
     ∧ i mod 8 = c.1.1 + 2 * c.1.2 + 4 * c.2)
  ∧ NoDup tileBoxLines
  ∧ (∀ i j, 0 ≤ i < j ∧ j < 8 →
       oneApart (lowerUpperCombine i) (lowerUpperCombine j) = true
       ↔ (i, j) ∈ tileBoxLines)
  ∧ Forall (λ l, 0 ≤ l.1 < l.2 ∧ l.2 < 8) tileBoxLines.
Proof.
  split; [|split; [|split]].
  - intros i Hi. unfold lowerUpperCombine. simpl.
    rewrite !Z.shiftr_div_pow2 by lia.
    change (2 ^ 0) with 1. change (2 ^ 1) with 2. change (2 ^ 2) with 4.
    rewrite Z.div_1_r.
    repeat split; Z.div_mod_to_equations; lia.
  - apply (bool_decide_unpack _). vm_compute. exact I.
  - intros i j Hij.
    assert (Hi : i = 0 ∨ i = 1 ∨ i = 2 ∨ i = 3 ∨ i = 4 ∨ i = 5 ∨ i = 6)
      by lia.
    assert (Hj : j = 1 ∨ j = 2 ∨ j = 3 ∨ j = 4 ∨ j = 5 ∨ j = 6 ∨ j = 7)
      by lia.
    repeat (destruct Hi as [Hi|Hi]); subst i;
      repeat (destruct Hj as [Hj|Hj]); subst j;
      try (exfalso; lia); clear Hij;
      (split;
        [intros H; vm_compute in H; first [discriminate H
                         | apply (bool_decide_unpack _); vm_compute; exact I]
        |intros H; first [vm_compute; reflexivity
                         | exfalso; revert H; apply (bool_decide_unpack _);
                           vm_compute; exact I]]).
  - apply (bool_decide_unpack _). vm_compute. exact I.
Qed.

(** ** Frustum culling *)

Section CullingFacts.

Variable double : Type.
Variable dadd dmul : double → double → double.
Variable dneg : double → double.
Variable dlt : double → double → bool.
Variable dzero : double.

Local Abbreviation dleC := (dle double dlt).
Local Abbreviation dotC := (dot double dadd dmul).
Local Abbreviation behindC := (behind double dadd dmul dneg dlt).
Local Abbreviation pVertexC := (pVertex double dlt dzero).
Local Abbreviation aabbTestC := (aabbTest double dadd dmul dneg dlt dzero).
Local Abbreviation inBoxC := (inBox double dlt).

(** What the comparison and the rounded operations of [double] do on
    numbers: the comparison is a strict order compatible with "not
    greater", and rounded sums and products are monotone. *)
Hypothesis dlt_irrefl : ∀ a, dlt a a = false.
Hypothesis dle_dlt_trans : ∀ a b c, dleC a b → dlt b c = true → dlt a c = true.
Hypothesis dadd_mono :
  ∀ a a' b b', dleC a a' → dleC b b' → dleC (dadd a b) (dadd a' b').
Hypothesis dmul_pos :
  ∀ c a b, dlt dzero c = true → dleC a b → dleC (dmul c a) (dmul c b).
Hypothesis dmul_nonpos :
  ∀ c a b, dlt dzero c = false → dleC a b → dleC (dmul c b) (dmul c a).

Lemma pVertex_maximal aabb p q :
  inBoxC aabb q →
  dleC (dotC (vec4to3 double p) q) (dotC (vec4to3 double p) (pVertexC aabb p)).
Proof.
  intros ((Hx1 & Hx2) & (Hy1 & Hy2) & (Hz1 & Hz2)).
  unfold dot, pVertex, vec4to3. simpl.
  apply dadd_mono; [apply dadd_mono|].
  - destruct (dlt dzero p.1.1.1) eqn:E; [by apply dmul_pos|by apply dmul_nonpos].
  - destruct (dlt dzero p.1.1.2) eqn:E; [by apply dmul_pos|by apply dmul_nonpos].
  - destruct (dlt dzero p.1.2) eqn:E; [by apply dmul_pos|by apply dmul_nonpos].
Qed.

Lemma pVertex_inBox aabb p :
  dleC aabb.1.1.1 aabb.2.1.1 → dleC aabb.1.1.2 aabb.2.1.2 →
  dleC aabb.1.2 aabb.2.2 →
  inBoxC aabb (pVertexC aabb p).
Proof.
  intros Hx Hy Hz. unfold inBox, pVertex, dle in *. simpl.
  destruct (dlt dzero p.1.1.1), (dlt dzero p.1.1.2), (dlt dzero p.1.2);
    simpl; rewrite ?dlt_irrefl; repeat split; done.
Qed.

(** X13: [aabbTest] rejects a box whose lower corner is not above its
    upper corner exactly if one of the planes has every point of the
    box behind it, in the arithmetic of the test itself.  It is enough
    to test the p-vertex because rounded sums and products are
    monotone; so a box with a point that no plane has behind it is
    never culled. *)
Theorem aabbTest_rejects_iff (aabb : vec3 double * vec3 double)
    (planes : list (vec4 double)) :
  dleC aabb.1.1.1 aabb.2.1.1 → dleC aabb.1.1.2 aabb.2.1.2 →
  dleC aabb.1.2 aabb.2.2 →
  aabbTestC aabb planes = false
  ↔ ∃ p, p ∈ planes ∧ ∀ q, inBoxC aabb q → behindC p q = true.
Proof.
  intros Hx Hy Hz. induction planes as [|p rest IH]; simpl.
  - split; [done|]. intros (p & Hp & _). by apply elem_of_nil in Hp.
  - destruct (behindC p (pVertexC aabb p)) eqn:E.
    + split; [intros _|done]. exists p. split; [left|].
      intros q Hq. unfold behind in *.
      eapply dle_dlt_trans; [|exact E]. by apply pVertex_maximal.
    + rewrite IH. split.
      * intros (p' & Hp' & H). exists p'. split; [by right|done].
      * intros (p' & Hp' & H). apply elem_of_cons in Hp' as [->|Hp'].
        -- specialize (H _ (pVertex_inBox aabb p Hx Hy Hz)). congruence.
        -- by exists p'.
Qed.

End CullingFacts.

(** The unit cube against the half space [x >= 5], in integers: the
    plane has the whole cube behind it and the cube is rejected. *)
Lemma aabbTest_rejects_witness :
  aabbTest Z Z.add Z.mul Z.opp Z.ltb 0
    ((0, 0, 0), (1, 1, 1)) [(0, 0, 1, 3); (1, 0, 0, -5)] = false
  ∧ ∃ p, p ∈ [(0, 0, 1, 3); (1, 0, 0, -5)]
         ∧ ∀ q, inBox Z Z.ltb ((0, 0, 0), (1, 1, 1)) q →
                behind Z Z.add Z.mul Z.opp Z.ltb p q = true.
Proof.
  assert (H := aabbTest_rejects_iff Z Z.add Z.mul Z.opp Z.ltb 0).
  unfold dle in H.
  specialize (H Z.ltb_irrefl).
  specialize (H ltac:(intros a b c; rewrite Z.ltb_ge, !Z.ltb_lt; lia)).
  specialize (H ltac:(intros a a' b b'; rewrite !Z.ltb_ge; lia)).
  specialize (H ltac:(intros c a b; rewrite Z.ltb_lt, !Z.ltb_ge; nia)).
  specialize (H ltac:(intros c a b; rewrite !Z.ltb_ge; nia)).
  specialize (H ((0, 0, 0), (1, 1, 1)) [(0, 0, 1, 3); (1, 0, 0, -5)]
                eq_refl eq_refl eq_refl).
  split; [reflexivity|]. apply H. reflexivity.
Defined.

(** ** Bound layers of a submesh *)

Section BoundLayerFacts.

Variable BoundParamInfo : Type.
Variable prepare : BoundParamInfo → Validity * BoundParamInfo.
Variable watertight transparent : BoundParamInfo → bool.

Local Abbreviation prepareAllB := (prepareAll BoundParamInfo prepare).
Local Abbreviation keepThroughB :=
  (keepThrough BoundParamInfo watertight transparent).
Local Abbreviation skipOverlappingB :=
  (skipOverlapping BoundParamInfo watertight transparent).
Local Abbreviation reorderBoundLayersB :=
  (reorderBoundLayers BoundParamInfo prepare watertight transparent).
Local Abbreviation coveringB :=
  (covering BoundParamInfo watertight transparent).

Lemma prepareAll_list l :
  (prepareAllB l).2
  = omap (λ it, match (prepare it).1 with
                | Invalid => None
                | _ => Some (prepare it).2
                end) l.
Proof.
  induction l as [|it rest IH]; simpl; [done|].
  destruct (prepare it) as [v it'], (prepareAllB rest) as [d rest'].
  simpl in *. destruct v; simpl; by rewrite IH.
Qed.

Lemma prepareAll_determined l :
  (prepareAllB l).1 = false
  ↔ Exists (λ it, (prepare it).1 = Indeterminate) l.
Proof.
  induction l as [|it rest IH]; simpl.
  - split; [done|]. by intros ?%Exists_nil.
  - rewrite Exists_cons, <- IH.
    destruct (prepare it) as [v it'], (prepareAllB rest) as [d rest'].
    simpl. destruct v; simpl; split; try done; try tauto.
    all: by intros [?|?].
Qed.

Lemma keepThrough_cases l :
  (keepThroughB l = l ∧ Forall (λ it, coveringB it = false) l)
  ∨ ∃ pre h rest,
      l = pre ++ h :: rest ∧ keepThroughB l = pre ++ [h]
      ∧ Forall (λ it, coveringB it = false) pre ∧ coveringB h = true.
Proof.
  induction l as [|it l IH]; simpl; [by left|].
  unfold covering in *.
  destruct (watertight it) eqn:Ew, (transparent it) eqn:Et; simpl.
  2:{ right. exists [], it, l. simpl. by rewrite Ew, Et. }
  all: destruct IH as [[-> Hall]|(pre & h & rest & -> & -> & Hpre & Hh)];
    [left; split; [done|]; constructor; [by rewrite Ew, Et|done]
    |right; exists (it :: pre), h, rest; simpl;
     repeat split; try done; constructor; [by rewrite Ew, Et|done]].
Qed.

Lemma skipOverlapping_cases l :
  (skipOverlappingB l = l ∧ Forall (λ it, coveringB it = false) l)
  ∨ ∃ dropped h kept,
      l = dropped ++ h :: kept ∧ skipOverlappingB l = h :: kept
      ∧ coveringB h = true ∧ Forall (λ it, coveringB it = false) kept.
Proof.
  unfold skipOverlapping.
  destruct (keepThrough_cases (reverse l))
    as [[-> Hall]|(pre & h & rest & Hl & -> & Hpre & Hh)].
  - left. rewrite reverse_involutive. split; [done|].
    by apply Forall_reverse in Hall; rewrite reverse_involutive in Hall.
  - right. exists (reverse rest), h, (reverse pre).
    apply (f_equal reverse) in Hl. rewrite reverse_involutive in Hl.
    rewrite reverse_app, reverse_cons, <- (assoc_L (++)) in Hl. simpl in Hl.
    rewrite reverse_app. simpl.
    split; [done|]. split; [done|]. split; [done|].
    by apply Forall_reverse.
Qed.

(** X14: [reorderBoundLayers] never answers [Invalid].  It erases the
    layers whose [prepare] says [Invalid] and keeps the others in their
    order; it answers [Indeterminate] exactly if some layer's [prepare]
    does, and then leaves the list at that.  Otherwise it answers
    [Valid] and cuts the list in front of the last layer that is
    watertight and not transparent: what remains starts with that
    layer and has no other such layer, and when there is none the
    whole list remains. *)
Theorem reorderBoundLayers_result (boundList : list BoundParamInfo) :
  let prepared :=
    omap (λ it, match (prepare it).1 with
                | Invalid => None
                | _ => Some (prepare it).2
                end) boundList in
  let res := reorderBoundLayers BoundParamInfo prepare watertight transparent
      boundList in
  res.1 ≠ Invalid
  ∧ (res.1 = Indeterminate
     ↔ Exists (λ it, (prepare it).1 = Indeterminate) boundList)
  ∧ (res.1 = Indeterminate → res.2 = prepared)
  ∧ (res.1 = Valid →
       (res.2 = prepared ∧ Forall (λ it, coveringB it = false) prepared)
       ∨ ∃ dropped h kept,
           prepared = dropped ++ h :: kept ∧ res.2 = h :: kept
           ∧ coveringB h = true
           ∧ Forall (λ it, coveringB it = false) kept).
Proof.
  intros prepared res. subst prepared res.
  rewrite <- prepareAll_list. unfold reorderBoundLayers.
  pose proof (prepareAll_determined boundList) as Hd.
  destruct (prepareAllB boundList) as [d l]. simpl in *.
  destruct d; simpl.
  - split; [done|]. split; [|split; [done|]].
    + split; [done|]. intros H. apply Hd in H. done.
    + intros _. apply skipOverlapping_cases.
  - split; [done|]. split; [|split; [done|done]].
    split; [intros _|done]. by apply Hd.
Qed.

End BoundLayerFacts.

(** Four layers, bottom to top: a covering one, an invalid one, a
    second covering one and a transparent one.  The second covering
    layer and the transparent one remain. *)
Lemma reorderBoundLayers_witness :
  let prepare := λ it : string * Validity * bool, (it.1.2, it) in
  let watertight := λ _ : string * Validity * bool, true in
  let transparent := λ it : string * Validity * bool, it.2 in
  reorderBoundLayers _ prepare watertight transparent
    [("a", Valid, false); ("b", Invalid, false); ("c", Valid, false);
     ("d", Valid, true)]
  = (Valid, [("c", Valid, false); ("d", Valid, true)])
  ∧ covering _ watertight transparent ("c", Valid, false) = true.
Proof.
  intros prepare watertight transparent.
  destruct (reorderBoundLayers_result _ prepare watertight transparent
              [("a", Valid, false); ("b", Invalid, false);
               ("c", Valid, false); ("d", Valid, true)])
    as (_ & _ & _ & H).
  destruct (H eq_refl) as [[_ Hall]|(dropped & h & kept & _ & Hres & Hh & _)].
  - apply Forall_cons in Hall as [Ha _]. discriminate Ha.
  - split; [reflexivity|]. injection Hres as <- _. exact Hh.
Defined.

(** ** Clearing the traversal tree *)

Section ClearingFacts.

Variable Data : Type.
Local Abbreviation Node := (Clearing.TraverseNode Data).
Local Abbreviation traverseClearingC := (Clearing.traverseClearing Data).
Local Abbreviation nodesC := (Clearing.nodes Data).
Local Abbreviation staleC := (Clearing.stale Data).

Lemma Forall_flat_map_nodes (P : Node → Prop) (l : list Node) :
  Forall P (flat_map nodesC l) ↔ Forall (λ c, Forall P (nodesC c)) l.
Proof.
  induction l as [|c l IH]; simpl.
  - split; constructor.
  - rewrite Forall_app, Forall_cons, IH. done.
Qed.


Lemma skippedAt_lod3 tickIndex id :
  TileId.lod id = 3 → 0 ≤ TileId.x id < 8 → 0 ≤ TileId.y id < 8 →
  Clearing.skippedAt tickIndex id = false
  ↔ tickIndex mod 64 = 8 * TileId.y id + TileId.x id.
Proof.
  intros Hl Hx Hy. unfold Clearing.skippedAt. rewrite Hl. simpl.
  rewrite negb_false_iff, Z.eqb_eq.
  rewrite (wrap32_small (TileId.y id * 8)) by lia.
  rewrite wrap32_small by lia.
  rewrite (Z.mod_small (_ + _)) by lia. split; lia.
Qed.

(** X16: the nodes of lod 3 take turns.  Such a node, with
    coordinates below 8, is looked at only in the ticks that leave the
    remainder [8 * y + x] when divided by 64, which is one tick in
    every 64 consecutive ones; in every other tick the pass leaves the
    node and all that is below it as it is. *)
Theorem traverseClearing_stagger (trav : Node) :
  let id := Clearing.nodeId Data trav in
  TileId.lod id = 3 → 0 ≤ TileId.x id < 8 → 0 ≤ TileId.y id < 8 →
  (∀ tickIndex, tickIndex mod 64 ≠ 8 * TileId.y id + TileId.x id →
     traverseClearingC tickIndex trav = trav)
  ∧ (∀ t0, ∃ t, t0 ≤ t < t0 + 64
       ∧ Clearing.skippedAt t id = false
       ∧ ∀ t', t0 ≤ t' < t0 + 64 → Clearing.skippedAt t' id = false →
               t' = t).
Proof.
  intros id Hl Hx Hy. split.
  - intros tickIndex Ht. destruct trav as [i t d cs]. simpl in *.
    destruct (Clearing.skippedAt tickIndex i) eqn:E; [done|].
    apply skippedAt_lod3 in E; done.
  - intros t0. set (s := 8 * TileId.y id + TileId.x id).
    exists (t0 + (s - t0) mod 64).
    assert (∀ t, Clearing.skippedAt t id = false ↔ t mod 64 = s) as Hs
      by (intros t; by apply skippedAt_lod3).
    assert (0 ≤ s < 64) as Hr by (unfold s; lia).
    split; [Z.div_mod_to_equations; lia|]. split.
    + apply Hs. Z.div_mod_to_equations. lia.
    + intros t' Ht' Hk. apply Hs in Hk. Z.div_mod_to_equations. lia.
Qed.

End ClearingFacts.


(** The node (3, 5, 2) has its turn at tick 85 = 64 + 21 and not at
    tick 86. *)
Lemma traverseClearing_stagger_witness :
  let n := {| Clearing.nodeId := {| TileId.lod := 3; TileId.x := 5;
                                    TileId.y := 2 |};
              Clearing.lastAccessTime := 0; Clearing.data := Some tt;
              Clearing.childs := [] |} in
  Clearing.traverseClearing unit 86 n = n
  ∧ Clearing.traverseClearing unit 85 n = Clearing.clear unit n.
Proof.
  intros n.
  destruct (traverseClearing_stagger unit n) as [H _];
    [reflexivity|simpl; lia|simpl; lia|].
  split; [apply H; vm_compute; discriminate|reflexivity].
Defined.


(** ** The traversal loop of a frame *)

Section VisitFacts.

Variable Priority : Type.
Variable travDetermineMeta : TraverseNode Priority → bool * TraverseNode Priority.
Variable travDetermineDraws : TraverseNode Priority → TraverseNode Priority.
Variable visibilityTest coarsenessTest : TraverseNode Priority → bool.
Variable computeResourcePriority : TraverseNode Priority → Priority.

Local Abbreviation traverseV :=
  (traverse Priority travDetermineMeta travDetermineDraws visibilityTest
     coarsenessTest computeResourcePriority).
Local Abbreviation enqueueChildsV :=
  (enqueueChilds Priority computeResourcePriority).

Lemma enqueueChilds_elem trav loadOnly ev :
  ev ∈ enqueueChildsV trav loadOnly → ∃ t, ev = Queued t loadOnly.
Proof.
  unfold enqueueChilds. intros Hin. apply list_elem_of_fmap in Hin.
  destruct Hin as (t & -> & _). eauto.
Qed.

(** The ways a visit can end: with nothing, with a call of
    [renderNode], with the children queued as the visit itself was, or
    with a call of [renderNode] and the children queued to be loaded
    only. *)
Lemma traverse_shape mode trav loadOnly :
  let evs := traverseV mode trav loadOnly in
  evs = []
  ∨ (∃ t, evs = [Rendered t] ∧ loadOnly = false)
  ∨ (∃ t, evs = enqueueChildsV t loadOnly)
  ∨ (∃ t t', evs = Rendered t :: enqueueChildsV t' true ∧ loadOnly = false).
Proof.
  simpl. unfold traverse, traverseHierarchical, traverseFlat.
  destruct (prepareMeta _ _ _) as [trav1|]; [|by left].
  destruct (meta trav1) as [m|]; [|by left].
  destruct mode.
  - set (trav2 := determineDraws _ _ _ _).
    destruct (visibilityTest trav2); simpl; [|by left].
    destruct (coarsenessTest trav2); simpl.
    { destruct loadOnly; [by left|right; left; eauto]. }
    destruct loadOnly; simpl.
    + destruct (childs trav2) eqn:E; [by left|].
      right; right; left. by exists trav2.
    + destruct (forallb _ _); simpl.
      * destruct (childs trav2) eqn:E; [right; left; eauto|].
        right; right; left. by exists trav2.
      * destruct (childs trav2) eqn:E; [right; left; eauto|].
        right; right; right. by exists trav2, trav2.
  - destruct (visibilityTest trav1); simpl; [|by left].
    destruct (coarsenessTest trav1 || _); simpl.
    + destruct loadOnly; [by left|right; left; eauto].
    + right; right; left. eauto.
Qed.

(** What one visit hands on: with [loadOnly] set it renders nothing
    and queues with [loadOnly] set; and a visit that queues a node
    without [loadOnly] was itself without, and renders nothing. *)
Lemma traverse_events mode trav loadOnly :
  let evs := traverseV mode trav loadOnly in
  (loadOnly = true → ∀ ev, ev ∈ evs → ∃ t, ev = Queued t true)
  ∧ (∀ t, Queued t false ∈ evs →
       loadOnly = false ∧ ∀ ev, ev ∈ evs → ∃ t', ev = Queued t' false).
Proof.
  simpl.
  destruct (traverse_shape mode trav loadOnly)
    as [E|[(t & E & Hl)|[(t & E)|(t & t' & E & Hl)]]];
    simpl in E; rewrite E; clear E.
  - split; [intros _ ev Hin|intros t Hin]; by apply elem_of_nil in Hin.
  - subst loadOnly. split; [done|]. intros t0 Hin.
    apply list_elem_of_singleton in Hin. done.
  - split.
    + intros -> ev Hin. by apply enqueueChilds_elem in Hin.
    + intros t0 Hin. pose proof (enqueueChilds_elem _ _ _ Hin) as (t1 & H1).
      injection H1 as _ <-. split; [done|].
      intros ev Hev. by apply enqueueChilds_elem in Hev.
  - subst loadOnly. split; [done|]. intros t0 Hin.
    apply elem_of_cons in Hin as [Hin|Hin]; [done|].
    apply enqueueChilds_elem in Hin as (t1 & H1). done.
Qed.

End VisitFacts.

Section LoopFacts.

Variable Priority : Type.
Variable travDetermineMeta :
  nat → TraverseNode Priority → bool * TraverseNode Priority.
Variable travDetermineDraws : nat → TraverseNode Priority → TraverseNode Priority.
Variable visibilityTest coarsenessTest : nat → TraverseNode Priority → bool.
Variable computeResourcePriority : nat → TraverseNode Priority → Priority.
Variable top : list (TraverseNode Priority * bool) → nat.
Variable mode : TraverseMode.

Local Abbreviation Item := (TraverseQueueItem Priority).
Local Abbreviation Call := (RenderCall Priority).
Local Abbreviation visitL :=
  (visit Priority travDetermineMeta travDetermineDraws visibilityTest
     coarsenessTest computeResourcePriority mode).
Local Abbreviation popL := (pop Priority top).
Local Abbreviation traverseLoopL :=
  (traverseLoop Priority travDetermineMeta travDetermineDraws visibilityTest
     coarsenessTest computeResourcePriority top mode).
Local Abbreviation renderTickRenderL :=
  (renderTickRender Priority travDetermineMeta travDetermineDraws
     visibilityTest coarsenessTest computeResourcePriority top mode).

Lemma pop_elem (queue rest : list Item) it :
  popL queue = Some (it, rest) →
  it ∈ queue ∧ ∀ it', it' ∈ rest → it' ∈ queue.
Proof.
  unfold pop. destruct (queue !! _) as [it0|] eqn:E; [|done].
  intros [= <- <-]. split; [by eapply list_elem_of_lookup_2|].
  intros it' Hin. eapply elem_of_sublist; [done|apply sublist_delete].
Qed.

Lemma renderCalls_elem k (it : Item) evs (e : Call) :
  e ∈ renderCalls Priority k it evs →
  call_pass Priority e = k
  ∧ call_ancestors Priority e = item_ancestors Priority it
  ∧ Rendered (call_trav Priority e) ∈ evs.
Proof.
  unfold renderCalls. intros Hin. apply list_elem_of_omap in Hin.
  destruct Hin as (ev & Hev & Hsome). destruct ev as [t|t lo]; [|done].
  injection Hsome as <-. done.
Qed.

Lemma queued_elem k (it it' : Item) evs :
  it' ∈ queued Priority k it evs →
  item_ancestors Priority it' = k :: item_ancestors Priority it
  ∧ Queued (item_trav Priority it') (item_loadOnly Priority it') ∈ evs.
Proof.
  unfold queued. intros Hin. apply list_elem_of_omap in Hin.
  destruct Hin as (ev & Hev & Hsome). destruct ev as [t|t lo]; [done|].
  injection Hsome as <-. done.
Qed.

(** A visit calls [renderNode] once at most. *)
Lemma renderCalls_once k (it : Item) :
  (length (renderCalls Priority k it (visitL k it)) ≤ 1)%nat.
Proof.
  unfold visit.
  destruct (traverse_shape Priority (travDetermineMeta k)
              (travDetermineDraws k) (visibilityTest k) (coarsenessTest k)
              (computeResourcePriority k) mode (item_trav Priority it)
              (item_loadOnly Priority it))
    as [E|[(t & E & Hl)|[(t & E)|(t & t' & E & Hl)]]];
    simpl in E; rewrite E; clear E; simpl; try lia.
  - unfold enqueueChilds. induction (childs t); simpl; [lia|done].
  - unfold enqueueChilds. induction (childs t'); simpl; [lia|done].
Qed.

(** Where a call of [renderNode] comes from: an entry of the queue
    without [loadOnly], through visits none of which called
    [renderNode]. *)
Lemma traverseLoop_descent fuel k (queue : list Item) :
  (∀ it a, it ∈ queue → a ∈ item_ancestors Priority it → (a < k)%nat) →
  ∀ e, e ∈ traverseLoopL fuel k queue →
    (k ≤ call_pass Priority e)%nat
    ∧ ∃ it newer,
        it ∈ queue ∧ item_loadOnly Priority it = false
        ∧ call_ancestors Priority e = newer ++ item_ancestors Priority it
        ∧ (∀ a, a ∈ newer → (k ≤ a < call_pass Priority e)%nat)
        ∧ (∀ a e', a ∈ newer → e' ∈ traverseLoopL fuel k queue →
                   call_pass Priority e' ≠ a).
Proof.
  revert k queue. induction fuel as [|fuel IH]; intros k queue Hq e He;
    simpl in He; [by apply elem_of_nil in He|].
  simpl.
  destruct (popL queue) as [[it0 rest]|] eqn:Hpop;
    [|by apply elem_of_nil in He].
  apply pop_elem in Hpop as [Hit0 Hrest].
  pose proof (traverse_events Priority (travDetermineMeta k)
                (travDetermineDraws k) (visibilityTest k) (coarsenessTest k)
                (computeResourcePriority k) mode (item_trav Priority it0)
                (item_loadOnly Priority it0)) as [Hlo Hq0].
  fold (visitL k it0) in Hlo, Hq0.
  assert (Hnext : ∀ it a, it ∈ rest ++ queued Priority k it0 (visitL k it0) →
                          a ∈ item_ancestors Priority it → (a < S k)%nat).
  { intros it a Hin Ha. apply elem_of_app in Hin as [Hin|Hin].
    - specialize (Hq it a (Hrest _ Hin) Ha). lia.
    - apply queued_elem in Hin as [Hanc _]. rewrite Hanc in Ha.
      apply elem_of_cons in Ha as [->|Ha]; [lia|].
      specialize (Hq it0 a Hit0 Ha). lia. }
  apply elem_of_app in He as [He|He].
  - apply renderCalls_elem in He as (Hp & Ha & Hr).
    split; [lia|]. exists it0, []. split; [done|]. split.
    { destruct (item_loadOnly Priority it0) eqn:El; [|done].
      destruct (Hlo eq_refl _ Hr) as [t Ht]. done. }
    split; [done|]. split; intros a; [|intros e']; intros Hin;
      by apply elem_of_nil in Hin.
  - destruct (IH _ _ Hnext e He)
      as (Hp & it & newer & Hit & Hl & Hanc & Hnew & Hfree).
    split; [lia|].
    assert (Hlater : ∀ e', e' ∈ renderCalls Priority k it0 (visitL k it0)
                                 ++ traverseLoopL fuel (S k)
                                      (rest ++ queued Priority k it0
                                                 (visitL k it0)) →
                           ∀ a, (S k ≤ a)%nat → a ∈ newer →
                                call_pass Priority e' ≠ a).
    { intros e' He' a Ha Hin. apply elem_of_app in He' as [He'|He'].
      - apply renderCalls_elem in He' as (Hp' & _). lia.
      - by apply Hfree. }
    apply elem_of_app in Hit as [Hit|Hit].
    + exists it, newer. split; [by apply Hrest|]. split; [done|].
      split; [done|]. split.
      * intros a Ha. specialize (Hnew a Ha). lia.
      * intros a e' Ha He'. apply Hlater; [done| |done].
        specialize (Hnew a Ha). lia.
    + apply queued_elem in Hit as [Hanc' Hev]. rewrite Hl in Hev.
      destruct (Hq0 _ Hev) as [Hl0 Hall].
      exists it0, (newer ++ [k]). split; [done|]. split; [done|].
      split; [by rewrite Hanc, Hanc', <- (assoc_L (++))|]. split.
      * intros a Ha. apply elem_of_app in Ha as [Ha|Ha].
        -- specialize (Hnew a Ha). lia.
        -- apply list_elem_of_singleton in Ha as ->. lia.
      * intros a e' Ha He'. apply elem_of_app in Ha as [Ha|Ha].
        -- apply Hlater; [done| |done]. specialize (Hnew a Ha). lia.
        -- apply list_elem_of_singleton in Ha as ->.
           apply elem_of_app in He' as [He'|He'].
           ++ apply renderCalls_elem in He' as (_ & _ & Hr).
              destruct (Hall _ Hr) as [t' Ht']. done.
           ++ destruct (IH _ _ Hnext e' He') as [Hp' _]. lia.
Qed.

Lemma traverseLoop_passes fuel k (queue : list Item) :
  NoDup (call_pass Priority <$> traverseLoopL fuel k queue)
  ∧ ∀ e, e ∈ traverseLoopL fuel k queue → (k ≤ call_pass Priority e)%nat.
Proof.
  revert k queue. induction fuel as [|fuel IH]; intros k queue; simpl.
  { split; [constructor|]. intros e He. by apply elem_of_nil in He. }
  destruct (popL queue) as [[it0 rest]|] eqn:Hpop.
  2:{ split; [constructor|]. intros e He. by apply elem_of_nil in He. }
  destruct (IH (S k) (rest ++ queued Priority k it0 (visitL k it0)))
    as [Hnd Hge].
  split.
  - rewrite fmap_app. apply NoDup_app. split; [|split; [|done]].
    + pose proof (renderCalls_once k it0) as Hlen.
      destruct (renderCalls Priority k it0 (visitL k it0)) as [|c [|c' l]];
        simpl in *; [constructor|apply NoDup_singleton|lia].
    + intros p Hp Hp'. apply list_elem_of_fmap in Hp as (e & -> & He).
      apply list_elem_of_fmap in Hp' as (e' & Heq & He').
      apply renderCalls_elem in He as (Hk & _). specialize (Hge _ He'). lia.
  - intros e He. apply elem_of_app in He as [He|He].
    + apply renderCalls_elem in He as (Hk & _). lia.
    + specialize (Hge _ He). lia.
Qed.

(** X17: in the loop of [renderTickRender], whatever the order of the
    queue and whatever metadata, draws, visibility and coarseness
    turn out to be, [renderNode] is called at most once in a pass, and
    never for a node one of whose ancestors it was called for: of a
    node and the nodes below it, at most one level is drawn. *)
Theorem rendered_nodes_antichain (fuel : nat)
    (traverseRoot : TraverseNode Priority) :
  let calls := renderTickRenderL fuel traverseRoot in
  NoDup (call_pass Priority <$> calls)
  ∧ ∀ e e', e ∈ calls → e' ∈ calls →
            call_pass Priority e' ∉ call_ancestors Priority e.
Proof.
  simpl. unfold renderTickRender. split; [apply traverseLoop_passes|].
  intros e e' He He' Hin.
  set (queue := [{| item_trav := traverseRoot; item_loadOnly := false;
                    item_ancestors := [] |}]) in *.
  assert (Hq : ∀ (it : Item) a, it ∈ queue →
                 a ∈ item_ancestors Priority it → (a < 0)%nat).
  { intros it a Hit Ha. apply list_elem_of_singleton in Hit as ->.
    by apply elem_of_nil in Ha. }
  destruct (traverseLoop_descent fuel 0 queue Hq e He)
    as (_ & it & newer & Hit & _ & Hanc & _ & Hfree).
  apply list_elem_of_singleton in Hit as ->. simpl in Hanc.
  rewrite app_nil_r in Hanc. subst newer.
  by apply (Hfree _ e' Hin He').
Qed.

End LoopFacts.

(** A root with two leaves that have their draws: the loop, taking the
    first entry of the queue each time, draws the two leaves in passes
    1 and 2 and not the root, which was visited in pass 0.  When one
    leaf has no metadata yet, the root is drawn instead and nothing
    below it. *)
Lemma rendered_nodes_antichain_witness :
  let leaf (md : option MetaInfo) : TraverseNode unit :=
    {| meta := md;
       renders := {| opaque := [ {| task_ready := true |} ];
                     transparent := []; infographic := [] |};
       childs := []; priority := tt |} in
  let root (second : option MetaInfo) : TraverseNode unit :=
    {| meta := Some {| surface := false |};
       renders := {| opaque := []; transparent := []; infographic := [] |};
       childs := [leaf (Some {| surface := true |}); leaf second];
       priority := tt |} in
  let run := renderTickRender unit (λ _ t, (false, t)) (λ _ t, t)
               (λ _ _, true) (λ _ _, false) (λ _ _, tt) (λ _, 0%nat)
               Hierarchical 10 in
  (call_pass unit <$> run (root (Some {| surface := true |})) = [1; 2]%nat
   ∧ call_ancestors unit <$> run (root (Some {| surface := true |}))
     = [[0]; [0]]%nat)
  ∧ call_pass unit <$> run (root None) = [0%nat]
  ∧ ∀ e e', e ∈ run (root None) → e' ∈ run (root None) →
            call_pass unit e' ∉ call_ancestors unit e.
Proof.
  intros leaf root run. split; [split; reflexivity|].
  split; [reflexivity|].
  apply (rendered_nodes_antichain unit (λ _ t, (false, t)) (λ _ t, t)
           (λ _ _, true) (λ _ _, false) (λ _ _, tt) (λ _, 0%nat)
           Hierarchical 10 (root None)).
Defined.

(** ** Virtual surfaces *)

Lemma string_leb_trans a b c :
  String.leb a b = true → String.leb b c = true → String.leb a c = true.
Proof.
  revert b c. induction a as [|x a IH]; intros [|y b] [|z c]; try done.
  unfold String.leb. simpl. unfold Ascii.compare.
  destruct (N.compare_spec (N_of_ascii x) (N_of_ascii y)) as [Exy|Exy|Exy];
    destruct (N.compare_spec (N_of_ascii y) (N_of_ascii z)) as [Eyz|Eyz|Eyz];
    try done.
  - rewrite Exy, Eyz, N.compare_refl. apply IH.
  - rewrite Exy. by rewrite (proj2 (N.compare_lt_iff _ _) Eyz).
  - rewrite <- Eyz. by rewrite (proj2 (N.compare_lt_iff _ _) Exy).
  - by rewrite (proj2 (N.compare_lt_iff _ _) (N.lt_trans _ _ _ Exy Eyz)).
Qed.

Lemma not_after_ltb_leb a b : not_after String.ltb a b ↔ String.leb a b = true.
Proof.
  unfold not_after, String.ltb, String.leb.
  rewrite (String.compare_antisym a b).
  by destruct (String.compare b a).
Qed.

(** A list has one sorted arrangement. *)
Lemma sorted_strings_unique l1 l2 :
  Sorted (not_after String.ltb) l1 → Sorted (not_after String.ltb) l2 →
  Permutation l1 l2 → l1 = l2.
Proof.
  intros H1 H2.
  assert (Htrans : Relations_1.Transitive (not_after String.ltb)).
  { intros a b c. rewrite !not_after_ltb_leb. apply string_leb_trans. }
  apply Sorted_StronglySorted in H1; [|done].
  apply Sorted_StronglySorted in H2; [|done].
  clear Htrans. revert l2 H2.
  induction H1 as [|x l1 Hs1 IH Hx]; intros l2 H2 Hp.
  - by apply Permutation_nil in Hp.
  - destruct H2 as [|y l2 Hs2 Hy]; [by apply Permutation_nil_r in Hp|].
    assert (x = y) as <-.
    { assert (Hin1 : x ∈ y :: l2) by (rewrite <- Hp; left).
      assert (Hin2 : y ∈ x :: l1) by (rewrite Hp; left).
      apply elem_of_cons in Hin1 as [?|Hin1]; [done|].
      apply elem_of_cons in Hin2 as [?|Hin2]; [done|].
      rewrite Forall_forall in Hx, Hy.
      apply String.leb_antisym; apply not_after_ltb_leb; auto. }
    f_equal. apply IH; [done|]. by apply Permutation_cons_inv in Hp.
Qed.

Lemma string_ltb_asym a b : String.ltb a b = true → String.ltb b a = false.
Proof.
  unfold String.ltb. rewrite (String.compare_antisym b a).
  by destruct (String.compare a b).
Qed.

Lemma matchesView_perm viewSurfaces it :
  matchesView viewSurfaces it = true
  ↔ Permutation (vs_id it) viewSurfaces.
Proof.
  unfold matchesView. split.
  - destruct (negb _); [done|]. intros H%bool_decide_eq_true.
    rewrite (std_sort_perm String.ltb (vs_id it)), <- H.
    symmetry. apply std_sort_perm.
  - intros Hp.
    assert (length (vs_id it) = length (std_sort String.ltb viewSurfaces))
      as Hlen.
    { rewrite Hp. apply Permutation_length, std_sort_perm. }
    rewrite (proj2 (Nat.eqb_eq _ _) Hlen). simpl.
    apply bool_decide_eq_true. apply sorted_strings_unique.
    + apply std_sort_sorted, string_ltb_asym.
    + apply std_sort_sorted, string_ltb_asym.
    + rewrite <- (std_sort_perm String.ltb viewSurfaces).
      rewrite <- (std_sort_perm String.ltb (vs_id it)). done.
Qed.

(** X18: [prerequisitesCheck] uses the first virtual surface whose ids
    are the surfaces of the view in some order, each as often as it
    occurs there, and none when there is no such virtual surface. *)
Theorem findVirtualSurface_first_match (viewSurfaces : list string)
    (virtualSurfaces : list VirtualSurfaceConfig) :
  match findVirtualSurface viewSurfaces virtualSurfaces with
  | Some it =>
      ∃ before after,
        virtualSurfaces = before ++ it :: after
        ∧ Permutation (vs_id it) viewSurfaces
        ∧ Forall (λ b, ¬ Permutation (vs_id b) viewSurfaces) before
  | None =>
      Forall (λ b, ¬ Permutation (vs_id b) viewSurfaces) virtualSurfaces
  end.
Proof.
  induction virtualSurfaces as [|it rest IH]; simpl; [constructor|].
  destruct (matchesView viewSurfaces it) eqn:E.
  - exists [], rest. split; [done|].
    split; [by apply matchesView_perm|constructor].
  - assert (¬ Permutation (vs_id it) viewSurfaces) as Hn.
    { intros Hp%matchesView_perm. congruence. }
    destruct (findVirtualSurface viewSurfaces rest) as [it'|].
    + destruct IH as (before & after & -> & Hp & Hb).
      exists (it :: before), after. split; [done|].
      split; [done|by constructor].
    + by constructor.
Qed.

(** A view of two surfaces and three virtual surfaces: the second is
    the first to list both, in the other order. *)
Lemma findVirtualSurface_witness :
  let vs ids m := {| vs_id := ids; vs_mapping := m |} in
  findVirtualSurface ["alps"; "world"]
    [vs ["alps"; "town"] "m0"; vs ["world"; "alps"] "m1";
     vs ["alps"; "world"] "m2"]
  = Some (vs ["world"; "alps"] "m1")
  ∧ Permutation ["world"; "alps"] ["alps"; "world"].
Proof.
  intros vs.
  pose proof (findVirtualSurface_first_match ["alps"; "world"]
                [vs ["alps"; "town"] "m0"; vs ["world"; "alps"] "m1";
                 vs ["alps"; "world"] "m2"]) as H.
  assert (E : findVirtualSurface ["alps"; "world"]
                [vs ["alps"; "town"] "m0"; vs ["world"; "alps"] "m1";
                 vs ["alps"; "world"] "m2"]
              = Some (vs ["world"; "alps"] "m1")) by reflexivity.
  rewrite E in H. destruct H as (_ & _ & _ & Hp & _).
  split; [exact E|exact Hp].
Defined.

(** ** Further examples *)

(** With no cache path given and the home directory "/home/u", the
    cache is at "/home/u/.cache/vts-browser/". *)
Lemma Resources_cachePath_witness :
  Resources_cachePath "" "/home/u" = Some "/home/u/.cache/vts-browser/"
  ∧ back "/home/u/.cache/vts-browser/" = Some "/"%char.
Proof.
  destruct (Resources_cachePath_slash "" "/home/u") as [_ H].
  specialize (H "/home/u/.cache/vts-browser/" eq_refl).
  split; [reflexivity|exact (proj1 H)].
Defined.

(** Three tiles in the queue: three ticks of the data thread empty
    it. *)
Lemma dataTick_takes_one_witness :
  let w := requested 3 10 in
  size (prepareQue w) = 3%nat
  ∧ prepareQue (play (repeat EvDataTick 3) w) = ∅.
Proof.
  intros w. split; [reflexivity|].
  destruct (dataTick_takes_one (λ _, true) (λ _, []) id w) as (_ & _ & H).
  apply (H 3%nat). vm_compute. lia.
Defined.

(** Corner 5 is the upper corner in the first and the third
    coordinate. *)
Lemma tile_box_edges_witness :
  lowerUpperCombine 5 = (1, 0, 1) ∧ 5 mod 8 = 1 + 2 * 0 + 4 * 1.
Proof.
  destruct tile_box_edges as [H _].
  destruct (H 5 ltac:(lia)) as (_ & _ & _ & H5).
  split; [reflexivity|exact H5].
Defined.
